(** * BuildlessTypeScript: the comment scanner of [src/compiler/scanner.ts]

    A shallow embedding of the code added to the TypeScript scanner to
    recognise TS comments ([/*: T */] and [/*:: decl */]):

    - [commentScan], the delimiter classifier;
    - [createTSCommentScanner], the clonable cursor built on it, with the
      [Map] objects it allocates and shares kept in an explicit store;
    - [createTSSyntaxTracker], the range classifier;
    - the comment paths of [skipTrivia] and of the token scanner's [scan];
    - the functions around them: [couldStartTrivia], [iterateCommentRanges]
      with the functions that call it, [computeLineStarts],
      [lookupInUnicodeMap], and the UTF-16 helpers.

    Strings are sequences of UTF-16 code units, positions are integers, and
    a JavaScript [Map<number, _>] is a [gmap Z _]. *)

From Stdlib Require Import ZArith Lia Bool Ascii String.
From stdpp Require Import base option list gmap sorting strings.

Local Open Scope Z_scope.

(** ** Source text *)

(** A JavaScript string: its UTF-16 code units. *)
Definition Text := list Z.

Definition text_length (text : Text) : Z := Z.of_nat (length text).

(** [text.charCodeAt(i)]; [None] stands for [NaN]. *)
Definition charCodeAt (text : Text) (i : Z) : option Z :=
  if 0 <=? i then text !! Z.to_nat i else None.

(** [s.codePointAt(i)]; [None] stands for [undefined]. *)
Definition codePointAt (text : Text) (i : Z) : option Z :=
  match charCodeAt text i with
  | None => None
  | Some first =>
      if (0xD800 <=? first) && (first <=? 0xDBFF) then
        match charCodeAt text (i + 1) with
        | Some second =>
            if (0xDC00 <=? second) && (second <=? 0xDFFF)
            then Some ((first - 0xD800) * 0x400 + (second - 0xDC00) + 0x10000)
            else Some first
        | None => Some first
        end
      else Some first
  end.

(** [ch === c] for a character code that may be [NaN] or [undefined]. *)
Definition codeIs (ch : option Z) (c : Z) : bool :=
  match ch with Some x => x =? c | None => false end.

(** A run of [case] labels of a [switch (ch)]. *)
Definition isCase (ch : option Z) (labels : list Z) : bool :=
  match ch with Some x => existsb (Z.eqb x) labels | None => false end.

(** The code units of an ASCII literal, for writing down inputs. *)
Definition text_of (s : string) : Text :=
  (fun a => Z.of_N (N_of_ascii a)) <$> list_ascii_of_string s.

(** Modelled from the spec: the [CharacterCodes] enum is declared in
    [types.ts], which is not part of the sources at hand; every member used
    by the scanner is the Unicode code point that its name denotes. *)
Module CharacterCodes.
Definition lineFeed := 0x0A.
Definition carriageReturn := 0x0D.
Definition lineSeparator := 0x2028.
Definition paragraphSeparator := 0x2029.
Definition nextLine := 0x85.
Definition space := 0x20.
Definition nonBreakingSpace := 0xA0.
Definition enQuad := 0x2000.
Definition emQuad := 0x2001.
Definition enSpace := 0x2002.
Definition emSpace := 0x2003.
Definition threePerEmSpace := 0x2004.
Definition fourPerEmSpace := 0x2005.
Definition sixPerEmSpace := 0x2006.
Definition figureSpace := 0x2007.
Definition punctuationSpace := 0x2008.
Definition thinSpace := 0x2009.
Definition hairSpace := 0x200A.
Definition zeroWidthSpace := 0x200B.
Definition narrowNoBreakSpace := 0x202F.
Definition ideographicSpace := 0x3000.
Definition mathematicalSpace := 0x205F.
Definition ogham := 0x1680.
Definition byteOrderMark := 0xFEFF.
Definition tab := 0x09.
Definition verticalTab := 0x0B.
Definition formFeed := 0x0C.
Definition maxAsciiCharacter := 0x7F.
Definition asterisk := 0x2A.
Definition slash := 0x2F.
Definition colon := 0x3A.
Definition hash := 0x23.
Definition exclamation := 0x21.
Definition equals := 0x3D.
Definition lessThan := 0x3C.
Definition greaterThan := 0x3E.
Definition bar := 0x7C.
Definition replacementCharacter := 0xFFFD.
End CharacterCodes.

Definition isLineBreak (ch : Z) : bool :=
  (ch =? CharacterCodes.lineFeed) || (ch =? CharacterCodes.carriageReturn)
  || (ch =? CharacterCodes.lineSeparator) || (ch =? CharacterCodes.paragraphSeparator).

Definition isWhiteSpaceSingleLine (ch : Z) : bool :=
  (ch =? CharacterCodes.space) || (ch =? CharacterCodes.tab)
  || (ch =? CharacterCodes.verticalTab) || (ch =? CharacterCodes.formFeed)
  || (ch =? CharacterCodes.nonBreakingSpace) || (ch =? CharacterCodes.nextLine)
  || (ch =? CharacterCodes.ogham)
  || ((CharacterCodes.enQuad <=? ch) && (ch <=? CharacterCodes.zeroWidthSpace))
  || (ch =? CharacterCodes.narrowNoBreakSpace)
  || (ch =? CharacterCodes.mathematicalSpace)
  || (ch =? CharacterCodes.ideographicSpace) || (ch =? CharacterCodes.byteOrderMark).

Definition isWhiteSpaceLike (ch : Z) : bool :=
  isWhiteSpaceSingleLine ch || isLineBreak ch.

(** [isLineBreak(text.charCodeAt(pos))]: [NaN] is no line break. *)
Definition isLineBreakAt (text : Text) (pos : Z) : bool :=
  from_option isLineBreak false (charCodeAt text pos).

(** *** The shebang line

    [shebangTriviaRegex] is [/^#!.*/]: without the [s] flag the dot matches
    every code unit but the four line terminators. *)
Fixpoint regexDotStar (units : list Z) : Z :=
  match units with
  | c :: rest => if isLineBreak c then 0 else 1 + regexDotStar rest
  | [] => 0
  end.

Definition isShebangTrivia (text : Text) : bool :=
  codeIs (charCodeAt text 0) CharacterCodes.hash
  && codeIs (charCodeAt text 1) CharacterCodes.exclamation.

Definition scanShebangTrivia (text : Text) (pos : Z) : Z :=
  pos + (2 + regexDotStar (drop 2 text)).

(** ** Delimiter events *)

Inductive BlockCommentDelimiterType :=
  | openNonTsComment
  | openTsCommentWithoutColons
  | singleColonForOpenTsComment
  | doubleColonForOpenTsComment
  | close.

#[global] Instance BlockCommentDelimiterType_eq_dec :
  EqDecision BlockCommentDelimiterType.
Proof. solve_decision. Defined.

(** One call [onCommentDelimiter(pos, commentDelimiterType)]. *)
Definition Delimiter : Type := Z * BlockCommentDelimiterType.

(** How a call ends: it returns, or a [Debug] assertion fails. *)
Inductive Completion (A : Type) :=
  | Normal (a : A)
  | Throw.
Arguments Normal {A} a.
Arguments Throw {A}.

(** ** [commentScan] *)

(** The [while (pos < end)] loop of a single-line comment. *)
Fixpoint scanLineComment (fuel : nat) (text : Text) (end_ pos : Z) : Z :=
  match fuel with
  | O => pos
  | S fuel =>
      if pos <? end_ then
        if isLineBreakAt text pos then pos
        else scanLineComment fuel text end_ (pos + 1)
      else pos
  end.

(** The loop after [/*]: spaces are passed, a colon sets [isTsComment]. *)
Fixpoint scanTsCommentPrefix (fuel : nat) (text : Text) (end_ pos : Z) : Z * bool :=
  match fuel with
  | O => (pos, false)
  | S fuel =>
      if pos <? end_ then
        if codeIs (charCodeAt text pos) CharacterCodes.space
        then scanTsCommentPrefix fuel text end_ (pos + 1)
        else if codeIs (charCodeAt text pos) CharacterCodes.colon
        then (pos, true)
        else (pos, false)
      else (pos, false)
  end.

(** The loop through the body of a block comment that is no TS comment; the
    second component is the position of the closing delimiter it reported. *)
Fixpoint scanBlockCommentBody (fuel : nat) (text : Text) (end_ pos : Z)
  : Z * list Delimiter :=
  match fuel with
  | O => (pos, [])
  | S fuel =>
      if pos <? end_ then
        if codeIs (charCodeAt text pos) CharacterCodes.asterisk
           && codeIs (charCodeAt text (pos + 1)) CharacterCodes.slash
        then (pos + 2, [(pos, close)])
        else scanBlockCommentBody fuel text end_ (pos + 1)
      else (pos, [])
  end.

(** Each of the three loops moves one unit at a time towards [end]. *)
Definition distance (end_ pos : Z) : nat := Z.to_nat (end_ - pos).

Definition colonCount (text : Text) (pos : Z) : Z :=
  if negb (codeIs (charCodeAt text (pos + 1)) CharacterCodes.colon) then 1
  else if negb (codeIs (charCodeAt text (pos + 2)) CharacterCodes.colon) then 2
  else 3.

(** One turn of the [while (true)] loop of [commentScan]. *)
Inductive Iteration :=
  | Returns (pos : Z)
  | Throws
  | Continues (pos : Z) (delimiters : list Delimiter).

Definition lineBreakCases : list Z :=
  [CharacterCodes.lineFeed; CharacterCodes.carriageReturn].

Definition whiteSpaceCases : list Z :=
  [CharacterCodes.tab; CharacterCodes.verticalTab; CharacterCodes.formFeed;
   CharacterCodes.space; CharacterCodes.nonBreakingSpace; CharacterCodes.ogham;
   CharacterCodes.enQuad; CharacterCodes.emQuad; CharacterCodes.enSpace;
   CharacterCodes.emSpace; CharacterCodes.threePerEmSpace;
   CharacterCodes.fourPerEmSpace; CharacterCodes.sixPerEmSpace;
   CharacterCodes.figureSpace; CharacterCodes.punctuationSpace;
   CharacterCodes.thinSpace; CharacterCodes.hairSpace;
   CharacterCodes.zeroWidthSpace; CharacterCodes.narrowNoBreakSpace;
   CharacterCodes.mathematicalSpace; CharacterCodes.ideographicSpace;
   CharacterCodes.byteOrderMark].

Definition commentScanBlockComment (text : Text) (end_ pos : Z) : Iteration :=
  let saveStartPos := pos in
  let pos := pos + 2 in
  let '(pos, isTsComment) := scanTsCommentPrefix (distance end_ pos) text end_ pos in
  let count := if isTsComment then colonCount text pos else 0 in
  if isTsComment && ((count =? 1) || (count =? 2)) then
    Continues (pos + count)
      [(saveStartPos, openTsCommentWithoutColons);
       (pos, if count =? 1 then singleColonForOpenTsComment
             else doubleColonForOpenTsComment)]
  else
    (* a triple colon is no TS comment *)
    let pos := if isTsComment then pos + 3 else pos in
    let '(pos, closing) := scanBlockCommentBody (distance end_ pos) text end_ pos in
    Continues pos ((saveStartPos, openNonTsComment) :: closing).

Definition commentScanIteration (text : Text) (end_ : Z)
    (stopOnSignificantText : bool) (pos : Z) : Iteration :=
  let ch := codePointAt text pos in
  if end_ <=? pos then Returns pos
  else if (pos =? 0) && codeIs ch CharacterCodes.hash && isShebangTrivia text then
    let pos := scanShebangTrivia text pos in
    (* Debug.assertLessThan(pos, end) *)
    if pos <? end_ then Continues pos [] else Throws
  else if isCase ch lineBreakCases then Continues (pos + 1) []
  else if isCase ch whiteSpaceCases then Continues (pos + 1) []
  else if codeIs ch CharacterCodes.asterisk then
    if codeIs (charCodeAt text (pos + 1)) CharacterCodes.slash
    then Continues (pos + 2) [(pos, close)]
    else Continues (pos + 1) []
  else if codeIs ch CharacterCodes.slash then
    if codeIs (charCodeAt text (pos + 1)) CharacterCodes.slash then
      Continues (scanLineComment (distance end_ (pos + 2)) text end_ (pos + 2)) []
    else if codeIs (charCodeAt text (pos + 1)) CharacterCodes.asterisk then
      commentScanBlockComment text end_ pos
    else Continues (pos + 1) []
  else if (end_ <=? pos) || stopOnSignificantText then Returns pos
  else Continues (pos + 1) [].

(** The loop itself.  [None] means that [fuel] turns were not enough; the
    delimiters reported so far are carried along in call order. *)
Fixpoint commentScanLoop (fuel : nat) (text : Text) (end_ : Z)
    (stopOnSignificantText : bool) (pos : Z) (reported : list Delimiter)
  : option (list Delimiter * Completion Z) :=
  match fuel with
  | O => None
  | S fuel =>
      match commentScanIteration text end_ stopOnSignificantText pos with
      | Returns pos => Some (reported, Normal pos)
      | Throws => Some (reported, Throw)
      | Continues pos' delimiters =>
          commentScanLoop fuel text end_ stopOnSignificantText pos'
            (reported ++ delimiters)
      end
  end.

(** Every turn that does not return moves [pos] forward, and the loop
    returns once [pos >= end]: [end - start] turns and a last one suffice
    (see [commentScanLoop_total]). *)
Definition commentScanFuel (start end_ : Z) : nat := S (distance end_ start).

(** [commentScan(text, start, end, stopOnSignificantText, onCommentDelimiter)]:
    the calls it makes to [onCommentDelimiter], in order, and how it ends. *)
Definition commentScan (text : Text) (start end_ : Z)
    (stopOnSignificantText : bool) : list Delimiter * Completion Z :=
  default ([], Throw)
    (commentScanLoop (commentScanFuel start end_) text end_
       stopOnSignificantText start []).

(** ** The comment scanner cursor: [createTSCommentScanner] *)

Inductive TsCommentScannerState :=
  | notInComment
  | inBlockComment
  | inTSBlockComment.

#[global] Instance TsCommentScannerState_eq_dec : EqDecision TsCommentScannerState.
Proof. solve_decision. Defined.

(** [array.sort((a, b) => key(a) - key(b))]: a stable sort on an integer key. *)
Fixpoint insertByKey {A} (key : A -> Z) (x : A) (l : list A) : list A :=
  match l with
  | [] => [x]
  | y :: l' => if key x <=? key y then x :: l else y :: insertByKey key x l'
  end.

Definition sortByKey {A} (key : A -> Z) (l : list A) : list A :=
  foldr (insertByKey key) [] l.

(** A [TsCommentPosition] under construction ([Partial<TsCommentPosition>]):
    a field that has not been assigned is [None]. *)
Module TsCommentPosition.
Record t := mk {
  open : option Z;
  colonPos : option Z;
  close : option Z;
  colonCount : option Z;
  containedInnerOpeningBlockComment : bool
}.

(** [{ containedInnerOpeningBlockComment: false }] *)
Definition fresh : t := mk None None None None false.

Definition populated (p : t) : Prop :=
  is_Some (open p) /\ is_Some (colonPos p) /\ is_Some (close p)
  /\ (colonCount p = Some 1 \/ colonCount p = Some 2).

#[global] Instance TsCommentPosition_eq_dec : EqDecision t.
Proof. solve_decision. Defined.
End TsCommentPosition.

(** The [Map] objects allocated so far; a reference is an index into it. *)
Definition Ref := nat.
Abbreviation DelimiterMap := (gmap Z BlockCommentDelimiterType).
Abbreviation Store := (list (gmap Z BlockCommentDelimiterType)).

Module TsCommentScanner.

(** The variables of one [createTSCommentScanner] call that its methods
    close over.  [_delimiterPositions] is the fourth argument as it was
    passed ([None] when it was omitted), [delimiterPositions] the constant
    initialised from it. *)
Record t := mk {
  pos : Z;
  state : TsCommentScannerState;
  _delimiterPositions : option Ref;
  delimiterPositions : Ref
}.

Definition setPos (p : Z) (sc : t) : t :=
  mk p (state sc) (_delimiterPositions sc) (delimiterPositions sc).
Definition setState (s : TsCommentScannerState) (sc : t) : t :=
  mk (pos sc) s (_delimiterPositions sc) (delimiterPositions sc).

(** A scanner and the store its map lives in. *)
Definition World : Type := t * Store.

(** Methods run in a state monad over [World] in which an assertion
    failure ends the call and keeps the effects made before it. *)
Definition M (A : Type) : Type := World -> Completion A * World.

Definition ret {A} (a : A) : M A := fun w => (Normal a, w).

Definition bind {A B} (m : M A) (k : A -> M B) : M B :=
  fun w =>
    match m w with
    | (Normal a, w') => k a w'
    | (Throw, w') => (Throw, w')
    end.

Definition get : M t := fun w => (Normal (fst w), w).
Definition modify (f : t -> t) : M unit := fun w => (Normal tt, (f (fst w), snd w)).

End TsCommentScanner.

Declare Scope scanner_scope.
Delimit Scope scanner_scope with scanner.
Notation "x <- m ;; k" := (TsCommentScanner.bind m (fun x => k))
  (at level 100, m at next level, right associativity) : scanner_scope.
Notation "m ;;; k" := (TsCommentScanner.bind m (fun _ => k))
  (at level 100, right associativity) : scanner_scope.

Module TsCommentScannerMethods.
Import TsCommentScanner.
Local Open Scope scanner_scope.

(** [createTSCommentScanner({ text }, _pos, _state, _delimiterPositions)]:
    [_delimiterPositions ?? new Map()] allocates when the argument is
    missing. *)
Definition createTSCommentScanner (_pos : option Z)
    (_state : option TsCommentScannerState) (_delimiterPositions : option Ref)
    (store : Store) : World :=
  match _delimiterPositions with
  | Some r =>
      (mk (default 0 _pos) (default notInComment _state) _delimiterPositions r,
       store)
  | None =>
      (mk (default 0 _pos) (default notInComment _state) _delimiterPositions
          (length store),
       store ++ [∅])
  end.

Definition getCurrentPos (sc : t) : Z := pos sc.

(** [clone()] passes on [pos], [state] and the argument
    [_delimiterPositions]. *)
Definition clone (sc : t) (store : Store) : World :=
  createTSCommentScanner (Some (pos sc)) (Some (state sc))
    (_delimiterPositions sc) store.

Definition stateAfter (ty : BlockCommentDelimiterType)
    (s : TsCommentScannerState) : TsCommentScannerState :=
  match ty with
  | close => notInComment
  | openTsCommentWithoutColons => inTSBlockComment
  | openNonTsComment => inBlockComment
  | _ => s
  end.

Definition onCommentDelimiter (w : World) (d : Delimiter) : World :=
  let '(sc, store) := w in
  (setState (stateAfter (snd d) (state sc)) sc,
   alter (insert (fst d) (snd d)) (delimiterPositions sc) store).

(** [commentScan(text, start, end, stop, onCommentDelimiter)] called by a
    method: the delimiters go to [onCommentDelimiter] as they are found. *)
Definition scanReporting (text : Text) (start end_ : Z) (stop : bool)
  : M (Z * list Delimiter) :=
  fun w =>
    let '(delimiters, result) := commentScan text start end_ stop in
    let w' := foldl onCommentDelimiter w delimiters in
    match result with
    | Normal stopped => (Normal (stopped, delimiters), w')
    | Throw => (Throw, w')
    end.

Definition inTSComment : M bool :=
  sc <- get ;; ret (bool_decide (state sc = inTSBlockComment)).

Definition scanThroughLeafNode (text : Text) (node_pos node_end : Z) : M bool :=
  sc <- get ;;
  if node_end <? pos sc then ret false
  else
    scanReporting text (pos sc) node_pos false ;;;
    scanReporting text node_pos node_end true ;;;
    modify (setPos node_end) ;;;
    inTSComment.

Definition scanTo (text : Text) (end_ : Z) : M bool :=
  sc <- get ;;
  if end_ <? pos sc then ret false
  else
    r <- scanReporting text (pos sc) end_ true ;;
    let significantTextAt := fst r in
    allInTSComment <- inTSComment ;;
    r' <- scanReporting text significantTextAt end_ false ;;
    (* the callback of the second scan clears [allInTSComment] *)
    let allInTSComment :=
      match snd r' with [] => allInTSComment | _ :: _ => false end in
    modify (setPos end_) ;;;
    ret allInTSComment.

Definition scanUntilNextSignificantChar (text : Text) (max : Z) : M bool :=
  sc <- get ;;
  if max <? pos sc then ret false
  else
    (* the position returned by [commentScan] is not used *)
    scanReporting text (pos sc) max true ;;;
    inTSComment.

(** [charList.includes(text[pos])]: [text[pos]] is a string of one code
    unit, or [undefined]. *)
Definition includesCharAt (charList : list Text) (text : Text) (p : Z) : bool :=
  match charCodeAt text p with
  | Some c => bool_decide ([c] ∈ charList)
  | None => false
  end.

Fixpoint scanUntilAtCharLoop (fuel : nat) (text : Text) (charList : list Text)
    (max : Z) : M unit :=
  match fuel with
  | O => ret tt
  | S fuel =>
      sc <- get ;;
      if pos sc <? max then
        scanReporting text (pos sc) max true ;;;
        if includesCharAt charList text (pos sc) then ret tt
        else modify (setPos (pos sc + 1)) ;;;
             scanUntilAtCharLoop fuel text charList max
      else ret tt
  end.

Definition scanUntilAtChar (text : Text) (charList : list Text) (max : Z) : M unit :=
  sc <- get ;; scanUntilAtCharLoop (distance max (pos sc)) text charList max.

Fixpoint scanUntilPastCharLoop (fuel : nat) (text : Text) (charList : list Text)
    (max : Z) : M unit :=
  match fuel with
  | O => ret tt
  | S fuel =>
      sc <- get ;;
      if pos sc <? max then
        scanReporting text (pos sc) max true ;;;
        if includesCharAt charList text (pos sc)
        then modify (setPos (pos sc + 1))
        else modify (setPos (pos sc + 1)) ;;;
             scanUntilPastCharLoop fuel text charList max
      else ret tt
  end.

Definition scanUntilPastChar (text : Text) (charList : list Text) (max : Z) : M unit :=
  sc <- get ;; scanUntilPastCharLoop (distance max (pos sc)) text charList max.

Definition getBlockCommentDelimiters (sc : t) (store : Store) : DelimiterMap :=
  default ∅ (store !! delimiterPositions sc).

(** The state of the loop of [getTSCommentPositions]. *)
Record Pairing := mkPairing {
  result : list TsCommentPosition.t;
  tsCommentPosition : TsCommentPosition.t;
  inTSComment_ : bool
}.

Definition pairDelimiter (st : Pairing) (delimiter : Delimiter) : Pairing :=
  let '(at_, ty) := delimiter in
  let p := tsCommentPosition st in
  match inTSComment_ st, ty with
  | false, openTsCommentWithoutColons =>
      mkPairing (result st)
        (TsCommentPosition.mk (Some at_) (TsCommentPosition.colonPos p)
           (TsCommentPosition.close p) (TsCommentPosition.colonCount p)
           (TsCommentPosition.containedInnerOpeningBlockComment p))
        true
  | true, singleColonForOpenTsComment =>
      mkPairing (result st)
        (TsCommentPosition.mk (TsCommentPosition.open p) (Some at_)
           (TsCommentPosition.close p) (Some 1)
           (TsCommentPosition.containedInnerOpeningBlockComment p))
        true
  | true, doubleColonForOpenTsComment =>
      mkPairing (result st)
        (TsCommentPosition.mk (TsCommentPosition.open p) (Some at_)
           (TsCommentPosition.close p) (Some 2)
           (TsCommentPosition.containedInnerOpeningBlockComment p))
        true
  | true, openNonTsComment =>
      mkPairing (result st)
        (TsCommentPosition.mk (TsCommentPosition.open p)
           (TsCommentPosition.colonPos p) (TsCommentPosition.close p)
           (TsCommentPosition.colonCount p) true)
        true
  | true, close =>
      mkPairing
        (result st ++
           [TsCommentPosition.mk (TsCommentPosition.open p)
              (TsCommentPosition.colonPos p) (Some at_)
              (TsCommentPosition.colonCount p)
              (TsCommentPosition.containedInnerOpeningBlockComment p)])
        TsCommentPosition.fresh false
  | _, _ => st
  end.

(** [[...delimiterPositions].map(...).sort((a, b) => a.pos - b.pos)] *)
Definition sortedDelimiters (m : DelimiterMap) : list Delimiter :=
  sortByKey fst (map_to_list m).

Definition pairDelimiters (delimiters : list Delimiter) : list TsCommentPosition.t :=
  result (foldl pairDelimiter (mkPairing [] TsCommentPosition.fresh false) delimiters).

Definition getTSCommentPositions (sc : t) (store : Store)
  : list TsCommentPosition.t :=
  pairDelimiters (sortedDelimiters (getBlockCommentDelimiters sc store)).

End TsCommentScannerMethods.

(** ** The syntax tracker: [createTSSyntaxTracker] *)

Inductive SyntaxRangeType :=
  | typeScript
  | javaScript
  | whitespace.

#[global] Instance SyntaxRangeType_eq_dec : EqDecision SyntaxRangeType.
Proof. solve_decision. Defined.

Module SyntaxRange.
Record t := mk {
  start : Z;
  end_ : Z;
  type : SyntaxRangeType
}.

#[global] Instance SyntaxRange_eq_dec : EqDecision t.
Proof. solve_decision. Defined.
End SyntaxRange.

Module TsSyntaxTracker.

(** The two arrays a tracker closes over. *)
Record t := mk {
  whitespaceSyntaxRanges : list SyntaxRange.t;
  tsSyntaxRanges : list SyntaxRange.t
}.

Definition createTSSyntaxTracker : t := mk [] [].

(** The scan is made without a callback; when its assertion fails nothing
    has been pushed yet. *)
Definition skipWhitespaceThenMarkRangeAsTS (text : Text) (start end_ : Z)
    (tracker : t) : Completion t :=
  match snd (commentScan text start end_ true) with
  | Throw => Throw
  | Normal realStart =>
      let ws :=
        if start <? realStart
        then whitespaceSyntaxRanges tracker
               ++ [SyntaxRange.mk start realStart whitespace]
        else whitespaceSyntaxRanges tracker in
      let ts :=
        if realStart <? end_
        then tsSyntaxRanges tracker ++ [SyntaxRange.mk realStart end_ typeScript]
        else tsSyntaxRanges tracker in
      Normal (mk ws ts)
  end.

(** The inner [while (true)] that merges overlapping TS ranges, entered
    after [tsRangeIndex++].  Its first turn is made by the caller:
    [Math.max(-Infinity, e)] is [e].  The loop leaves at the end of the
    array at the latest, so the sweep gives it as many turns as the array
    is long; when they are used up the index is behind the array. *)
Fixpoint mergeTsRanges (fuel : nat) (ts : list SyntaxRange.t)
    (tsRangeIndex : nat) (end_ : Z) : Z * nat :=
  match fuel with
  | O => (end_, tsRangeIndex)
  | S fuel =>
      match ts !! tsRangeIndex with
      | None => (end_, tsRangeIndex)
      | Some r =>
          if end_ <? SyntaxRange.start r then (end_, tsRangeIndex)
          else mergeTsRanges fuel ts (S tsRangeIndex)
                 (Z.max end_ (SyntaxRange.end_ r))
      end
  end.

(** [Math.min(tsStart, whitespaceStart, text.length)], [None] being
    [Infinity]. *)
Definition minStart (tsStart whitespaceStart : option Z) (len : Z) : Z :=
  let m := match tsStart with Some s => Z.min s len | None => len end in
  match whitespaceStart with Some w => Z.min w m | None => m end.

(** The sweep of [getSyntaxRanges] over the two sorted arrays: the ranges
    it yields, in order.  [None] means that [fuel] turns were not enough. *)
Fixpoint getSyntaxRangesLoop (fuel : nat) (len : Z)
    (ws ts : list SyntaxRange.t) (whitespaceRangeIndex tsRangeIndex : nat)
    (pos : Z) : option (list SyntaxRange.t) :=
  match fuel with
  | O => None
  | S fuel =>
      if pos <? len then
        let whitespaceStart := SyntaxRange.start <$> ws !! whitespaceRangeIndex in
        let tsStart := SyntaxRange.start <$> ts !! tsRangeIndex in
        if bool_decide (tsStart = Some pos) then
          let first := default 0 (SyntaxRange.end_ <$> ts !! tsRangeIndex) in
          let '(end_, tsRangeIndex) :=
            mergeTsRanges (length ts) ts (S tsRangeIndex) first in
          cons (SyntaxRange.mk pos end_ typeScript)
            <$> getSyntaxRangesLoop fuel len ws ts whitespaceRangeIndex
                  tsRangeIndex end_
        else
          match ws !! whitespaceRangeIndex with
          | Some w =>
              if SyntaxRange.start w <=? pos then
                let whitespaceEnd := SyntaxRange.end_ w in
                match tsStart with
                | Some s =>
                    if whitespaceEnd <? s then
                      getSyntaxRangesLoop fuel len ws ts
                        (S whitespaceRangeIndex) tsRangeIndex
                        (Z.max pos whitespaceEnd)
                    else
                      getSyntaxRangesLoop fuel len ws ts whitespaceRangeIndex
                        tsRangeIndex s
                | None =>
                    getSyntaxRangesLoop fuel len ws ts
                      (S whitespaceRangeIndex) tsRangeIndex
                      (Z.max pos whitespaceEnd)
                end
              else
                let end_ := minStart tsStart whitespaceStart len in
                cons (SyntaxRange.mk pos end_ javaScript)
                  <$> getSyntaxRangesLoop fuel len ws ts whitespaceRangeIndex
                        tsRangeIndex end_
          | None =>
              let end_ := minStart tsStart whitespaceStart len in
              cons (SyntaxRange.mk pos end_ javaScript)
                <$> getSyntaxRangesLoop fuel len ws ts whitespaceRangeIndex
                      tsRangeIndex end_
          end
      else Some []
  end.

(** The turns that the sweep can need, whatever the arrays hold: of three
    turns in a row one passes a recorded range, or the sweep has ended. *)
Definition getSyntaxRangesFuel (ws ts : list SyntaxRange.t) : nat :=
  3 * (length ws + length ts) + 3.

(** [getSyntaxRanges()], run to its end: the two arrays are sorted in
    place, then swept.  The result is the sequence of yielded ranges and
    the tracker as the sorts leave it. *)
Definition getSyntaxRanges (text : Text) (tracker : t)
  : list SyntaxRange.t * t :=
  let ts := sortByKey SyntaxRange.start (tsSyntaxRanges tracker) in
  let ws := sortByKey SyntaxRange.start (whitespaceSyntaxRanges tracker) in
  (default []
     (getSyntaxRangesLoop (getSyntaxRangesFuel ws ts)
        (text_length text) ws ts 0%nat 0%nat 0),
   mk ws ts).

(** A sequence of declarations; a call that throws leaves the tracker as
    it was. *)
Definition declare (text : Text) (tracker : t) (range : Z * Z) : t :=
  match skipWhitespaceThenMarkRangeAsTS text (fst range) (snd range) tracker with
  | Normal tracker' => tracker'
  | Throw => tracker
  end.

Definition declareAll (text : Text) (ranges : list (Z * Z)) : t :=
  foldl (declare text) createTSSyntaxTracker ranges.

End TsSyntaxTracker.

(** ** Trivia skipping: [skipTrivia] *)

Definition mergeConflictMarkerLength : Z := 7.

(** The [for] loop of [isConflictMarkerTrivia]: the code units at
    [pos .. pos + n - 1] all equal [ch]. *)
Fixpoint repeatsAt (text : Text) (ch : option Z) (pos : Z) (n : nat) : bool :=
  match n with
  | O => true
  | S n =>
      bool_decide (charCodeAt text pos = ch) && repeatsAt text ch (pos + 1) n
  end.

Definition isConflictMarkerTrivia (text : Text) (pos : Z) : bool :=
  if (pos =? 0) || isLineBreakAt text (pos - 1) then
    let ch := charCodeAt text pos in
    if pos + mergeConflictMarkerLength <? text_length text then
      if repeatsAt text ch pos (Z.to_nat mergeConflictMarkerLength) then
        codeIs ch CharacterCodes.equals
        || codeIs (charCodeAt text (pos + mergeConflictMarkerLength))
             CharacterCodes.space
      else false
    else false
  else false.

Fixpoint scanConflictMarkerLine (fuel : nat) (text : Text) (pos : Z) : Z :=
  match fuel with
  | O => pos
  | S fuel =>
      if (pos <? text_length text) && negb (isLineBreakAt text pos)
      then scanConflictMarkerLine fuel text (pos + 1)
      else pos
  end.

Fixpoint scanConflictMarkerBlock (fuel : nat) (text : Text) (ch : option Z)
    (pos : Z) : Z :=
  match fuel with
  | O => pos
  | S fuel =>
      if pos <? text_length text then
        let currentChar := charCodeAt text pos in
        if (codeIs currentChar CharacterCodes.equals
            || codeIs currentChar CharacterCodes.greaterThan)
           && negb (bool_decide (currentChar = ch))
           && isConflictMarkerTrivia text pos
        then pos
        else scanConflictMarkerBlock fuel text ch (pos + 1)
      else pos
  end.

Definition scanConflictMarkerTrivia (text : Text) (pos : Z) : Z :=
  let ch := charCodeAt text pos in
  if codeIs ch CharacterCodes.lessThan || codeIs ch CharacterCodes.greaterThan
  then scanConflictMarkerLine (distance (text_length text) pos) text pos
  else scanConflictMarkerBlock (distance (text_length text) pos) text ch pos.

Section SkipTrivia.

(** [positionIsSynthesized] is imported from the compiler's utilities. *)
Variable positionIsSynthesized : Z -> bool.

Variable text : Text.
Variables stopAfterLineBreak stopAtComments inJSDoc : bool.

Inductive TriviaTurn :=
  | TriviaReturn (pos : Z)
  | TriviaContinue (pos : Z) (canConsumeStar : bool).

(** The block-comment case, from after [pos += 2].  The double-colon path
    goes on without touching [canConsumeStar]. *)
Definition skipTriviaBlockComment (pos : Z) (canConsumeStar : bool) : TriviaTurn :=
  let len := text_length text in
  let '(pos, isTsComment) := scanTsCommentPrefix (distance len pos) text len pos in
  let count := if isTsComment then colonCount text pos else 0 in
  if isTsComment && (count =? 1) then
    (* the position stays right before the colon *)
    TriviaReturn pos
  else if isTsComment && (count =? 2) then
    TriviaContinue (pos + 2) canConsumeStar
  else
    let pos := if isTsComment then pos + 3 else pos in
    TriviaContinue (fst (scanBlockCommentBody (distance len pos) text len pos)) false.

(** One turn of the [while (true)] loop of [skipTrivia]. *)
Definition skipTriviaTurn (pos : Z) (canConsumeStar : bool) : TriviaTurn :=
  let ch := charCodeAt text pos in
  let afterLineBreak (pos : Z) :=
    if stopAfterLineBreak then TriviaReturn pos else TriviaContinue pos inJSDoc in
  if codeIs ch CharacterCodes.carriageReturn then
    afterLineBreak
      (if codeIs (charCodeAt text (pos + 1)) CharacterCodes.lineFeed
       then pos + 2 else pos + 1)
  else if codeIs ch CharacterCodes.lineFeed then afterLineBreak (pos + 1)
  else if isCase ch [CharacterCodes.tab; CharacterCodes.verticalTab;
                     CharacterCodes.formFeed; CharacterCodes.space]
  then TriviaContinue (pos + 1) canConsumeStar
  else if codeIs ch CharacterCodes.slash then
    if stopAtComments then TriviaReturn pos
    else if codeIs (charCodeAt text (pos + 1)) CharacterCodes.slash then
      TriviaContinue
        (scanLineComment (distance (text_length text) (pos + 2)) text
           (text_length text) (pos + 2))
        false
    else if codeIs (charCodeAt text (pos + 1)) CharacterCodes.asterisk then
      skipTriviaBlockComment (pos + 2) canConsumeStar
    else TriviaReturn pos
  else if isCase ch [CharacterCodes.lessThan; CharacterCodes.bar;
                     CharacterCodes.equals; CharacterCodes.greaterThan]
  then
    if isConflictMarkerTrivia text pos
    then TriviaContinue (scanConflictMarkerTrivia text pos) false
    else TriviaReturn pos
  else if codeIs ch CharacterCodes.hash then
    if (pos =? 0) && isShebangTrivia text
    then TriviaContinue (scanShebangTrivia text pos) false
    else TriviaReturn pos
  else if codeIs ch CharacterCodes.asterisk then
    if canConsumeStar then TriviaContinue (pos + 1) false
    else if codeIs (charCodeAt text (pos + 1)) CharacterCodes.slash
    then TriviaContinue (pos + 2) canConsumeStar
    else TriviaReturn pos
  else
    match ch with
    | Some c =>
        if (CharacterCodes.maxAsciiCharacter <? c) && isWhiteSpaceLike c
        then TriviaContinue (pos + 1) canConsumeStar
        else TriviaReturn pos
    | None => TriviaReturn pos
    end.

Fixpoint skipTriviaLoop (fuel : nat) (pos : Z) (canConsumeStar : bool)
  : option Z :=
  match fuel with
  | O => None
  | S fuel =>
      match skipTriviaTurn pos canConsumeStar with
      | TriviaReturn pos => Some pos
      | TriviaContinue pos canConsumeStar =>
          skipTriviaLoop fuel pos canConsumeStar
      end
  end.

(** [skipTrivia(text, pos, stopAfterLineBreak, stopAtComments, inJSDoc)];
    [None] means that [fuel] turns were not enough. *)
Definition skipTrivia (fuel : nat) (pos : Z) : option Z :=
  if positionIsSynthesized pos then Some pos
  else skipTriviaLoop fuel pos false.

End SkipTrivia.

(** ** The token scanner: the comment paths of [scan] *)

(** [SyntaxKind] is declared in [types.ts]: here are the token kinds that
    the modelled cases return; [OtherKind] stands for the kinds returned by
    the rest of the tokenizer. *)
Inductive SyntaxKind :=
  | Unknown
  | EndOfFileToken
  | NonTextFileMarkerTrivia
  | ShebangTrivia
  | NewLineTrivia
  | WhitespaceTrivia
  | SingleLineCommentTrivia
  | MultiLineCommentTrivia
  | AsteriskToken
  | AsteriskEqualsToken
  | AsteriskAsteriskToken
  | AsteriskAsteriskEqualsToken
  | SlashToken
  | SlashEqualsToken
  | ColonToken
  | OtherKind (k : nat).

#[global] Instance SyntaxKind_eq_dec : EqDecision SyntaxKind.
Proof. solve_decision. Defined.

(** [TokenFlags] is declared in [types.ts] as a bit set: here are the bits
    that the modelled cases touch, one field each; [otherFlags] holds the
    rest of the set. *)
Module TokenFlags.
Record t := mk {
  PrecedingLineBreak : bool;
  PrecedingJSDocComment : bool;
  Unterminated : bool;
  enteringTSComment : bool;
  otherFlags : Z
}.
Definition None_ : t := mk false false false false 0.
Definition setPrecedingLineBreak (f : t) : t :=
  mk true (PrecedingJSDocComment f) (Unterminated f) (enteringTSComment f) (otherFlags f).
Definition setPrecedingJSDocComment (f : t) : t :=
  mk (PrecedingLineBreak f) true (Unterminated f) (enteringTSComment f) (otherFlags f).
Definition setUnterminated (f : t) : t :=
  mk (PrecedingLineBreak f) (PrecedingJSDocComment f) true (enteringTSComment f) (otherFlags f).
Definition setEnteringTSComment (b : bool) (f : t) : t :=
  mk (PrecedingLineBreak f) (PrecedingJSDocComment f) (Unterminated f) b (otherFlags f).
End TokenFlags.

Module Scanner.

(** The variables of [createScanner] that [scan] reads and writes.  The
    comment directives and the diagnostics handed to [onError] are left
    out: no token depends on them. *)
Record t := mk {
  pos : Z;
  fullStartPos : Z;
  tokenStart : Z;
  token : SyntaxKind;
  tokenFlags : TokenFlags.t
}.

Definition setPos (p : Z) (s : t) : t :=
  mk p (fullStartPos s) (tokenStart s) (token s) (tokenFlags s).
Definition setTokenStart (p : Z) (s : t) : t :=
  mk (pos s) (fullStartPos s) p (token s) (tokenFlags s).
Definition setToken (k : SyntaxKind) (s : t) : t :=
  mk (pos s) (fullStartPos s) (tokenStart s) k (tokenFlags s).
Definition setFlags (f : TokenFlags.t) (s : t) : t :=
  mk (pos s) (fullStartPos s) (tokenStart s) (token s) f.

Inductive Turn :=
  | Return (s : t)
  | Continue (s : t) (asteriskSeen : bool).

(** [return pos += n, token = k] *)
Definition produce (n : Z) (k : SyntaxKind) (s : t) : Turn :=
  Return (setToken k (setPos (pos s + n) s)).

Section Scan.

Variable text : Text.
(** The scanner's [end], its [skipTrivia] flag and [inJSDocType]. *)
Variable end_ : Z.
Variable skipTrivia : bool.
Variable inJSDocType : Z.
(** [shouldParseJSDoc()] depends on the parsing mode and script kind. *)
Variable shouldParseJSDoc : t -> bool.
(** The cases of the [switch] for the characters that open no comment,
    close none and are no white space: the general tokenizer. *)
Variable scanOther : option Z -> t -> bool -> Turn.

(** Whether the first 256 code units include U+FFFD. *)
Definition appearsBinary : bool :=
  existsb (Z.eqb CharacterCodes.replacementCharacter) (take 256 text).

Fixpoint scanWhitespace (fuel : nat) (p : Z) : Z :=
  match fuel with
  | O => p
  | S fuel =>
      if (p <? end_)
         && from_option isWhiteSpaceSingleLine false (charCodeAt text p)
      then scanWhitespace fuel (p + 1)
      else p
  end.

(** The loop through a block comment that is no TS comment: the final
    position, [commentClosed], and whether a line break was passed. *)
Fixpoint scanCommentBody (fuel : nat) (p : Z) (lineBreak : bool)
  : Z * bool * bool :=
  match fuel with
  | O => (p, false, lineBreak)
  | S fuel =>
      if p <? end_ then
        if codeIs (charCodeAt text p) CharacterCodes.asterisk
           && codeIs (charCodeAt text (p + 1)) CharacterCodes.slash
        then (p + 2, true, lineBreak)
        else scanCommentBody fuel (p + 1) (lineBreak || isLineBreakAt text p)
      else (p, false, lineBreak)
  end.

Definition addFlags (s : t) (f : TokenFlags.t -> TokenFlags.t) : t :=
  setFlags (f (tokenFlags s)) s.

(** The multi-line comment case, from after [pos += 2]. *)
Definition scanBlockComment (s : t) (asteriskSeen : bool) : Turn :=
  let p := pos s in
  let isJSDoc :=
    codeIs (charCodeAt text p) CharacterCodes.asterisk
    && negb (codeIs (charCodeAt text (p + 1)) CharacterCodes.slash) in
  let '(p, isTsComment) := scanTsCommentPrefix (distance end_ p) text end_ p in
  let count := if isTsComment then colonCount text p else 0 in
  if isTsComment && (count =? 1) then
    (* the position stays right before the colon *)
    Continue (addFlags (setPos p s) (TokenFlags.setEnteringTSComment true))
      asteriskSeen
  else if isTsComment && (count =? 2) then
    Continue (addFlags (setPos (p + 2) s) (TokenFlags.setEnteringTSComment true))
      asteriskSeen
  else
    let p := if isTsComment then p + 3 else p in
    let '(p, commentClosed, lineBreak) :=
      scanCommentBody (distance end_ p) p false in
    let s := setPos p s in
    let s := if lineBreak then addFlags s TokenFlags.setPrecedingLineBreak else s in
    let s := if isJSDoc && shouldParseJSDoc s
             then addFlags s TokenFlags.setPrecedingJSDocComment else s in
    if skipTrivia then Continue s asteriskSeen
    else
      let s := if commentClosed then s else addFlags s TokenFlags.setUnterminated in
      Return (setToken MultiLineCommentTrivia s).

(** One turn of the [while (true)] loop of [scan]. *)
Definition scanTurn (s : t) (asteriskSeen : bool) : Turn :=
  let s := setTokenStart (pos s) s in
  let p := pos s in
  if end_ <=? p then Return (setToken EndOfFileToken s)
  else
    let ch := codePointAt text p in
    if (p =? 0) && appearsBinary then
      Return (setToken NonTextFileMarkerTrivia (setPos end_ s))
    else if (p =? 0) && codeIs ch CharacterCodes.hash && isShebangTrivia text then
      let s := setPos (scanShebangTrivia text p) s in
      if skipTrivia then Continue s asteriskSeen
      else Return (setToken ShebangTrivia s)
    else if isCase ch lineBreakCases then
      let s := addFlags s TokenFlags.setPrecedingLineBreak in
      if skipTrivia then Continue (setPos (p + 1) s) asteriskSeen
      else if codeIs ch CharacterCodes.carriageReturn && (p + 1 <? end_)
              && codeIs (charCodeAt text (p + 1)) CharacterCodes.lineFeed
      then produce 2 NewLineTrivia s
      else produce 1 NewLineTrivia s
    else if isCase ch whiteSpaceCases then
      if skipTrivia then Continue (setPos (p + 1) s) asteriskSeen
      else Return (setToken WhitespaceTrivia
                     (setPos (scanWhitespace (distance end_ p) p) s))
    else if codeIs ch CharacterCodes.asterisk then
      if codeIs (charCodeAt text (p + 1)) CharacterCodes.slash then
        Continue (addFlags (setPos (p + 2) s) (TokenFlags.setEnteringTSComment false))
          asteriskSeen
      else if codeIs (charCodeAt text (p + 1)) CharacterCodes.equals then
        produce 2 AsteriskEqualsToken s
      else if codeIs (charCodeAt text (p + 1)) CharacterCodes.asterisk then
        if codeIs (charCodeAt text (p + 2)) CharacterCodes.equals
        then produce 3 AsteriskAsteriskEqualsToken s
        else produce 2 AsteriskAsteriskToken s
      else
        let s := setPos (p + 1) s in
        if negb (inJSDocType =? 0) && negb asteriskSeen
           && TokenFlags.PrecedingLineBreak (tokenFlags s)
        then Continue s true
        else Return (setToken AsteriskToken s)
    else if codeIs ch CharacterCodes.slash then
      if codeIs (charCodeAt text (p + 1)) CharacterCodes.slash then
        let s := setPos (scanLineComment (distance end_ (p + 2)) text end_ (p + 2)) s in
        if skipTrivia then Continue s asteriskSeen
        else Return (setToken SingleLineCommentTrivia s)
      else if codeIs (charCodeAt text (p + 1)) CharacterCodes.asterisk then
        scanBlockComment (setPos (p + 2) s) asteriskSeen
      else if codeIs (charCodeAt text (p + 1)) CharacterCodes.equals then
        produce 2 SlashEqualsToken s
      else produce 1 SlashToken s
    else if codeIs ch CharacterCodes.colon then produce 1 ColonToken s
    else scanOther ch s asteriskSeen.

Fixpoint scanLoop (fuel : nat) (s : t) (asteriskSeen : bool) : option t :=
  match fuel with
  | O => None
  | S fuel =>
      match scanTurn s asteriskSeen with
      | Return s => Some s
      | Continue s asteriskSeen => scanLoop fuel s asteriskSeen
      end
  end.

(** [scan()]: the scanner after the call, whose [token] is the value
    returned; [None] means that [fuel] turns were not enough. *)
Definition scan (fuel : nat) (s : t) : option t :=
  scanLoop fuel
    (mk (pos s) (pos s) (tokenStart s) (token s) TokenFlags.None_) false.

(** Repeated [scan()] calls up to the end of the text: the kinds of the
    tokens before [EndOfFileToken]. *)
Fixpoint scanAll (calls fuel : nat) (s : t) : option (list SyntaxKind) :=
  match calls with
  | O => None
  | S calls =>
      match scan fuel s with
      | None => None
      | Some s' =>
          match token s' with
          | EndOfFileToken => Some []
          | k => cons k <$> scanAll calls fuel s'
          end
      end
  end.

End Scan.

(** [createScanner(...)] followed by [setText(text)]. *)
Definition initial : t := mk 0 0 0 Unknown TokenFlags.None_.

End Scanner.

Import TsCommentScannerMethods.

(** * The vocabulary of the properties *)

(** What [scanBlockCommentBody] reports: nothing, or the closing delimiter
    it stopped behind. *)
Definition closingAt (text : Text) (c : Z) : Prop :=
  codeIs (charCodeAt text c) CharacterCodes.asterisk = true
  /\ codeIs (charCodeAt text (c + 1)) CharacterCodes.slash = true.

(** The only assertion of [commentScan] follows the shebang line, which is
    looked for at position 0 only: a scan gets there when it starts there,
    or starts before the text and does not stop on significant text. *)
Definition shebangAssertionFails (text : Text) (start e : Z) (stop : bool) : Prop :=
  (start = 0 \/ (start < 0 /\ stop = false))
  /\ 0 < e /\ isShebangTrivia text = true /\ e <= scanShebangTrivia text 0.

Definition insertAll (ds : list Delimiter) (m : gmap Z BlockCommentDelimiterType)
  : gmap Z BlockCommentDelimiterType :=
  foldl (fun m d => <[fst d := snd d]> m) m ds.

Definition statesAfter (ds : list Delimiter) (s : TsCommentScannerState)
  : TsCommentScannerState :=
  foldl (fun s d => stateAfter (snd d) s) s ds.

(** Scans the whole of [text] with a new scanner and pairs the delimiters. *)
Definition positionsOfWholeText (text : Text) : list TsCommentPosition.t :=
  let '(_, (sc, store)) :=
    scanTo text (text_length text) (createTSCommentScanner None None None []) in
  getTSCommentPositions sc store.

Definition isColonDelimiter (ty : BlockCommentDelimiterType) : bool :=
  match ty with
  | singleColonForOpenTsComment | doubleColonForOpenTsComment => true
  | _ => false
  end.

(** The opening of a TS comment at [s] with its first colon at [p]: slash,
    asterisk, spaces, colon. *)
Definition tsOpening (text : Text) (s p : Z) : Prop :=
  codeIs (charCodeAt text s) CharacterCodes.slash = true
  /\ codeIs (charCodeAt text (s + 1)) CharacterCodes.asterisk = true
  /\ s + 2 <= p
  /\ (forall i, s + 2 <= i < p ->
        codeIs (charCodeAt text i) CharacterCodes.space = true)
  /\ codeIs (charCodeAt text p) CharacterCodes.colon = true.

(** The character a delimiter of each type sits on. *)
Definition delimiterChar (text : Text) (q : Z) (ty : BlockCommentDelimiterType)
  : Prop :=
  match ty with
  | openNonTsComment | openTsCommentWithoutColons =>
      codeIs (charCodeAt text q) CharacterCodes.slash = true
  | singleColonForOpenTsComment | doubleColonForOpenTsComment =>
      codeIs (charCodeAt text q) CharacterCodes.colon = true
  | close => closingAt text q
  end.

(** The shape of a sequence of calls to [onCommentDelimiter]: the colon of
    a TS comment is reported right after its opening. *)
Inductive Reported (text : Text) : list Delimiter -> Prop :=
  | Reported_nil : Reported text []
  | Reported_ts s p ty ds :
      tsOpening text s p -> isColonDelimiter ty = true -> Reported text ds ->
      Reported text ((s, openTsCommentWithoutColons) :: (p, ty) :: ds)
  | Reported_plain s ds :
      codeIs (charCodeAt text s) CharacterCodes.slash = true ->
      Reported text ds -> Reported text ((s, openNonTsComment) :: ds)
  | Reported_close c ds :
      closingAt text c -> Reported text ds -> Reported text ((c, close) :: ds).

(** The invariant of a delimiter map: every delimiter sits on its
    character, and the opening of a TS comment comes with its colon. *)
Definition wellPaired (text : Text) (m : gmap Z BlockCommentDelimiterType) : Prop :=
  (forall q ty, m !! q = Some ty -> delimiterChar text q ty)
  /\ (forall s, m !! s = Some openTsCommentWithoutColons ->
        exists p ty, tsOpening text s p /\ isColonDelimiter ty = true
                     /\ m !! p = Some ty).

(** In the sorted sequence the opening of a TS comment is directly followed
    by a colon delimiter. *)
Fixpoint colonsFollow (l : list Delimiter) : Prop :=
  match l with
  | [] => True
  | d :: rest =>
      (snd d = openTsCommentWithoutColons ->
       match rest with
       | d' :: _ => isColonDelimiter (snd d') = true
       | [] => False
       end)
      /\ colonsFollow rest
  end.

(** The invariant of the loop of [getTSCommentPositions]. *)
Definition pairingInvariant (st : Pairing) (l : list Delimiter) : Prop :=
  Forall TsCommentPosition.populated (result st)
  /\ (inTSComment_ st = true ->
      is_Some (TsCommentPosition.open (tsCommentPosition st))
      /\ ((is_Some (TsCommentPosition.colonPos (tsCommentPosition st))
           /\ (TsCommentPosition.colonCount (tsCommentPosition st) = Some 1
               \/ TsCommentPosition.colonCount (tsCommentPosition st) = Some 2))
          \/ match l with
             | d :: _ => isColonDelimiter (snd d) = true
             | [] => False
             end)).

(** ** Sessions: every way of driving scanners over one text *)

Module Session.

(** The scanners created so far, and the maps they allocated. *)
Record t := mk {
  scanners : list TsCommentScanner.t;
  store : Store
}.

Definition empty : t := mk [] [].

(** A call of the public interface; [i] picks the scanner it is made on. *)
Inductive Call :=
  | Create
  | Clone (i : nat)
  | ScanThroughLeafNode (i : nat) (node_pos node_end : Z)
  | ScanTo (i : nat) (end_ : Z)
  | ScanUntilNextSignificantChar (i : nat) (max : Z)
  | ScanUntilAtChar (i : nat) (charList : list Text) (max : Z)
  | ScanUntilPastChar (i : nat) (charList : list Text) (max : Z).

Definition method {A} (i : nat) (m : TsCommentScanner.M A) (s : t) : t :=
  match scanners s !! i with
  | Some sc =>
      let '(_, (sc', store')) := m (sc, store s) in
      mk (<[i := sc']> (scanners s)) store'
  | None => s
  end.

Definition perform (text : Text) (s : t) (c : Call) : t :=
  match c with
  | Create =>
      let '(sc, store') := createTSCommentScanner None None None (store s) in
      mk (scanners s ++ [sc]) store'
  | Clone i =>
      match scanners s !! i with
      | Some sc =>
          let '(sc', store') := clone sc (store s) in
          mk (scanners s ++ [sc']) store'
      | None => s
      end
  | ScanThroughLeafNode i node_pos node_end =>
      method i (scanThroughLeafNode text node_pos node_end) s
  | ScanTo i end_ => method i (scanTo text end_) s
  | ScanUntilNextSignificantChar i max =>
      method i (scanUntilNextSignificantChar text max) s
  | ScanUntilAtChar i charList max =>
      method i (scanUntilAtChar text charList max) s
  | ScanUntilPastChar i charList max =>
      method i (scanUntilPastChar text charList max) s
  end.

End Session.

(** A method keeps every map of the store well paired. *)
Definition preserves (text : Text) {A} (m : TsCommentScanner.M A) : Prop :=
  forall w, Forall (wellPaired text) (snd w) ->
            Forall (wellPaired text) (snd (snd (m w))).

(** The yielded ranges from [lo] on: each starts at or after the end of the
    one before it, and none is empty. *)
Fixpoint ordered (lo : Z) (ys : list SyntaxRange.t) : Prop :=
  match ys with
  | [] => True
  | r :: ys =>
      lo <= SyntaxRange.start r /\ SyntaxRange.start r < SyntaxRange.end_ r
      /\ ordered (SyntaxRange.end_ r) ys
  end.

Definition inRange (x : Z) (r : SyntaxRange.t) : Prop :=
  SyntaxRange.start r <= x < SyntaxRange.end_ r.

(** What a declaration inside the text records as a TS range. *)
Definition tsRangeOk (len : Z) (r : SyntaxRange.t) : Prop :=
  0 <= SyntaxRange.start r /\ SyntaxRange.start r < SyntaxRange.end_ r <= len.

(** The order of a sort on [key]. *)
Definition keyLe {A} (key : A -> Z) (a b : A) : Prop := key a <= key b.

(** From [lo] up to the end of the text every offset lies in a yielded
    range or in a recorded whitespace range. *)
Definition covered (len : Z) (ws : list SyntaxRange.t) (lo : Z)
    (ys : list SyntaxRange.t) : Prop :=
  forall x, lo <= x < len ->
    (exists r, r ∈ ys /\ inRange x r) \/ (exists w, w ∈ ws /\ inRange x w).

Definition yieldedOk (len : Z) (r : SyntaxRange.t) : Prop :=
  SyntaxRange.end_ r <= len /\ SyntaxRange.type r <> whitespace.

(** What bounds the turns the sweep has left: the recorded ranges not yet
    passed count three each, and the turn to come counts by its kind, as a
    JavaScript range leads to a whitespace range or a TS range, and a
    whitespace range that is not passed leads to a TS range. *)
Definition sweepMeasure (len : Z) (ws ts : list SyntaxRange.t)
    (whitespaceRangeIndex tsRangeIndex : nat) (pos : Z) : nat :=
  if pos <? len then
    3 * ((length ws - whitespaceRangeIndex) + (length ts - tsRangeIndex))
    + (if bool_decide (SyntaxRange.start <$> ts !! tsRangeIndex = Some pos)
       then 0
       else match ws !! whitespaceRangeIndex with
            | Some w => if SyntaxRange.start w <=? pos then 1 else 2
            | None => 2
            end)
  else 0.

(** Where [commentScan] stops when asked to stop on significant text: at
    an offset that none of the cases of its switch passes.  The code point
    there, if the offset holds one, is none of line feed and carriage
    return, none of the white space characters that the switch lists, no
    asterisk and no slash.  An offset outside the text holds no code point
    and so counts as well; so do the line and paragraph separators U+2028
    and U+2029 and the next-line character U+0085, which the switch does
    not list. *)
Definition significantAt (text : Text) (q : Z) : Prop :=
  isCase (codePointAt text q) lineBreakCases = false
  /\ isCase (codePointAt text q) whiteSpaceCases = false
  /\ codeIs (codePointAt text q) CharacterCodes.asterisk = false
  /\ codeIs (codePointAt text q) CharacterCodes.slash = false.

(** The colon delimiter that goes with a number of colons. *)
Definition colonsOf (text : Text) (d : Delimiter) : Prop :=
  match snd d with
  | singleColonForOpenTsComment => colonCount text (fst d) = 1
  | doubleColonForOpenTsComment => colonCount text (fst d) = 2
  | _ => True
  end.

(** Delimiters in document order, all inside [lo, hi). *)
Definition inOrderWithin (lo hi : Z) (ds : list Delimiter) : Prop :=
  StronglySorted (fun a b => fst a < fst b) ds
  /\ Forall (fun d => lo <= fst d < hi) ds.

(** The first position from [lo] on, before [hi], whose character is one of
    [charList]. *)
Definition firstCharAt (charList : list Text) (text : Text) (lo hi i : Z) : Prop :=
  lo <= i < hi /\ includesCharAt charList text i = true
  /\ forall j, lo <= j < i -> includesCharAt charList text j = false.

Definition noCharIn (charList : list Text) (text : Text) (lo hi : Z) : Prop :=
  forall j, lo <= j < hi -> includesCharAt charList text j = false.

(** The type of the colon delimiter that [colonCount] stands for. *)
Definition colonDelimiter (n : Z) : BlockCommentDelimiterType :=
  if n =? 1 then singleColonForOpenTsComment else doubleColonForOpenTsComment.

(** A returned position whose fields are delimiters of the map [m], in
    order. *)
Definition spanOf (m : gmap Z BlockCommentDelimiterType)
    (p : TsCommentPosition.t) : Prop :=
  exists o c k n,
    TsCommentPosition.open p = Some o /\ TsCommentPosition.colonPos p = Some c
    /\ TsCommentPosition.close p = Some k /\ TsCommentPosition.colonCount p = Some n
    /\ (n = 1 \/ n = 2) /\ o < c < k
    /\ m !! o = Some openTsCommentWithoutColons
    /\ m !! c = Some (colonDelimiter n)
    /\ m !! k = Some close.

(** One returned position ends before the other opens. *)
Definition spanBefore (a b : TsCommentPosition.t) : Prop :=
  exists k o,
    TsCommentPosition.close a = Some k /\ TsCommentPosition.open b = Some o /\ k < o.

(** The invariant of the loop of [getTSCommentPositions] that relates the
    positions to the map [m] and to the delimiters [l] still to come. *)
Definition spanInvariant (m : gmap Z BlockCommentDelimiterType)
    (st : Pairing) (l : list Delimiter) : Prop :=
  Forall (spanOf m) (result st)
  /\ StronglySorted spanBefore (result st)
  /\ Forall (fun p => exists k, TsCommentPosition.close p = Some k
                                /\ Forall (fun d => k < fst d) l) (result st)
  /\ (inTSComment_ st = true ->
      exists o,
        TsCommentPosition.open (tsCommentPosition st) = Some o
        /\ m !! o = Some openTsCommentWithoutColons
        /\ Forall (fun d => o < fst d) l
        /\ Forall (fun p => exists k, TsCommentPosition.close p = Some k /\ k < o)
             (result st)
        /\ ((exists c n,
               TsCommentPosition.colonPos (tsCommentPosition st) = Some c
               /\ TsCommentPosition.colonCount (tsCommentPosition st) = Some n
               /\ (n = 1 \/ n = 2) /\ o < c
               /\ m !! c = Some (colonDelimiter n)
               /\ Forall (fun d => c < fst d) l)
            \/ match l with
               | d :: _ => isColonDelimiter (snd d) = true
               | [] => False
               end)).

(** What the yielded ranges [ys] say about the recorded ones: a recorded TS
    range from index [ti] on lies inside a yielded typeScript range, the
    offsets of a yielded javaScript range lie in no recorded range, and the
    offsets of a yielded typeScript range lie in recorded TS ranges. *)
Definition sweepSound (ws ts : list SyntaxRange.t) (ti : nat)
    (ys : list SyntaxRange.t) : Prop :=
  (forall j r, ts !! j = Some r -> (ti <= j)%nat ->
     exists y, y ∈ ys /\ SyntaxRange.type y = typeScript
               /\ SyntaxRange.start y <= SyntaxRange.start r
               /\ SyntaxRange.end_ r <= SyntaxRange.end_ y)
  /\ (forall y x, y ∈ ys -> SyntaxRange.type y = javaScript -> inRange x y ->
        (forall r, r ∈ ts -> ~ inRange x r) /\ (forall w, w ∈ ws -> ~ inRange x w))
  /\ (forall y x, y ∈ ys -> SyntaxRange.type y = typeScript -> inRange x y ->
        exists r, r ∈ ts /\ inRange x r).

(** * Other functions of the scanner *)

(** ** [couldStartTrivia] *)

Definition couldStartTrivia (text : Text) (pos : Z) : bool :=
  let ch := charCodeAt text pos in
  if isCase ch [CharacterCodes.carriageReturn; CharacterCodes.lineFeed;
                CharacterCodes.tab; CharacterCodes.verticalTab;
                CharacterCodes.formFeed; CharacterCodes.space;
                CharacterCodes.slash; CharacterCodes.lessThan;
                CharacterCodes.bar; CharacterCodes.equals;
                CharacterCodes.greaterThan]
  then true
  else if codeIs ch CharacterCodes.hash then pos =? 0
  else
    match ch with
    | Some c => CharacterCodes.maxAsciiCharacter <? c
    | None => false
    end.

(** ** Tables of code point ranges: [lookupInUnicodeMap] *)

(** [map[i]] of an array of numbers; [None] is [undefined]. *)
Definition elementAt (map : list Z) (i : Z) : option Z :=
  if 0 <=? i then map !! Z.to_nat i else None.

(** [a <= b] and [a < b] on numbers that may be [undefined]: a comparison
    with [undefined] is false. *)
Definition jsLe (a b : option Z) : bool :=
  match a, b with
  | Some x, Some y => x <=? y
  | _, _ => false
  end.

Definition jsLt (a b : option Z) : bool :=
  match a, b with
  | Some x, Some y => x <? y
  | _, _ => false
  end.

(** The binary search.  [lo + (hi - lo) / 2] is a division of numbers, so
    [mid] can be a half: [twiceMid] is twice its value, and
    [mid -= mid % 2] takes [(twiceMid mod 4) / 2] away from it, which
    leaves an even integer. *)
Fixpoint lookupInUnicodeMapLoop (fuel : nat) (code : Z) (map : list Z)
    (lo hi : Z) : option bool :=
  match fuel with
  | O => None
  | S fuel =>
      if lo + 1 <? hi then
        let twiceMid := 2 * lo + (hi - lo) in
        let mid := (twiceMid - twiceMid mod 4) / 2 in
        if jsLe (elementAt map mid) (Some code)
           && jsLe (Some code) (elementAt map (mid + 1))
        then Some true
        else if jsLt (Some code) (elementAt map mid)
        then lookupInUnicodeMapLoop fuel code map lo mid
        else lookupInUnicodeMapLoop fuel code map (mid + 2) hi
      else Some false
  end.

(** [None] means that the turns given to the loop were not enough. *)
Definition lookupInUnicodeMap (code : Z) (map : list Z) : option bool :=
  if jsLt (Some code) (elementAt map 0) then Some false
  else lookupInUnicodeMapLoop (S (length map)) code map 0 (Z.of_nat (length map)).

(** The range at the pair [k] of the table holds [code]. *)
Definition inUnicodeRange (code : Z) (map : list Z) (k : Z) : Prop :=
  0 <= k
  /\ exists a b, elementAt map (2 * k) = Some a /\ elementAt map (2 * k + 1) = Some b
                 /\ a <= code <= b.

(** ** UTF-16: [charSize] and [utf16EncodeAsStringFallback] *)

Definition charSize (ch : Z) : Z := if 0x10000 <=? ch then 2 else 1.

(** The string is returned as its code units; [Debug.assert] throws out of
    the range of code points. *)
Definition utf16EncodeAsStringFallback (codePoint : Z) : Completion Text :=
  if (0 <=? codePoint) && (codePoint <=? 0x10FFFF) then
    if codePoint <=? 65535 then Normal [codePoint]
    else
      let codeUnit1 := (codePoint - 65536) / 1024 + 0xD800 in
      let codeUnit2 := (codePoint - 65536) mod 1024 + 0xDC00 in
      Normal [codeUnit1; codeUnit2]
  else Throw.

(** ** Line starts: [computeLineStarts] *)

Fixpoint computeLineStartsLoop (fuel : nat) (text : Text) (pos lineStart : Z)
    (result : list Z) : option (list Z) :=
  match fuel with
  | O => None
  | S fuel =>
      if pos <? text_length text then
        let ch := charCodeAt text pos in
        let pos := pos + 1 in
        if codeIs ch CharacterCodes.carriageReturn then
          let pos :=
            if codeIs (charCodeAt text pos) CharacterCodes.lineFeed
            then pos + 1 else pos in
          computeLineStartsLoop fuel text pos pos (result ++ [lineStart])
        else if codeIs ch CharacterCodes.lineFeed then
          computeLineStartsLoop fuel text pos pos (result ++ [lineStart])
        else if from_option
                  (fun c => (CharacterCodes.maxAsciiCharacter <? c) && isLineBreak c)
                  false ch
        then computeLineStartsLoop fuel text pos pos (result ++ [lineStart])
        else computeLineStartsLoop fuel text pos lineStart result
      else Some (result ++ [lineStart])
  end.

(** [None] means that the turns given to the loop were not enough. *)
Definition computeLineStarts (text : Text) : option (list Z) :=
  computeLineStartsLoop (S (length text)) text 0 0 [].

(** A line starts at [p] behind a line break; a line feed that follows a
    carriage return starts none. *)
Definition lineStartAt (text : Text) (p : Z) : Prop :=
  isLineBreakAt text (p - 1) = true
  /\ ~ (codeIs (charCodeAt text (p - 1)) CharacterCodes.carriageReturn = true
        /\ codeIs (charCodeAt text p) CharacterCodes.lineFeed = true).

(** ** Comment ranges: [iterateCommentRanges] *)

(** The object that [appendCommentRange] pushes. *)
Module CommentRange.
Record t := mk {
  kind : SyntaxKind;
  pos : Z;
  end_ : Z;
  hasTrailingNewLine : bool
}.

#[global] Instance CommentRange_eq_dec : EqDecision t.
Proof. solve_decision. Defined.

Definition withTrailingNewLine (r : t) : t := mk (kind r) (pos r) (end_ r) true.
End CommentRange.

(** [getShebang(text)]: the match of [/^#!.*/], if there is one. *)
Definition getShebang (text : Text) : option Text :=
  if isShebangTrivia text
  then Some (take (Z.to_nat (2 + regexDotStar (drop 2 text))) text)
  else None.

(** The loop through a single-line comment: where it stops, and
    [hasTrailingNewLine]. *)
Fixpoint scanToLineBreak (fuel : nat) (text : Text) (pos : Z) : Z * bool :=
  match fuel with
  | O => (pos, false)
  | S fuel =>
      if pos <? text_length text then
        if isLineBreakAt text pos then (pos, true)
        else scanToLineBreak fuel text (pos + 1)
      else (pos, false)
  end.

Module CommentIterator.

Section IterateCommentRanges.

(** The type of the accumulated value, and which of its values are
    truthy. *)
Variable U : Type.
Variable truthy : U -> bool.

Variable reduce : bool.
Variable text : Text.
Variable trailing : bool.
(** The callback, with its [state] argument applied: the pending range and
    the memo are left. *)
Variable cb : CommentRange.t -> U -> U.

(** The variables of the loop; [pending] is [None] while
    [hasPendingCommentRange] is false. *)
Record State := mkState {
  pos : Z;
  pending : option CommentRange.t;
  collecting : bool;
  accumulator : U
}.

Definition setPos (p : Z) (s : State) : State :=
  mkState p (pending s) (collecting s) (accumulator s).

Inductive Turn :=
  | Return (u : U)
  | Break (s : State)
  | Continue (s : State).

(** [if (collecting) { ... }] behind a comment from [startPos] to [pos]. *)
Definition collect (s : State) (startPos pos : Z) (kind : SyntaxKind)
    (hasTrailingNewLine : bool) : Turn :=
  if collecting s then
    let range := CommentRange.mk kind startPos pos hasTrailingNewLine in
    match pending s with
    | Some r =>
        let accumulator := cb r (accumulator s) in
        if negb reduce && truthy accumulator then Return accumulator
        else Continue (mkState pos (Some range) (collecting s) accumulator)
    | None => Continue (mkState pos (Some range) (collecting s) (accumulator s))
    end
  else Continue (setPos pos s).

(** The multi-line comment case, from after [pos += 2]. *)
Definition iterateBlockComment (s : State) (startPos pos : Z) : Turn :=
  let len := text_length text in
  let '(pos, isTsComment) := scanTsCommentPrefix (distance len pos) text len pos in
  let count := if isTsComment then colonCount text pos else 0 in
  if isTsComment && (count =? 1) then Break (setPos pos s)
  else if isTsComment && (count =? 2) then Continue (setPos (pos + 2) s)
  else
    let pos := if isTsComment then pos + 3 else pos in
    let pos := fst (scanBlockCommentBody (distance len pos) text len pos) in
    collect s startPos pos MultiLineCommentTrivia false.

(** One turn of the loop labelled [scan]. *)
Definition iterateTurn (s : State) : Turn :=
  let p := pos s in
  let ch := charCodeAt text p in
  let afterLineBreak (p : Z) :=
    if trailing then Break (setPos p s)
    else Continue (mkState p (CommentRange.withTrailingNewLine <$> pending s)
                     true (accumulator s)) in
  if codeIs ch CharacterCodes.carriageReturn then
    afterLineBreak
      (if codeIs (charCodeAt text (p + 1)) CharacterCodes.lineFeed
       then p + 2 else p + 1)
  else if codeIs ch CharacterCodes.lineFeed then afterLineBreak (p + 1)
  else if isCase ch [CharacterCodes.tab; CharacterCodes.verticalTab;
                     CharacterCodes.formFeed; CharacterCodes.space]
  then Continue (setPos (p + 1) s)
  else if codeIs ch CharacterCodes.slash then
    let nextChar := charCodeAt text (p + 1) in
    if codeIs nextChar CharacterCodes.slash then
      let '(q, hasTrailingNewLine) :=
        scanToLineBreak (distance (text_length text) (p + 2)) text (p + 2) in
      collect s p q SingleLineCommentTrivia hasTrailingNewLine
    else if codeIs nextChar CharacterCodes.asterisk then
      iterateBlockComment s p (p + 2)
    else Break s
  else
    match ch with
    | Some c =>
        if (CharacterCodes.maxAsciiCharacter <? c) && isWhiteSpaceLike c then
          Continue
            (mkState (p + 1)
               (if isLineBreak c
                then CommentRange.withTrailingNewLine <$> pending s
                else pending s)
               (collecting s) (accumulator s))
        else Break s
    | None => Break s
    end.

(** The loop: the value returned from inside it, or the state in which it
    is left.  [None] means that [fuel] turns were not enough. *)
Fixpoint iterateLoop (fuel : nat) (s : State) : option (U + State) :=
  match fuel with
  | O => None
  | S fuel =>
      if (0 <=? pos s) && (pos s <? text_length text) then
        match iterateTurn s with
        | Return u => Some (inl u)
        | Break s => Some (inr s)
        | Continue s => iterateLoop fuel s
        end
      else Some (inr s)
  end.

(** [iterateCommentRanges(reduce, text, pos, trailing, cb, state, initial)] *)
Definition iterateCommentRanges (fuel : nat) (pos : Z) (initial : U) : option U :=
  let collecting := trailing || (pos =? 0) in
  let pos :=
    if pos =? 0 then
      match getShebang text with
      | Some shebang => text_length shebang
      | None => pos
      end
    else pos in
  match iterateLoop fuel (mkState pos None collecting initial) with
  | None => None
  | Some (inl u) => Some u
  | Some (inr s) =>
      Some (match pending s with
            | Some r => cb r (accumulator s)
            | None => accumulator s
            end)
  end.

End IterateCommentRanges.

(** The turns that the loop can need. *)
Definition iterateFuel (text : Text) (pos : Z) : nat :=
  S (S (distance (text_length text) pos)).

Definition reduceEachLeadingCommentRange {U} (text : Text) (pos : Z)
    (cb : CommentRange.t -> U -> U) (initial : U) : option U :=
  iterateCommentRanges U (fun _ => true) true text false cb
    (iterateFuel text pos) pos initial.

Definition reduceEachTrailingCommentRange {U} (text : Text) (pos : Z)
    (cb : CommentRange.t -> U -> U) (initial : U) : option U :=
  iterateCommentRanges U (fun _ => true) true text true cb
    (iterateFuel text pos) pos initial.

(** [forEachLeadingCommentRange]: [undefined] is the initial value; the
    callback does not read the memo. *)
Definition forEachLeadingCommentRange {U} (truthy : U -> bool) (text : Text)
    (pos : Z) (cb : CommentRange.t -> U) : option (option U) :=
  iterateCommentRanges (option U) (from_option truthy false) false text false
    (fun r _ => Some (cb r)) (iterateFuel text pos) pos None.

Definition forEachTrailingCommentRange {U} (truthy : U -> bool) (text : Text)
    (pos : Z) (cb : CommentRange.t -> U) : option (option U) :=
  iterateCommentRanges (option U) (from_option truthy false) false text true
    (fun r _ => Some (cb r)) (iterateFuel text pos) pos None.

(** [comments = []] stands for a memo that is [undefined]. *)
Definition appendCommentRange (r : CommentRange.t)
    (comments : option (list CommentRange.t)) : option (list CommentRange.t) :=
  Some (default [] comments ++ [r]).

(** The outer [option] is the fuel; the inner one is [undefined] when there
    is no comment. *)
Definition getLeadingCommentRanges (text : Text) (pos : Z)
  : option (option (list CommentRange.t)) :=
  reduceEachLeadingCommentRange text pos appendCommentRange None.

Definition getTrailingCommentRanges (text : Text) (pos : Z)
  : option (option (list CommentRange.t)) :=
  reduceEachTrailingCommentRange text pos appendCommentRange None.

End CommentIterator.

(** * The vocabulary of the further properties *)

(** The text has a comment at the range [r]: its opening, its kind, its
    end inside the text; and it is no TS comment, which has one colon or
    two behind the opening and its spaces. *)
Definition commentAt (text : Text) (r : CommentRange.t) : Prop :=
  CommentRange.pos r + 2 <= CommentRange.end_ r <= text_length text
  /\ codeIs (charCodeAt text (CommentRange.pos r)) CharacterCodes.slash = true
  /\ ((CommentRange.kind r = SingleLineCommentTrivia
       /\ codeIs (charCodeAt text (CommentRange.pos r + 1)) CharacterCodes.slash
          = true)
      \/ (CommentRange.kind r = MultiLineCommentTrivia
          /\ codeIs (charCodeAt text (CommentRange.pos r + 1))
               CharacterCodes.asterisk = true
          /\ forall p, tsOpening text (CommentRange.pos r) p ->
                       colonCount text p = 3)).

(** The ranges [rs] are comments of the text between [lo] and [hi], in
    order, none reaching into the next. *)
Fixpoint rangesWithin (text : Text) (lo hi : Z) (rs : list CommentRange.t)
  : Prop :=
  match rs with
  | [] => lo <= hi
  | r :: rs =>
      lo <= CommentRange.pos r /\ commentAt text r
      /\ rangesWithin text (CommentRange.end_ r) hi rs
  end.

(** The ranges that a state of the loop holds: those handed to
    [appendCommentRange], then the pending one. *)
Definition rangesOf
    (s : CommentIterator.State (option (list CommentRange.t)))
  : list CommentRange.t :=
  default [] (CommentIterator.accumulator _ s)
  ++ option_list (CommentIterator.pending _ s).

(** The invariant of the loop that gathers the ranges: what has been
    gathered are comments of the text between [lo] and the position, in
    order. *)
Definition gathered (text : Text) (lo : Z)
    (s : CommentIterator.State (option (list CommentRange.t))) : Prop :=
  rangesWithin text lo (CommentIterator.pos _ s) (rangesOf s)
  /\ CommentIterator.accumulator _ s <> Some [].

(** What a search with [forEach...] returns from the results of its
    callback: the first truthy one, and the last one when none is truthy. *)
Fixpoint firstTruthy {U} (truthy : U -> bool) (results : list U) : option U :=
  match results with
  | [] => None
  | u :: rest =>
      if truthy u then Some u
      else match rest with
           | [] => Some u
           | _ :: _ => firstTruthy truthy rest
           end
  end.

(** A returned position sits on the text: the opening [/*], a colon, the
    closing [*/]. *)
Definition spanOnText (text : Text) (p : TsCommentPosition.t) : Prop :=
  exists o c k,
    TsCommentPosition.open p = Some o /\ TsCommentPosition.colonPos p = Some c
    /\ TsCommentPosition.close p = Some k
    /\ o + 2 <= c < k
    /\ codeIs (charCodeAt text o) CharacterCodes.slash = true
    /\ codeIs (charCodeAt text (o + 1)) CharacterCodes.asterisk = true
    /\ codeIs (charCodeAt text c) CharacterCodes.colon = true
    /\ closingAt text k.

(** * Properties *)

(** ** Characters *)

Lemma codeIs_eq ch c : codeIs ch c = true <-> ch = Some c.
Proof.
  destruct ch as [x|]; simpl; [|split; discriminate].
  rewrite Z.eqb_eq. split; congruence.
Qed.

Lemma codePointAt_small text p c :
  c < 0xD800 -> codeIs (codePointAt text p) c = true ->
  codeIs (charCodeAt text p) c = true.
Proof.
  intros Hc. unfold codePointAt.
  destruct (charCodeAt text p) as [first|]; [|done].
  destruct ((0xD800 <=? first) && (first <=? 0xDBFF)) eqn:Hs; [|done].
  apply andb_true_iff in Hs as [H1 H2].
  apply Z.leb_le in H1. apply Z.leb_le in H2.
  destruct (charCodeAt text (p + 1)) as [second|]; simpl.
  - destruct ((0xDC00 <=? second) && (second <=? 0xDFFF)) eqn:Hs2; simpl.
    + apply andb_true_iff in Hs2 as [H3 H4].
      apply Z.leb_le in H3. apply Z.leb_le in H4.
      rewrite Z.eqb_eq. lia.
    + rewrite Z.eqb_eq. lia.
  - rewrite Z.eqb_eq. lia.
Qed.

Lemma charCodeAt_negative text p : p < 0 -> charCodeAt text p = None.
Proof. intros. unfold charCodeAt. destruct (0 <=? p) eqn:E; [lia|done]. Qed.

Lemma codePointAt_negative text p : p < 0 -> codePointAt text p = None.
Proof. intros. unfold codePointAt. by rewrite charCodeAt_negative. Qed.

Lemma charCodeAt_Some_lt text p c :
  charCodeAt text p = Some c -> 0 <= p < text_length text.
Proof.
  unfold charCodeAt, text_length. destruct (0 <=? p) eqn:E; [|done].
  intros H%lookup_lt_Some. lia.
Qed.

Lemma regexDotStar_bounds units : 0 <= regexDotStar units <= Z.of_nat (length units).
Proof.
  induction units as [|c rest IH]; simpl; [lia|].
  destruct (isLineBreak c); lia.
Qed.

(** ** The loops of [commentScan] move forward *)

Lemma scanLineComment_ge fuel text e p : p <= scanLineComment fuel text e p.
Proof.
  revert p. induction fuel as [|fuel IH]; intros p; simpl; [lia|].
  destruct (p <? e); [|lia].
  destruct (isLineBreakAt text p); [lia|].
  specialize (IH (p + 1)). lia.
Qed.

Lemma scanTsCommentPrefix_spec fuel text e p q b :
  scanTsCommentPrefix fuel text e p = (q, b) ->
  p <= q
  /\ (forall i, p <= i < q -> codeIs (charCodeAt text i) CharacterCodes.space = true)
  /\ (b = true -> codeIs (charCodeAt text q) CharacterCodes.colon = true /\ q < e).
Proof.
  revert p. induction fuel as [|fuel IH]; intros p; simpl.
  - intros [= <- <-]. repeat split; [lia|lia|done|done].
  - destruct (p <? e) eqn:Hpe.
    + destruct (codeIs (charCodeAt text p) CharacterCodes.space) eqn:Hsp.
      * intros H. apply IH in H as (H1 & H2 & H3). split; [lia|]. split; [|done].
        intros i Hi. destruct (decide (i = p)) as [->|]; [done|]. apply H2. lia.
      * destruct (codeIs (charCodeAt text p) CharacterCodes.colon) eqn:Hco;
          intros [= <- <-]; (split; [lia|]); (split; [lia|]); [|done].
        intros _. split; [done|]. by apply Z.ltb_lt.
    + intros [= <- <-]. repeat split; [lia|lia|done|done].
Qed.

Lemma scanBlockCommentBody_spec fuel text e p q ds :
  scanBlockCommentBody fuel text e p = (q, ds) ->
  p <= q /\ (ds = [] \/ exists c, ds = [(c, close)] /\ p <= c /\ closingAt text c /\ q = c + 2).
Proof.
  revert p. induction fuel as [|fuel IH]; intros p; simpl.
  - intros [= <- <-]. split; [lia|by left].
  - destruct (p <? e).
    + destruct (codeIs (charCodeAt text p) CharacterCodes.asterisk
                && codeIs (charCodeAt text (p + 1)) CharacterCodes.slash) eqn:Hc.
      * intros [= <- <-]. split; [lia|]. right. exists p.
        apply andb_true_iff in Hc. unfold closingAt.
        split; [done|]. split; [lia|]. split; [tauto|done].
      * intros H. apply IH in H as [H1 H2]. split; [lia|].
        destruct H2 as [->|(c & -> & Hc1 & Hc2 & ->)]; [by left|].
        right. exists c. split; [done|]. split; [lia|]. split; [done|done].
    + intros [= <- <-]. split; [lia|by left].
Qed.

Lemma colonCount_cases text p :
  colonCount text p = 1 \/ colonCount text p = 2 \/ colonCount text p = 3.
Proof.
  unfold colonCount.
  destruct (codeIs (charCodeAt text (p + 1)) CharacterCodes.colon); simpl; [|tauto].
  destruct (codeIs (charCodeAt text (p + 2)) CharacterCodes.colon); simpl; tauto.
Qed.

Lemma commentScanBlockComment_progress text e p :
  match commentScanBlockComment text e p with
  | Continues p' _ => p < p'
  | _ => False
  end.
Proof.
  unfold commentScanBlockComment.
  destruct (scanTsCommentPrefix _ text e (p + 2)) as [q b] eqn:Hpre.
  apply scanTsCommentPrefix_spec in Hpre as (Hq & _ & _).
  destruct b; simpl.
  - destruct (colonCount_cases text q) as [-> | [-> | ->]]; simpl; try lia.
    destruct (scanBlockCommentBody _ text e (q + 3)) as [q' ds] eqn:Hb.
    apply scanBlockCommentBody_spec in Hb as [Hq' _]. lia.
  - destruct (scanBlockCommentBody _ text e q) as [q' ds] eqn:Hb.
    apply scanBlockCommentBody_spec in Hb as [Hq' _]. lia.
Qed.

(** Every turn of the loop of [commentScan] returns, fails its assertion,
    or moves the position forward, and it only goes on before [end]. *)
Lemma commentScanIteration_progress text e stop p p' ds :
  commentScanIteration text e stop p = Continues p' ds -> p < p' /\ p < e.
Proof.
  unfold commentScanIteration.
  destruct (e <=? p) eqn:Hend; [done|]. apply Z.leb_gt in Hend.
  intros H. split; [|done]. revert H.
  destruct ((p =? 0) && _ && isShebangTrivia text) eqn:Hsh.
  { destruct (scanShebangTrivia text p <? e); [|done].
    intros [= <- <-]. unfold scanShebangTrivia.
    pose proof (regexDotStar_bounds (drop 2 text)). lia. }
  destruct (isCase _ lineBreakCases); [intros [= <- <-]; lia|].
  destruct (isCase _ whiteSpaceCases); [intros [= <- <-]; lia|].
  destruct (codeIs (codePointAt text p) CharacterCodes.asterisk).
  { destruct (codeIs (charCodeAt text (p + 1)) CharacterCodes.slash);
      intros [= <- <-]; lia. }
  destruct (codeIs (codePointAt text p) CharacterCodes.slash).
  { destruct (codeIs (charCodeAt text (p + 1)) CharacterCodes.slash).
    { intros [= <- <-]. pose proof (scanLineComment_ge
        (distance e (p + 2)) text e (p + 2)). lia. }
    destruct (codeIs (charCodeAt text (p + 1)) CharacterCodes.asterisk).
    { intros H. pose proof (commentScanBlockComment_progress text e p) as Hp.
      rewrite H in Hp. done. }
    intros [= <- <-]; lia. }
  simpl. destruct stop; [done|]. intros [= <- <-]; lia.
Qed.

(** Enough fuel: the loop of [commentScan] ends within
    [commentScanFuel start end] turns. *)
Lemma commentScanLoop_total fuel text e stop p acc :
  (distance e p < fuel)%nat ->
  exists r, commentScanLoop fuel text e stop p acc = Some r.
Proof.
  revert p acc. induction fuel as [|fuel IH]; intros p acc Hf; [lia|]. simpl.
  destruct (commentScanIteration text e stop p) as [q| |q ds] eqn:Hit; eauto.
  apply commentScanIteration_progress in Hit as [H1 H2].
  apply IH. unfold distance in *. lia.
Qed.

Lemma commentScanLoop_more_fuel fuel fuel' text e stop p acc r :
  (fuel <= fuel')%nat ->
  commentScanLoop fuel text e stop p acc = Some r ->
  commentScanLoop fuel' text e stop p acc = Some r.
Proof.
  revert fuel' p acc. induction fuel as [|fuel IH]; intros fuel' p acc Hle; [done|].
  destruct fuel' as [|fuel']; [lia|]. simpl.
  destruct (commentScanIteration text e stop p); auto.
  apply IH. lia.
Qed.

Lemma commentScan_unfold text start e stop :
  commentScanLoop (commentScanFuel start e) text e stop start []
  = Some (commentScan text start e stop).
Proof.
  unfold commentScan.
  destruct (commentScanLoop_total (commentScanFuel start e) text e stop start [])
    as [r Hr]; [unfold commentScanFuel; lia|].
  by rewrite Hr.
Qed.

(** ** When [commentScan] throws *)

Lemma codePointAt_of_charCodeAt text p c :
  c < 0xD800 -> charCodeAt text p = Some c -> codePointAt text p = Some c.
Proof.
  intros Hc H. unfold codePointAt. rewrite H.
  destruct (0xD800 <=? c) eqn:E; [apply Z.leb_le in E; lia|done].
Qed.

Lemma isShebangTrivia_hash text :
  isShebangTrivia text = true ->
  codeIs (codePointAt text 0) CharacterCodes.hash = true.
Proof.
  unfold isShebangTrivia. intros [H _]%andb_true_iff.
  apply codeIs_eq in H. apply codeIs_eq.
  by apply codePointAt_of_charCodeAt.
Qed.

Lemma commentScanIteration_Throws text e stop p :
  commentScanIteration text e stop p = Throws <->
  p = 0 /\ 0 < e /\ isShebangTrivia text = true /\ e <= scanShebangTrivia text 0.
Proof.
  unfold commentScanIteration. split.
  - destruct (e <=? p) eqn:Hend; [done|]. apply Z.leb_gt in Hend.
    destruct ((p =? 0) && _ && isShebangTrivia text) eqn:Hsh.
    + apply andb_true_iff in Hsh as [[H0 _]%andb_true_iff Hs].
      apply Z.eqb_eq in H0 as ->.
      destruct (scanShebangTrivia text 0 <? e) eqn:Hlt; [done|].
      apply Z.ltb_ge in Hlt. done.
    + destruct (isCase _ lineBreakCases); [done|].
      destruct (isCase _ whiteSpaceCases); [done|].
      destruct (codeIs (codePointAt text p) CharacterCodes.asterisk).
      { by destruct (codeIs (charCodeAt text (p + 1)) CharacterCodes.slash). }
      destruct (codeIs (codePointAt text p) CharacterCodes.slash).
      { destruct (codeIs (charCodeAt text (p + 1)) CharacterCodes.slash); [done|].
        destruct (codeIs (charCodeAt text (p + 1)) CharacterCodes.asterisk); [|done].
        intros H. pose proof (commentScanBlockComment_progress text e p) as Hp.
        by rewrite H in Hp. }
      simpl. by destruct stop.
  - intros (-> & He & Hs & Hle).
    destruct (e <=? 0) eqn:Hend; [apply Z.leb_le in Hend; lia|].
    rewrite (isShebangTrivia_hash _ Hs), Hs. simpl.
    unfold scanShebangTrivia in Hle. simpl in Hle.
    destruct (_ <? e) eqn:Hlt; [|done].
    apply Z.ltb_lt in Hlt. lia.
Qed.

Lemma commentScanIteration_before_text text e stop p :
  p < 0 -> p < e ->
  commentScanIteration text e stop p
  = if stop then Returns p else Continues (p + 1) [].
Proof.
  intros Hp He. unfold commentScanIteration.
  destruct (e <=? p) eqn:Hend; [apply Z.leb_le in Hend; lia|].
  rewrite codePointAt_negative by done. simpl.
  destruct (p =? 0) eqn:E; [apply Z.eqb_eq in E; lia|]. simpl.
  by destruct stop.
Qed.

Lemma commentScanLoop_Throw fuel text e stop p acc ds r :
  commentScanLoop fuel text e stop p acc = Some (ds, r) ->
  r = Throw <-> shebangAssertionFails text p e stop.
Proof.
  revert p acc. induction fuel as [|fuel IH]; intros p acc; [done|]. simpl.
  destruct (commentScanIteration text e stop p) as [q| |q ds'] eqn:Hit.
  - intros [= <- <-]. split; [done|]. intros (Hp & He & Hs & Hle). exfalso.
    destruct Hp as [->|[Hp ->]].
    + assert (commentScanIteration text e stop 0 = Throws) as Ht
        by (by apply commentScanIteration_Throws).
      congruence.
    + rewrite commentScanIteration_before_text in Hit by lia. done.
  - intros [= <- <-]. split; [|done]. intros _.
    apply commentScanIteration_Throws in Hit as (-> & He & Hs & Hle).
    split; [by left|done].
  - intros H. apply IH in H. rewrite H. clear H IH.
    pose proof Hit as [Hlt He]%commentScanIteration_progress.
    unfold shebangAssertionFails.
    destruct (Z.lt_trichotomy p 0) as [Hp|[->|Hp]].
    + rewrite commentScanIteration_before_text in Hit by lia.
      destruct stop; [done|]. injection Hit as <- <-.
      split; intros (_ & H); (split; [|done]).
      * right. split; [lia|done].
      * destruct (decide (p + 1 = 0)); [by left|right; split; [lia|done]].
    + split.
      * intros ([?|[? _]] & _); lia.
      * intros (_ & H). exfalso.
        assert (commentScanIteration text e stop 0 = Throws) as Ht
          by (by apply commentScanIteration_Throws).
        congruence.
    + split; intros ([?|[? _]] & _); lia.
Qed.

Lemma commentScanIteration_Returns text e stop p q :
  commentScanIteration text e stop p = Returns q ->
  q = p /\ (e <= p \/ stop = true).
Proof.
  unfold commentScanIteration.
  destruct (e <=? p) eqn:Hend; [apply Z.leb_le in Hend; intros [= <-]; tauto|].
  destruct ((p =? 0) && _ && isShebangTrivia text).
  { by destruct (scanShebangTrivia text p <? e). }
  destruct (isCase _ lineBreakCases); [done|].
  destruct (isCase _ whiteSpaceCases); [done|].
  destruct (codeIs (codePointAt text p) CharacterCodes.asterisk).
  { by destruct (codeIs (charCodeAt text (p + 1)) CharacterCodes.slash). }
  destruct (codeIs (codePointAt text p) CharacterCodes.slash).
  { destruct (codeIs (charCodeAt text (p + 1)) CharacterCodes.slash); [done|].
    destruct (codeIs (charCodeAt text (p + 1)) CharacterCodes.asterisk); [|done].
    intros H. pose proof (commentScanBlockComment_progress text e p) as Hp.
    by rewrite H in Hp. }
  simpl. destruct stop; [|done]. intros [= <-]. tauto.
Qed.

Lemma commentScanLoop_ge fuel text e stop p acc ds q :
  commentScanLoop fuel text e stop p acc = Some (ds, Normal q) ->
  p <= q /\ (e <= q \/ stop = true).
Proof.
  revert p acc. induction fuel as [|fuel IH]; intros p acc; [done|]. simpl.
  destruct (commentScanIteration text e stop p) as [q'| |q' ds'] eqn:Hit.
  - intros [= <- <-]. apply commentScanIteration_Returns in Hit as [-> H].
    split; [lia|done].
  - done.
  - intros H. apply IH in H as [H1 H2].
    apply commentScanIteration_progress in Hit. split; [lia|done].
Qed.

(** A scan over an empty stretch returns at once and reports nothing. *)
Lemma commentScan_empty text start e stop :
  e <= start -> commentScan text start e stop = ([], Normal start).
Proof.
  intros H. unfold commentScan, commentScanFuel. simpl.
  unfold commentScanIteration.
  destruct (e <=? start) eqn:E; [done|]. apply Z.leb_gt in E. lia.
Qed.

Lemma commentScan_ge text start e stop ds q :
  commentScan text start e stop = (ds, Normal q) -> start <= q.
Proof.
  intros H. pose proof (commentScan_unfold text start e stop) as Hu.
  rewrite H in Hu. by apply commentScanLoop_ge in Hu as [? _].
Qed.

(** [commentScan] always terminates: every turn of its loop returns, fails
    the assertion or moves the position forward, so the loop ends within
    [commentScanFuel start end] turns.  When it returns, it returns the
    position where it stopped (never before [start]; at or after [end]
    unless it was asked to stop on significant text).  It throws in one
    case only: the scan reaches position 0 of a text that opens with a
    shebang line [#!...] which does not end before [end], where
    [Debug.assertLessThan(pos, end)] fails. *)
Lemma commentScan_ends text start e stop :
  (forall p p' ds,
      commentScanIteration text e stop p = Continues p' ds -> p < p' /\ p < e)
  /\ commentScanLoop (commentScanFuel start e) text e stop start []
     = Some (commentScan text start e stop)
  /\ (snd (commentScan text start e stop) = Throw
      <-> shebangAssertionFails text start e stop)
  /\ (forall q, snd (commentScan text start e stop) = Normal q ->
        start <= q /\ (e <= q \/ stop = true)).
Proof.
  pose proof (commentScan_unfold text start e stop) as Hu.
  destruct (commentScan text start e stop) as [ds r] eqn:Hcs.
  split; [apply commentScanIteration_progress|].
  split; [done|]. split.
  - simpl. by eapply commentScanLoop_Throw.
  - simpl. intros q ->. by eapply commentScanLoop_ge.
Qed.

(** C9 fails on the code.  On a text that is one shebang line, scanned from
    0 to its end, [commentScan] passes the line and then fails its own
    assertion [Debug.assertLessThan(pos, end)], although nothing is wrong
    with the text or the bounds.  [skipTrivia] and [scan], from which the
    shebang case is taken, pass the same line without an error and stop at
    the end of the text, and [commentScan] itself returns the end when the
    line is followed by a line break or when the text is scanned from 1. *)
Theorem commentScan_shebang_assertion shouldParseJSDoc scanOther :
  let text := text_of "#!/usr/bin/env node" in
  text_length text = 19
  /\ commentScan text 0 19 false = ([], Throw)
  /\ commentScan text 0 19 true = ([], Throw)
  /\ skipTrivia (fun p => p <? 0) text false false false 2 0 = Some 19
  /\ Scanner.scanAll text 19 true 0 shouldParseJSDoc scanOther 1 2
       Scanner.initial
     = Some []
  /\ commentScan (text ++ [CharacterCodes.lineFeed]) 0 20 false
     = ([], Normal 20)
  /\ commentScan text 1 19 false = ([], Normal 19).
Proof. repeat split; vm_compute; reflexivity. Qed.

(** ** The cursor: what a scan does to its scanner and to the store *)

Lemma foldl_onCommentDelimiter sc store ds :
  foldl onCommentDelimiter (sc, store) ds
  = (TsCommentScanner.setState (statesAfter ds (TsCommentScanner.state sc)) sc,
     alter (insertAll ds) (TsCommentScanner.delimiterPositions sc) store).
Proof.
  revert sc store. induction ds as [|d ds IH]; intros sc store; simpl.
  - destruct sc. simpl. f_equal. symmetry. by apply list_alter_id.
  - rewrite IH. destruct sc. simpl. f_equal.
    rewrite list_alter_alter_eq. by apply list_alter_ext.
Qed.

Lemma insertAll_snoc ds d m :
  insertAll (ds ++ [d]) m = <[fst d := snd d]> (insertAll ds m).
Proof. unfold insertAll. by rewrite foldl_app. Qed.

Lemma insertAll_absorb ds k v m :
  <[k := v]> (insertAll ds (<[k := v]> m)) = <[k := v]> (insertAll ds m).
Proof.
  revert m. induction ds as [|[k' v'] ds IH]; intros m; simpl.
  - by rewrite insert_insert_eq.
  - destruct (decide (k' = k)) as [->|Hne].
    + by rewrite insert_insert_eq.
    + rewrite insert_insert_ne by done. apply IH.
Qed.

Lemma insertAll_idemp ds m : insertAll ds (insertAll ds m) = insertAll ds m.
Proof.
  induction ds as [|d ds IH] using rev_ind; [done|].
  rewrite !insertAll_snoc, insertAll_absorb. by rewrite IH.
Qed.

Lemma statesAfter_snoc ds d s :
  statesAfter (ds ++ [d]) s = stateAfter (snd d) (statesAfter ds s).
Proof. unfold statesAfter. by rewrite foldl_app. Qed.

Lemma statesAfter_absorb ds t s :
  stateAfter t (statesAfter ds (stateAfter t s)) = stateAfter t (statesAfter ds s).
Proof. by destruct t. Qed.

Lemma statesAfter_idemp ds s : statesAfter ds (statesAfter ds s) = statesAfter ds s.
Proof.
  induction ds as [|d ds IH] using rev_ind; [done|].
  rewrite !statesAfter_snoc, statesAfter_absorb. by rewrite IH.
Qed.

(** Reporting the same delimiters a second time changes nothing. *)
Lemma foldl_onCommentDelimiter_idemp w ds :
  foldl onCommentDelimiter (foldl onCommentDelimiter w ds) ds
  = foldl onCommentDelimiter w ds.
Proof.
  destruct w as [sc store]. rewrite !foldl_onCommentDelimiter.
  destruct sc; simpl. rewrite statesAfter_idemp. f_equal.
  rewrite list_alter_alter_eq. apply list_alter_ext; [|done].
  intros m _. apply insertAll_idemp.
Qed.

Lemma foldl_onCommentDelimiter_pos w ds :
  TsCommentScanner.pos (fst (foldl onCommentDelimiter w ds))
  = TsCommentScanner.pos (fst w).
Proof. destruct w as [[] store]. by rewrite foldl_onCommentDelimiter. Qed.

Lemma scanReporting_empty text start e stop w :
  e <= start -> scanReporting text start e stop w = (Normal (start, []), w).
Proof. intros H. unfold scanReporting. by rewrite commentScan_empty. Qed.

(** ** C4: [clone] and the delimiter map *)

(** C4 fails on the code.  [clone()] hands the argument
    [_delimiterPositions] to the new scanner, not the constant
    [delimiterPositions]: for a scanner that was created without that
    argument the clone allocates a map of its own, and what the clone
    finds is not seen through the original. *)
Theorem clone_allocates_its_own_map :
  let text := text_of "/*: a */" in
  let '(original, store0) := createTSCommentScanner None None None [] in
  let '(copy, store1) := clone original store0 in
  let '(_, (copy', store2)) := scanTo text (text_length text) (copy, store1) in
  TsCommentScanner.delimiterPositions copy
    <> TsCommentScanner.delimiterPositions original
  /\ map_to_list (getBlockCommentDelimiters copy' store2)
     = [(6, close); (2, singleColonForOpenTsComment);
        (0, openTsCommentWithoutColons)]
  /\ getBlockCommentDelimiters original store2 = ∅
  /\ getTSCommentPositions original store2 = [].
Proof. vm_compute. repeat split; discriminate || reflexivity. Qed.

(** ** C5: [scanUntilNextSignificantChar] *)

Lemma scanUntilNextSignificantChar_pos text max w :
  TsCommentScanner.pos (fst (snd (scanUntilNextSignificantChar text max w)))
  = TsCommentScanner.pos (fst w).
Proof.
  unfold scanUntilNextSignificantChar, TsCommentScanner.bind,
    TsCommentScanner.get, TsCommentScanner.ret, inTSComment, scanReporting.
  simpl. destruct (max <? _); [done|].
  destruct (commentScan text _ max true) as [ds [q|]]; simpl;
    by rewrite foldl_onCommentDelimiter_pos.
Qed.

(** C5 fails on the code.  [scanUntilNextSignificantChar] drops the
    position that [commentScan] returns: in the text [ a] the first
    significant character is at 1, and the cursor is still at 0. *)
Theorem scanUntilNextSignificantChar_stays :
  let text := text_of " a" in
  let w := createTSCommentScanner None None None [] in
  let '(r, (sc, _)) := scanUntilNextSignificantChar text 2 w in
  r = Normal false
  /\ snd (commentScan text 0 2 true) = Normal 1
  /\ getCurrentPos sc = 0.
Proof. vm_compute. repeat split; reflexivity. Qed.

(** ** C6: scanning again *)

Lemma scanTo_passed text e w :
  e < TsCommentScanner.pos (fst w) -> scanTo text e w = (Normal false, w).
Proof.
  intros H. unfold scanTo, TsCommentScanner.bind, TsCommentScanner.get. simpl.
  destruct (e <? _) eqn:E; [done|]. apply Z.ltb_ge in E. lia.
Qed.

Lemma scanThroughLeafNode_passed text node_pos node_end w :
  node_end < TsCommentScanner.pos (fst w) ->
  scanThroughLeafNode text node_pos node_end w = (Normal false, w).
Proof.
  intros H. unfold scanThroughLeafNode, TsCommentScanner.bind,
    TsCommentScanner.get. simpl.
  destruct (node_end <? _) eqn:E; [done|]. apply Z.ltb_ge in E. lia.
Qed.

Lemma scanTo_pos text e w b w' :
  TsCommentScanner.pos (fst w) <= e ->
  scanTo text e w = (Normal b, w') -> TsCommentScanner.pos (fst w') = e.
Proof.
  intros Hle. unfold scanTo, TsCommentScanner.bind, TsCommentScanner.get,
    TsCommentScanner.modify, TsCommentScanner.ret, inTSComment. simpl.
  destruct (e <? _) eqn:E; [apply Z.ltb_lt in E; lia|].
  destruct (scanReporting text _ e true w) as [[[q ds]|] w1]; [|done]. simpl.
  destruct (scanReporting text q e false w1) as [[[q' ds']|] w2]; [|done]. simpl.
  by intros [= _ <-].
Qed.

Lemma scanTo_again text e w :
  TsCommentScanner.pos (fst w) = e ->
  scanTo text e w
  = (Normal (bool_decide (TsCommentScanner.state (fst w) = inTSBlockComment)), w).
Proof.
  intros Hp. unfold scanTo, TsCommentScanner.bind, TsCommentScanner.get,
    TsCommentScanner.modify, TsCommentScanner.ret, inTSComment. simpl.
  destruct (e <? _) eqn:E; [apply Z.ltb_lt in E; lia|].
  rewrite Hp, !scanReporting_empty by lia. simpl.
  rewrite scanReporting_empty by lia. simpl.
  destruct w as [[] store]. simpl in *. by subst.
Qed.

Lemma scanThroughLeafNode_again text node_pos node_end w b w' :
  node_pos <= node_end ->
  TsCommentScanner.pos (fst w) <= node_end ->
  scanThroughLeafNode text node_pos node_end w = (Normal b, w') ->
  scanThroughLeafNode text node_pos node_end w' = (Normal b, w').
Proof.
  intros Hnode Hle.
  unfold scanThroughLeafNode, TsCommentScanner.bind, TsCommentScanner.get,
    TsCommentScanner.modify, TsCommentScanner.ret, inTSComment. simpl.
  destruct (node_end <? TsCommentScanner.pos (fst w)) eqn:E;
    [apply Z.ltb_lt in E; lia|].
  destruct (scanReporting text _ node_pos false w) as [[[q1 ds1]|] w1]; [|done].
  unfold scanReporting.
  destruct (commentScan text node_pos node_end true) as [ds2 [q2|]]; [|done].
  simpl. intros [= <- <-]. simpl.
  rewrite Z.ltb_irrefl.
  rewrite commentScan_empty by lia. simpl.
  destruct (foldl onCommentDelimiter w1 ds2) as [sc2 store2] eqn:Hw2. simpl.
  assert (foldl onCommentDelimiter
            (TsCommentScanner.setPos node_end sc2, store2) ds2
          = (TsCommentScanner.setPos node_end sc2, store2)) as ->.
  { pose proof (foldl_onCommentDelimiter_idemp w1 ds2) as Hid.
    rewrite Hw2 in Hid. rewrite foldl_onCommentDelimiter in Hid |- *.
    destruct sc2; simpl in *. by injection Hid as -> ->. }
  by destruct sc2.
Qed.

(** C6, as amended.  A call of [scanTo] or [scanThroughLeafNode] whose bound
    lies strictly before the current position changes nothing and returns
    false.  Repeating a completed call with the same bound changes nothing
    either (position, state and delimiter map stay as they are), but it is
    scanned again from the bound and returns whether the scanner is inside
    a TS comment: true there, not false. *)
Theorem scanning_again_changes_nothing text :
  (forall e w,
      e < TsCommentScanner.pos (fst w) -> scanTo text e w = (Normal false, w))
  /\ (forall node_pos node_end w,
        node_end < TsCommentScanner.pos (fst w) ->
        scanThroughLeafNode text node_pos node_end w = (Normal false, w))
  /\ (forall e w b w',
        TsCommentScanner.pos (fst w) <= e ->
        scanTo text e w = (Normal b, w') ->
        scanTo text e w'
        = (Normal (bool_decide (TsCommentScanner.state (fst w') = inTSBlockComment)),
           w'))
  /\ (forall node_pos node_end w b w',
        node_pos <= node_end ->
        TsCommentScanner.pos (fst w) <= node_end ->
        scanThroughLeafNode text node_pos node_end w = (Normal b, w') ->
        scanThroughLeafNode text node_pos node_end w'
        = (Normal (bool_decide (TsCommentScanner.state (fst w') = inTSBlockComment)),
           w')).
Proof.
  split; [intros; by apply scanTo_passed|].
  split; [intros; by apply scanThroughLeafNode_passed|].
  split.
  - intros e w b w' Hle H. apply scanTo_again. by eapply scanTo_pos.
  - intros node_pos node_end w b w' Hn Hle H.
    rewrite (scanThroughLeafNode_again _ _ _ _ _ _ Hn Hle H). f_equal. f_equal.
    revert H. unfold scanThroughLeafNode, TsCommentScanner.bind,
      TsCommentScanner.get, TsCommentScanner.modify, TsCommentScanner.ret,
      inTSComment. simpl.
    destruct (node_end <? TsCommentScanner.pos (fst w)) eqn:E;
      [apply Z.ltb_lt in E; lia|].
    destruct (scanReporting text _ node_pos false w) as [[[q1 ds1]|] w1]; [|done].
    destruct (scanReporting text node_pos node_end true w1) as [[[q2 ds2]|] w2];
      [|done].
    simpl. by intros [= <- <-].
Qed.

Lemma scanning_again_witness :
  TsCommentScanner.pos (fst (createTSCommentScanner None None None [])) <= 6
  /\ scanTo (text_of "/*:: a */") 6
       (snd (scanTo (text_of "/*:: a */") 6
               (createTSCommentScanner None None None [])))
     = (Normal
          (bool_decide
             (TsCommentScanner.state
                (fst (snd (scanTo (text_of "/*:: a */") 6
                             (createTSCommentScanner None None None []))))
              = inTSBlockComment)),
        snd (scanTo (text_of "/*:: a */") 6
               (createTSCommentScanner None None None []))).
Proof.
  assert (TsCommentScanner.pos (fst (createTSCommentScanner None None None [])) <= 6)
    as H by (simpl; lia).
  split; [exact H|].
  destruct (scanning_again_changes_nothing (text_of "/*:: a */"))
    as (_ & _ & Hagain & _).
  apply (Hagain 6 (createTSCommentScanner None None None []) true _ H).
  vm_compute. reflexivity.
Defined.

(** C6 as stated fails: inside a TS comment the second [scanTo] with the
    same bound changes nothing but returns true. *)
Lemma scanTo_again_returns_true :
  let text := text_of "/*:: a */" in
  let w := snd (scanTo text 6 (createTSCommentScanner None None None [])) in
  scanTo text 6 w = (Normal true, w).
Proof. vm_compute. reflexivity. Qed.

(** ** C7 and C8: two scenarios *)

(** C7, as amended.  For [/*: number */] exactly one span is returned; the
    colon is the third character, at offset 2, and [close] is the offset of
    the asterisk of the closing delimiter, 11. *)
Theorem single_marker_scenario :
  positionsOfWholeText (text_of "/*: number */")
  = [TsCommentPosition.mk (Some 0) (Some 2) (Some 11) (Some 1) false].
Proof. vm_compute. reflexivity. Qed.

(** C7 as stated fails: the span is not the one with [colonPos = 3] and
    [close = 12]. *)
Lemma single_marker_scenario_offsets :
  positionsOfWholeText (text_of "/*: number */")
  <> [TsCommentPosition.mk (Some 0) (Some 3) (Some 12) (Some 1) false].
Proof. vm_compute. discriminate. Qed.

(** C8, as amended.  For [/** @x *//*:: y */] a single span is returned,
    closed at the final delimiter (offset 16).  The JSDoc comment is closed
    before the TS comment opens, so no opening block comment lies inside
    the span: [containedInnerOpeningBlockComment] is false. *)
Theorem jsdoc_then_marker_scenario :
  positionsOfWholeText (text_of "/** @x *//*:: y */")
  = [TsCommentPosition.mk (Some 9) (Some 11) (Some 16) (Some 2) false].
Proof. vm_compute. reflexivity. Qed.

(** C8 as stated fails: the one span returned does not have
    [containedInnerOpeningBlockComment] set. *)
Lemma jsdoc_then_marker_scenario_flag :
  TsCommentPosition.containedInnerOpeningBlockComment
    <$> positionsOfWholeText (text_of "/** @x *//*:: y */")
  = [false].
Proof. vm_compute. reflexivity. Qed.

(** The flag is set when the opening block comment lies inside the TS
    comment, as in [/*:: /** @x */]. *)
Example inner_opening_block_comment :
  positionsOfWholeText (text_of "/*:: /** @x */")
  = [TsCommentPosition.mk (Some 0) (Some 2) (Some 12) (Some 2) true].
Proof. vm_compute. reflexivity. Qed.

(** ** C10: what [commentScan] reports, and what the map holds *)

Lemma Reported_app text ds1 ds2 :
  Reported text ds1 -> Reported text ds2 -> Reported text (ds1 ++ ds2).
Proof. induction 1; simpl; intros; [done|by constructor; auto..]. Qed.

Lemma commentScanBlockComment_Reported text e p :
  codeIs (charCodeAt text p) CharacterCodes.slash = true ->
  codeIs (charCodeAt text (p + 1)) CharacterCodes.asterisk = true ->
  match commentScanBlockComment text e p with
  | Continues _ ds => Reported text ds
  | _ => True
  end.
Proof.
  intros Hs Ha. unfold commentScanBlockComment.
  destruct (scanTsCommentPrefix _ text e (p + 2)) as [q b] eqn:Hpre.
  apply scanTsCommentPrefix_spec in Hpre as (Hq & Hsp & Hcol).
  assert (forall q', match scanBlockCommentBody (distance e q') text e q' with
                     | (_, closing) => Reported text closing end) as Hbody.
  { intros q'. destruct (scanBlockCommentBody _ text e q') as [q'' ds] eqn:Hb.
    apply scanBlockCommentBody_spec in Hb as [_ [->|(c & -> & _ & Hc & _)]].
    - constructor.
    - apply Reported_close; [done|constructor]. }
  destruct b; simpl.
  - destruct (Hcol eq_refl) as [Hc _].
    assert (tsOpening text p q) as Hop by (unfold tsOpening; auto).
    destruct (colonCount_cases text q) as [-> | [-> | ->]]; simpl.
    + constructor; [done|done|constructor].
    + constructor; [done|done|constructor].
    + specialize (Hbody (q + 3)).
      destruct (scanBlockCommentBody _ text e (q + 3)). by constructor.
  - specialize (Hbody q). destruct (scanBlockCommentBody _ text e q).
    by constructor.
Qed.

Lemma commentScanIteration_Reported text e stop p p' ds :
  commentScanIteration text e stop p = Continues p' ds -> Reported text ds.
Proof.
  unfold commentScanIteration.
  destruct (e <=? p); [done|].
  destruct ((p =? 0) && _ && isShebangTrivia text).
  { destruct (scanShebangTrivia text p <? e); [|done].
    intros [= <- <-]. constructor. }
  destruct (isCase _ lineBreakCases); [intros [= <- <-]; constructor|].
  destruct (isCase _ whiteSpaceCases); [intros [= <- <-]; constructor|].
  destruct (codeIs (codePointAt text p) CharacterCodes.asterisk) eqn:Hast.
  { apply codePointAt_small in Hast; [|done].
    destruct (codeIs (charCodeAt text (p + 1)) CharacterCodes.slash) eqn:Hsl;
      intros [= <- <-]; [|constructor].
    apply Reported_close; [done|constructor]. }
  destruct (codeIs (codePointAt text p) CharacterCodes.slash) eqn:Hsl.
  { apply codePointAt_small in Hsl; [|done].
    destruct (codeIs (charCodeAt text (p + 1)) CharacterCodes.slash).
    { intros [= <- <-]. constructor. }
    destruct (codeIs (charCodeAt text (p + 1)) CharacterCodes.asterisk) eqn:Ha.
    { intros H. pose proof (commentScanBlockComment_Reported text e p Hsl Ha) as Hr.
      by rewrite H in Hr. }
    intros [= <- <-]. constructor. }
  simpl. destruct stop; [done|]. intros [= <- <-]. constructor.
Qed.

Lemma commentScanLoop_Reported fuel text e stop p acc ds r :
  Reported text acc ->
  commentScanLoop fuel text e stop p acc = Some (ds, r) -> Reported text ds.
Proof.
  revert p acc. induction fuel as [|fuel IH]; intros p acc Hacc; [done|]. simpl.
  destruct (commentScanIteration text e stop p) as [q| |q ds'] eqn:Hit.
  - by intros [= <- <-].
  - by intros [= <- <-].
  - apply IH. apply Reported_app; [done|].
    by eapply commentScanIteration_Reported.
Qed.

Lemma commentScan_Reported text start e stop :
  Reported text (fst (commentScan text start e stop)).
Proof.
  pose proof (commentScan_unfold text start e stop) as Hu.
  destruct (commentScan text start e stop) as [ds r].
  eapply commentScanLoop_Reported; [|done]. constructor.
Qed.

Lemma wellPaired_empty text : wellPaired text ∅.
Proof. split; intros ?; [intros ?|]; by rewrite lookup_empty. Qed.

Lemma codeIs_functional ch c c' :
  codeIs ch c = true -> codeIs ch c' = true -> c = c'.
Proof. rewrite !codeIs_eq. congruence. Qed.

(** Closes a goal in which one code unit is two different characters. *)
Ltac clash :=
  match goal with
  | H1 : codeIs ?x ?a = true, H2 : codeIs ?x ?b = true |- _ =>
      let Hc := fresh in
      pose proof (codeIs_functional _ _ _ H1 H2) as Hc;
      vm_compute in Hc; discriminate Hc
  end.

Ltac distinct_codes := let H := fresh in intros H; vm_compute in H; discriminate H.

(** A colon is neither a slash nor an asterisk: a delimiter of another type
    never lands on the colon of a TS comment. *)
Lemma wellPaired_insert_other text m q ty :
  isColonDelimiter ty = false -> ty <> openTsCommentWithoutColons ->
  delimiterChar text q ty ->
  wellPaired text m -> wellPaired text (<[q := ty]> m).
Proof.
  intros Hty Hnot Hch [Hchars Hpairs]. split.
  - intros q' ty'. rewrite lookup_insert. case_decide as E.
    + intros [= <-]. by subst.
    + apply Hchars.
  - intros s. rewrite lookup_insert. case_decide as E; [congruence|].
    intros (p & ty' & Hop & Hc & Hp)%Hpairs. exists p, ty'.
    split; [done|]. split; [done|].
    rewrite lookup_insert_ne; [done|]. intros ->.
    destruct Hop as (_ & _ & _ & _ & Hcolon).
    destruct ty; simpl in *; try done; try clash.
    destruct Hch as [Hch _]. clash.
Qed.

Lemma wellPaired_insert_ts text m s p ty :
  tsOpening text s p -> isColonDelimiter ty = true ->
  wellPaired text m ->
  wellPaired text (<[p := ty]> (<[s := openTsCommentWithoutColons]> m)).
Proof.
  intros Hop Hty [Hchars Hpairs].
  pose proof Hop as (Hslash & _ & Hsp & _ & Hcolon).
  assert (s <> p) as Hne by lia.
  split.
  - intros q' ty'. rewrite !lookup_insert.
    case_decide as E1; [intros [= <-]; subst; by destruct ty|].
    case_decide as E2; [intros [= <-]; by subst|].
    apply Hchars.
  - intros s'. rewrite !lookup_insert.
    case_decide as E1; [intros [= ->]; done|].
    case_decide as E2.
    + intros _. subst s'. exists p, ty. rewrite lookup_insert_eq. done.
    + intros (p' & ty' & Hop' & Hc' & Hp')%Hpairs.
      destruct (decide (p' = p)) as [->|Hpp].
      * exists p, ty. by rewrite lookup_insert_eq.
      * exists p', ty'. split; [done|]. split; [done|].
        rewrite lookup_insert_ne by done.
        rewrite lookup_insert_ne; [done|]. intros ->.
        destruct Hop' as (_ & _ & _ & _ & Hcolon'). clash.
Qed.

Lemma wellPaired_insertAll text ds m :
  Reported text ds -> wellPaired text m -> wellPaired text (insertAll ds m).
Proof.
  intros Hds. revert m. induction Hds; intros m Hm; simpl.
  - done.
  - apply IHHds. by apply wellPaired_insert_ts.
  - apply IHHds. by apply wellPaired_insert_other.
  - apply IHHds. by apply wellPaired_insert_other.
Qed.

(** ** Sorting on a key *)

Section SortByKey.
Context {A : Type} (key : A -> Z).

Lemma insertByKey_Permutation x l : insertByKey key x l ≡ₚ x :: l.
Proof.
  induction l as [|y l IH]; simpl; [done|].
  destruct (key x <=? key y); [done|].
  rewrite IH. apply Permutation_swap.
Qed.

Lemma sortByKey_Permutation l : sortByKey key l ≡ₚ l.
Proof.
  induction l as [|x l IH]; simpl; [done|].
  rewrite insertByKey_Permutation. by rewrite IH.
Qed.

Lemma insertByKey_sorted x l :
  StronglySorted (keyLe key) l -> StronglySorted (keyLe key) (insertByKey key x l).
Proof.
  induction 1 as [|y l Hl IH Hy]; simpl; [by repeat constructor|].
  destruct (key x <=? key y) eqn:E.
  - apply Z.leb_le in E. constructor; [by constructor|].
    constructor; [done|].
    eapply Forall_impl; [done|]. unfold keyLe. simpl. intros; lia.
  - apply Z.leb_gt in E. constructor; [done|].
    rewrite insertByKey_Permutation. constructor; [|done].
    unfold keyLe. lia.
Qed.

Lemma sortByKey_sorted l : StronglySorted (keyLe key) (sortByKey key l).
Proof.
  induction l as [|x l IH]; simpl; [constructor|].
  by apply insertByKey_sorted.
Qed.

Lemma elem_of_sortByKey x l : x ∈ sortByKey key l <-> x ∈ l.
Proof. by rewrite sortByKey_Permutation. Qed.

End SortByKey.

(** ** The delimiters of a map in order, and their pairing *)

Lemma elem_of_sortedDelimiters m q ty :
  (q, ty) ∈ sortedDelimiters m <-> m !! q = Some ty.
Proof.
  unfold sortedDelimiters. rewrite elem_of_sortByKey.
  apply elem_of_map_to_list.
Qed.

Lemma sortedDelimiters_NoDup m : NoDup (sortedDelimiters m).*1.
Proof.
  unfold sortedDelimiters. rewrite sortByKey_Permutation.
  apply NoDup_fst_map_to_list.
Qed.

(** Between the opening of a TS comment and its colon no delimiter fits. *)
Lemma no_delimiter_before_colon text s p q ty :
  tsOpening text s p -> delimiterChar text q ty -> s < q -> q <= p ->
  q = p /\ isColonDelimiter ty = true.
Proof.
  intros (Hslash & Hast & Hsp & Hspaces & Hcolon) Hch Hsq Hqp.
  assert (forall c, c <> CharacterCodes.space ->
            codeIs (charCodeAt text q) c = true -> q = s + 1 \/ q = p) as Hpos.
  { intros c Hc Hq. destruct (decide (q = s + 1)); [by left|right].
    destruct (decide (q = p)); [done|exfalso].
    assert (codeIs (charCodeAt text q) CharacterCodes.space = true) as Hsp'
      by (apply Hspaces; lia).
    pose proof (codeIs_functional _ _ _ Hq Hsp'). done. }
  assert (codeIs (charCodeAt text (s + 2)) CharacterCodes.slash = true -> False)
    as Hnoslash.
  { intros Hq. destruct (decide (s + 2 = p)) as [E|E].
    - rewrite E in Hq. clash.
    - assert (codeIs (charCodeAt text (s + 2)) CharacterCodes.space = true) as Hsp'
        by (apply Hspaces; lia).
      clash. }
  destruct ty; simpl in Hch.
  - destruct (Hpos CharacterCodes.slash ltac:(distinct_codes) Hch) as [->| ->];
      clash.
  - destruct (Hpos CharacterCodes.slash ltac:(distinct_codes) Hch) as [->| ->];
      clash.
  - destruct (Hpos CharacterCodes.colon ltac:(distinct_codes) Hch) as [->| ->];
      [clash|done].
  - destruct (Hpos CharacterCodes.colon ltac:(distinct_codes) Hch) as [->| ->];
      [clash|done].
  - destruct Hch as [Hch Hch'].
    destruct (Hpos CharacterCodes.asterisk ltac:(distinct_codes) Hch) as [->| ->];
      [|clash].
    exfalso. apply Hnoslash. by replace (s + 2) with (s + 1 + 1) by lia.
Qed.

Lemma colonsFollow_sorted text m l :
  wellPaired text m ->
  StronglySorted (keyLe fst) l -> NoDup l.*1 ->
  (forall d, d ∈ l -> m !! fst d = Some (snd d)) ->
  (forall d k v, d ∈ l -> m !! k = Some v -> fst d < k -> (k, v) ∈ l) ->
  colonsFollow l.
Proof.
  intros [Hchars Hpairs]. induction l as [|[s ty] rest IH];
    intros Hsorted Hnodup Hin Hup; [done|].
  apply StronglySorted_cons in Hsorted as [Hhead Hsorted].
  apply NoDup_cons in Hnodup as [Hfresh Hnodup]. simpl in Hfresh.
  simpl. split.
  - intros ->.
    destruct (Hpairs s) as (p & typ & Hop & Hcol & Hp);
      [apply (Hin (s, _)); left|].
    pose proof Hop as (_ & _ & Hsp & _).
    assert ((p, typ) ∈ rest) as Hprest.
    { specialize (Hup (s, openTsCommentWithoutColons) p typ).
      simpl in Hup. apply elem_of_cons in Hup as [[=]|]; [lia|done|left|done|lia]. }
    destruct rest as [|[q tq] rest']; [by apply elem_of_nil in Hprest|].
    simpl.
    assert (s < q) as Hsq.
    { apply Forall_cons in Hhead as [Hle _]. unfold keyLe in Hle. simpl in Hle.
      assert (s <> q) by (intros ->; apply Hfresh; left). lia. }
    assert (q <= p) as Hqp.
    { apply elem_of_cons in Hprest as [[= -> ->]|Hprest]; [lia|].
      apply StronglySorted_cons in Hsorted as [Hq _].
      rewrite Forall_forall in Hq. apply (Hq (p, typ)) in Hprest. done. }
    assert (delimiterChar text q tq) as Hq.
    { apply Hchars. apply (Hin (q, tq)). right; left. }
    by destruct (no_delimiter_before_colon _ _ _ _ _ Hop Hq Hsq Hqp).
  - apply IH; [done|done|intros d Hd; apply Hin; by right|].
    intros d k v Hd Hk Hlt.
    assert ((k, v) ∈ (s, ty) :: rest) as Hkv by (eapply Hup; [by right|done|done]).
    apply elem_of_cons in Hkv as [[= -> ->]|]; [|done].
    rewrite Forall_forall in Hhead. apply Hhead in Hd. unfold keyLe in Hd.
    simpl in Hd. lia.
Qed.

Lemma colonsFollow_sortedDelimiters text m :
  wellPaired text m -> colonsFollow (sortedDelimiters m).
Proof.
  intros Hm. eapply colonsFollow_sorted; [done|..].
  - apply sortByKey_sorted.
  - apply sortedDelimiters_NoDup.
  - intros [q ty]. apply elem_of_sortedDelimiters.
  - intros d k v _ Hk _. by apply elem_of_sortedDelimiters.
Qed.

Lemma pairDelimiter_invariant st d l :
  colonsFollow (d :: l) -> pairingInvariant st (d :: l) ->
  pairingInvariant (pairDelimiter st d) l.
Proof.
  intros [Hd _] [Hres Hin]. destruct d as [q ty]. simpl in Hd, Hin.
  unfold pairDelimiter, pairingInvariant.
  destruct st as [res p inTS]. simpl in *.
  destruct inTS.
  - destruct (Hin eq_refl) as [Hopen Hcolon].
    destruct ty; simpl.
    + split; [done|]. intros _. split; [done|].
      destruct Hcolon as [Hcolon|Hcolon]; [by left|done].
    + split; [done|]. intros _. split; [done|].
      destruct Hcolon as [Hcolon|Hcolon]; [by left|done].
    + split; [done|]. intros _. split; [done|]. left. split; [done|by left].
    + split; [done|]. intros _. split; [done|]. left. split; [done|by right].
    + split; [|done]. apply Forall_app. split; [done|]. apply Forall_singleton.
      destruct Hcolon as [[? ?]|?]; [|done].
      unfold TsCommentPosition.populated. simpl. done.
  - destruct ty; simpl; (split; [done|]); try done.
    intros _. split; [done|]. right. by apply Hd.
Qed.

Lemma foldl_pairDelimiter_populated l st :
  colonsFollow l -> pairingInvariant st l ->
  Forall TsCommentPosition.populated (result (foldl pairDelimiter st l)).
Proof.
  revert st. induction l as [|d l IH]; intros st Hl Hst; simpl.
  - by destruct Hst.
  - apply IH; [by destruct Hl|]. by apply pairDelimiter_invariant.
Qed.

Lemma pairDelimiters_populated l :
  colonsFollow l -> Forall TsCommentPosition.populated (pairDelimiters l).
Proof.
  intros Hl. apply foldl_pairDelimiter_populated; [done|].
  split; [constructor|done].
Qed.

Lemma preserves_ret text {A} (a : A) : preserves text (TsCommentScanner.ret a).
Proof. by intros w. Qed.

Lemma preserves_get text : preserves text TsCommentScanner.get.
Proof. by intros w. Qed.

Lemma preserves_modify text f : preserves text (TsCommentScanner.modify f).
Proof. by intros w. Qed.

Lemma preserves_bind text {A B} (m : TsCommentScanner.M A)
    (k : A -> TsCommentScanner.M B) :
  preserves text m -> (forall a, preserves text (k a)) ->
  preserves text (TsCommentScanner.bind m k).
Proof.
  intros Hm Hk w Hw. unfold TsCommentScanner.bind.
  specialize (Hm w Hw). destruct (m w) as [[a|] w']; simpl in *; [|done].
  by apply Hk.
Qed.

Lemma preserves_scanReporting text start e stop :
  preserves text (scanReporting text start e stop).
Proof.
  intros [sc store] Hw. unfold scanReporting.
  pose proof (commentScan_Reported text start e stop) as Hr.
  destruct (commentScan text start e stop) as [ds r]. simpl in *.
  assert (Forall (wellPaired text)
            (snd (foldl onCommentDelimiter (sc, store) ds))) as H.
  { rewrite foldl_onCommentDelimiter. simpl.
    apply Forall_alter; [done|]. intros m _ Hm. by apply wellPaired_insertAll. }
  by destruct r.
Qed.

Lemma preserves_inTSComment text : preserves text inTSComment.
Proof. by intros w. Qed.

Create HintDb preserves.

#[local] Hint Resolve preserves_ret preserves_get preserves_modify
  preserves_scanReporting preserves_inTSComment : preserves.

Ltac preserves_step :=
  repeat first
    [ apply preserves_bind; [|intros ?]
    | match goal with |- preserves _ (if ?b then _ else _) => destruct b end
    | solve [auto with preserves] ].

Lemma preserves_scanThroughLeafNode text node_pos node_end :
  preserves text (scanThroughLeafNode text node_pos node_end).
Proof. unfold scanThroughLeafNode. preserves_step. Qed.

Lemma preserves_scanTo text e : preserves text (scanTo text e).
Proof. unfold scanTo. preserves_step. Qed.

Lemma preserves_scanUntilNextSignificantChar text max :
  preserves text (scanUntilNextSignificantChar text max).
Proof. unfold scanUntilNextSignificantChar. preserves_step. Qed.

Lemma preserves_scanUntilAtCharLoop text fuel charList max :
  preserves text (scanUntilAtCharLoop fuel text charList max).
Proof. induction fuel as [|fuel IH]; simpl; preserves_step. Qed.

Lemma preserves_scanUntilPastCharLoop text fuel charList max :
  preserves text (scanUntilPastCharLoop fuel text charList max).
Proof. induction fuel as [|fuel IH]; simpl; preserves_step. Qed.

Lemma preserves_scanUntilAtChar text charList max :
  preserves text (scanUntilAtChar text charList max).
Proof.
  unfold scanUntilAtChar. preserves_step. apply preserves_scanUntilAtCharLoop.
Qed.

Lemma preserves_scanUntilPastChar text charList max :
  preserves text (scanUntilPastChar text charList max).
Proof.
  unfold scanUntilPastChar. preserves_step. apply preserves_scanUntilPastCharLoop.
Qed.

Lemma method_wellPaired text {A} i (m : TsCommentScanner.M A) s :
  preserves text m ->
  Forall (wellPaired text) (Session.store s) ->
  Forall (wellPaired text) (Session.store (Session.method i m s)).
Proof.
  intros Hm Hs. unfold Session.method.
  destruct (Session.scanners s !! i) as [sc|]; [|done].
  specialize (Hm (sc, Session.store s) Hs).
  by destruct (m (sc, Session.store s)) as [r [sc' store']].
Qed.

Lemma perform_wellPaired text s c :
  Forall (wellPaired text) (Session.store s) ->
  Forall (wellPaired text) (Session.store (Session.perform text s c)).
Proof.
  intros Hs.
  assert (forall sc, Forall (wellPaired text)
            (snd (createTSCommentScanner (Some (TsCommentScanner.pos sc))
                    (Some (TsCommentScanner.state sc))
                    (TsCommentScanner._delimiterPositions sc) (Session.store s))))
    as Hclone.
  { intros sc. unfold createTSCommentScanner.
    destruct (TsCommentScanner._delimiterPositions sc); simpl; [done|].
    apply Forall_app. split; [done|]. apply Forall_singleton, wellPaired_empty. }
  destruct c; simpl.
  - apply Forall_app. split; [done|]. apply Forall_singleton, wellPaired_empty.
  - destruct (Session.scanners s !! i) as [sc|]; [|done].
    unfold clone. specialize (Hclone sc).
    by destruct (createTSCommentScanner _ _ _ _).
  - apply method_wellPaired; [apply preserves_scanThroughLeafNode|done].
  - apply method_wellPaired; [apply preserves_scanTo|done].
  - apply method_wellPaired; [apply preserves_scanUntilNextSignificantChar|done].
  - apply method_wellPaired; [apply preserves_scanUntilAtChar|done].
  - apply method_wellPaired; [apply preserves_scanUntilPastChar|done].
Qed.

Lemma session_wellPaired text calls :
  Forall (wellPaired text)
    (Session.store (foldl (Session.perform text) Session.empty calls)).
Proof.
  induction calls as [|c calls IH] using rev_ind; [constructor|].
  rewrite foldl_app. simpl. by apply perform_wellPaired.
Qed.

Lemma getBlockCommentDelimiters_wellPaired text sc store :
  Forall (wellPaired text) store ->
  wellPaired text (getBlockCommentDelimiters sc store).
Proof.
  intros Hs. unfold getBlockCommentDelimiters.
  destruct (store !! TsCommentScanner.delimiterPositions sc) as [m|] eqn:E; simpl.
  - rewrite Forall_forall in Hs. apply Hs. by eapply list_elem_of_lookup_2.
  - apply wellPaired_empty.
Qed.

(** C10.  However scanners are created, cloned and driven over a text, in
    each of their delimiter maps the opening of a TS comment comes with a
    colon delimiter at a later offset, before any closing delimiter behind
    the opening; hence every record that [getTSCommentPositions] returns has
    [open], [colonPos], [close] and [colonCount] (1 or 2) assigned. *)
Theorem positions_are_populated text calls :
  let s := foldl (Session.perform text) Session.empty calls in
  Forall
    (fun sc =>
       let m := getBlockCommentDelimiters sc (Session.store s) in
       (forall o, m !! o = Some openTsCommentWithoutColons ->
          exists p ty,
            o < p /\ isColonDelimiter ty = true /\ m !! p = Some ty
            /\ forall c, o < c -> m !! c = Some close -> p < c)
       /\ Forall TsCommentPosition.populated
            (getTSCommentPositions sc (Session.store s)))
    (Session.scanners s).
Proof.
  intros s. apply Forall_forall. intros sc _.
  pose proof (getBlockCommentDelimiters_wellPaired text sc _
                (session_wellPaired text calls)) as Hm.
  fold s in Hm. simpl. split.
  - intros o Ho. pose proof Hm as [Hchars Hpairs].
    destruct (Hpairs o Ho) as (p & ty & Hop & Hty & Hp).
    exists p, ty. pose proof Hop as (_ & _ & Hle & _).
    split; [lia|]. split; [done|]. split; [done|].
    intros c Hoc Hc. apply Hchars in Hc.
    destruct (decide (p < c)) as [|Hn]; [done|exfalso].
    by destruct (no_delimiter_before_colon text o p c close Hop Hc Hoc
                   ltac:(lia)) as [_ ?].
  - unfold getTSCommentPositions.
    by apply pairDelimiters_populated, (colonsFollow_sortedDelimiters text).
Qed.

Lemma positions_are_populated_witness :
  Forall
    (fun sc =>
       Forall TsCommentPosition.populated
         (getTSCommentPositions sc
            (Session.store
               (foldl (Session.perform (text_of "/*: number */")) Session.empty
                  [Session.Create; Session.Clone 0; Session.ScanTo 0 13]))))
    (Session.scanners
       (foldl (Session.perform (text_of "/*: number */")) Session.empty
          [Session.Create; Session.Clone 0; Session.ScanTo 0 13])).
Proof.
  eapply Forall_impl.
  - apply (positions_are_populated (text_of "/*: number */")
             [Session.Create; Session.Clone 0; Session.ScanTo 0 13]).
  - intros sc [_ H]. exact H.
Defined.

(** ** C1: the ranges of the syntax tracker *)

Lemma StronglySorted_drop {A} (R : relation A) n l :
  StronglySorted R l -> StronglySorted R (drop n l).
Proof.
  revert l. induction n as [|n IH]; intros l Hl; [by rewrite drop_0|].
  destruct l as [|x l]; [done|]. simpl. apply IH.
  by apply StronglySorted_cons in Hl as [_ ?].
Qed.

Lemma ordered_weaken lo lo' ys : lo' <= lo -> ordered lo ys -> ordered lo' ys.
Proof. destruct ys; simpl; [done|]. intros ? (? & ? & ?). repeat split; [lia|done..]. Qed.

Lemma ordered_Forall lo ys :
  ordered lo ys ->
  Forall (fun r => lo <= SyntaxRange.start r /\ SyntaxRange.start r < SyntaxRange.end_ r) ys.
Proof.
  revert lo. induction ys as [|r ys IH]; intros lo; simpl; [constructor|].
  intros (H1 & H2 & H3). constructor; [done|].
  eapply Forall_impl; [by apply IH|]. simpl. intros; lia.
Qed.

Lemma ordered_sorted lo ys :
  ordered lo ys ->
  StronglySorted
    (fun a b => SyntaxRange.start a < SyntaxRange.start b
                /\ SyntaxRange.end_ a <= SyntaxRange.start b) ys.
Proof.
  revert lo. induction ys as [|r ys IH]; intros lo; simpl; [constructor|].
  intros (H1 & H2 & H3). constructor; [by eapply IH|].
  eapply Forall_impl; [by apply ordered_Forall|]. simpl. intros; lia.
Qed.

Lemma mergeTsRanges_index fuel ts i e0 e' i' :
  TsSyntaxTracker.mergeTsRanges fuel ts i e0 = (e', i') -> (i <= i')%nat.
Proof.
  revert i e0. induction fuel as [|fuel IH]; intros i e0; simpl.
  - intros [= _ <-]. lia.
  - destruct (ts !! i) as [r|]; [|intros [= _ <-]; lia].
    destruct (e0 <? SyntaxRange.start r); [intros [= _ <-]; lia|].
    intros H%IH. lia.
Qed.

(** The inner loop ends at the end of the array at the latest: the turns
    that are left of the array are enough, and more change nothing. *)
Lemma mergeTsRanges_enough fuel fuel' ts i e0 :
  (length ts - i <= fuel)%nat -> (length ts - i <= fuel')%nat ->
  TsSyntaxTracker.mergeTsRanges fuel ts i e0
  = TsSyntaxTracker.mergeTsRanges fuel' ts i e0.
Proof.
  revert fuel' i e0. induction fuel as [|fuel IH]; intros fuel' i e0 H H'.
  - assert (ts !! i = None) as Hnone by (apply lookup_ge_None; lia).
    destruct fuel'; simpl; [done|]. by rewrite Hnone.
  - simpl. destruct (ts !! i) as [r|] eqn:Hr.
    + pose proof (lookup_lt_Some _ _ _ Hr) as Hi.
      destruct fuel' as [|fuel']; [lia|]. simpl. rewrite Hr.
      destruct (e0 <? SyntaxRange.start r); [done|].
      apply IH; lia.
    + destruct fuel'; simpl; [done|]. by rewrite Hr.
Qed.

(** The sweep ends, whatever the two arrays hold. *)
Lemma getSyntaxRangesLoop_total len ws ts fuel wi ti pos :
  (sweepMeasure len ws ts wi ti pos < fuel)%nat ->
  is_Some (TsSyntaxTracker.getSyntaxRangesLoop fuel len ws ts wi ti pos).
Proof.
  revert wi ti pos. induction fuel as [|fuel IH]; intros wi ti pos; [lia|].
  unfold sweepMeasure at 1. simpl. destruct (pos <? len) eqn:Hlt; [|done].
  apply Z.ltb_lt in Hlt.
  assert (forall wi' ti' pos',
            (length ws - wi' + (length ts - ti') < length ws - wi + (length ts - ti))%nat ->
            (3 * (length ws - wi + (length ts - ti)) < S fuel)%nat ->
            is_Some (TsSyntaxTracker.getSyntaxRangesLoop fuel len ws ts wi' ti' pos'))
    as Hpass.
  { intros wi' ti' pos' Hless Hf. apply IH. unfold sweepMeasure.
    destruct (pos' <? len); [|lia].
    destruct (bool_decide _); [lia|].
    destruct (ws !! wi') as [w|]; [destruct (SyntaxRange.start w <=? pos')|]; lia. }
  (* a JavaScript range up to [e] *)
  assert (forall e,
            e = len
            \/ SyntaxRange.start <$> ts !! ti = Some e
            \/ (exists w, ws !! wi = Some w /\ SyntaxRange.start w = e) ->
            (3 * (length ws - wi + (length ts - ti)) + 2 < S fuel)%nat ->
            is_Some (cons (SyntaxRange.mk pos e javaScript)
                       <$> TsSyntaxTracker.getSyntaxRangesLoop fuel len ws ts wi ti e))
    as Hjs.
  { intros e He Hf. apply fmap_is_Some, IH. unfold sweepMeasure.
    destruct (e <? len) eqn:Hlt'; [|lia]. apply Z.ltb_lt in Hlt'.
    case_bool_decide as Heq; [lia|].
    destruct He as [->|[?|(w & -> & <-)]]; [lia|done|].
    replace (SyntaxRange.start w <=? SyntaxRange.start w) with true by lia. lia. }
  destruct (ts !! ti) as [r|] eqn:Hti; simpl.
  - pose proof (lookup_lt_Some _ _ _ Hti) as Hlen.
    case_bool_decide as Heq.
    + intros Hf.
      destruct (TsSyntaxTracker.mergeTsRanges (length ts) ts (S ti)
                  (SyntaxRange.end_ r)) as [e' ti'] eqn:Hm.
      apply mergeTsRanges_index in Hm. apply fmap_is_Some, Hpass; lia.
    + destruct (ws !! wi) as [w|] eqn:Hwi.
      * pose proof (lookup_lt_Some _ _ _ Hwi) as Hlen'.
        destruct (SyntaxRange.start w <=? pos) eqn:Hw.
        -- intros Hf. destruct (SyntaxRange.end_ w <? SyntaxRange.start r).
           ++ apply Hpass; lia.
           ++ apply IH. unfold sweepMeasure. rewrite Hti. simpl.
              rewrite bool_decide_eq_true_2 by done.
              destruct (SyntaxRange.start r <? len); lia.
        -- intros Hf. apply Hjs; [|lia]. unfold TsSyntaxTracker.minStart. simpl.
           destruct (Z.min_spec (SyntaxRange.start r) len) as [[_ ->]|[_ ->]];
             destruct (Z.min_spec (SyntaxRange.start w) (SyntaxRange.start r))
               as [[_ Hmin]|[_ Hmin]];
             destruct (Z.min_spec (SyntaxRange.start w) len) as [[_ Hmin']|[_ Hmin']];
             rewrite ?Hmin, ?Hmin'; eauto.
      * intros Hf. apply Hjs; [|lia]. unfold TsSyntaxTracker.minStart. simpl.
        destruct (Z.min_spec (SyntaxRange.start r) len) as [[_ ->]|[_ ->]]; eauto.
  - destruct (ws !! wi) as [w|] eqn:Hwi.
    + pose proof (lookup_lt_Some _ _ _ Hwi) as Hlen'.
      destruct (SyntaxRange.start w <=? pos) eqn:Hw.
      * intros Hf. apply Hpass; lia.
      * intros Hf. apply Hjs; [|lia]. unfold TsSyntaxTracker.minStart. simpl.
        destruct (Z.min_spec (SyntaxRange.start w) len) as [[_ ->]|[_ ->]]; eauto.
    + intros Hf. apply Hjs; [|lia]. unfold TsSyntaxTracker.minStart. simpl.
      by left.
Qed.

Lemma getSyntaxRangesLoop_returns len ws ts :
  is_Some (TsSyntaxTracker.getSyntaxRangesLoop
             (TsSyntaxTracker.getSyntaxRangesFuel ws ts) len ws ts 0 0 0).
Proof.
  apply getSyntaxRangesLoop_total.
  unfold sweepMeasure, TsSyntaxTracker.getSyntaxRangesFuel.
  destruct (0 <? len); [|lia]. destruct (bool_decide _); [lia|].
  destruct (ws !! 0%nat) as [w|]; [destruct (SyntaxRange.start w <=? 0)|]; lia.
Qed.

(** More turns than the sweep needs change nothing. *)
Lemma getSyntaxRangesLoop_more_fuel len ws ts fuel fuel' wi ti pos ys :
  TsSyntaxTracker.getSyntaxRangesLoop fuel len ws ts wi ti pos = Some ys ->
  (fuel <= fuel')%nat ->
  TsSyntaxTracker.getSyntaxRangesLoop fuel' len ws ts wi ti pos = Some ys.
Proof.
  revert fuel' wi ti pos ys. induction fuel as [|fuel IH];
    intros fuel' wi ti pos ys; [done|].
  destruct fuel' as [|fuel']; [lia|]. intros H Hle. revert H. simpl.
  assert (forall r wi' ti' pos',
            cons r <$> TsSyntaxTracker.getSyntaxRangesLoop fuel len ws ts wi' ti' pos'
            = Some ys ->
            cons r <$> TsSyntaxTracker.getSyntaxRangesLoop fuel' len ws ts wi' ti' pos'
            = Some ys) as Hcons.
  { intros r wi' ti' pos'.
    destruct (TsSyntaxTracker.getSyntaxRangesLoop fuel len ws ts wi' ti' pos')
      as [ys'|] eqn:E; [|done].
    by rewrite (IH fuel' _ _ _ _ E) by lia. }
  assert (forall wi' ti' pos',
            TsSyntaxTracker.getSyntaxRangesLoop fuel len ws ts wi' ti' pos' = Some ys ->
            TsSyntaxTracker.getSyntaxRangesLoop fuel' len ws ts wi' ti' pos' = Some ys)
    as Hsame by (intros; apply IH; [done|lia]).
  destruct (pos <? len); [|done].
  destruct (bool_decide _).
  { destruct (TsSyntaxTracker.mergeTsRanges _ ts (S ti) _). apply Hcons. }
  destruct (ws !! wi) as [w|]; [|apply Hcons].
  destruct (SyntaxRange.start w <=? pos); [|apply Hcons].
  destruct (SyntaxRange.start <$> ts !! ti); [|apply Hsame].
  destruct (_ <? _); apply Hsame.
Qed.

Section Sweep.

Variables (len : Z) (ws ts : list SyntaxRange.t).
Hypothesis ts_sorted : StronglySorted (keyLe SyntaxRange.start) ts.
Hypothesis ts_ok :
  Forall (fun r => SyntaxRange.start r < SyntaxRange.end_ r <= len) ts.

Lemma mergeTsRanges_spec fuel i e0 e' i' :
  (length ts - i <= fuel)%nat -> e0 <= len ->
  TsSyntaxTracker.mergeTsRanges fuel ts i e0 = (e', i') ->
  e0 <= e' <= len
  /\ forall r, r ∈ drop i' ts -> e' < SyntaxRange.start r.
Proof.
  revert i e0. induction fuel as [|fuel IH]; intros i e0 Hf He0; simpl.
  - intros [= <- <-]. split; [lia|]. rewrite drop_ge by lia.
    intros r Hr. by apply elem_of_nil in Hr.
  - destruct (ts !! i) as [r|] eqn:Hi.
    + destruct (e0 <? SyntaxRange.start r) eqn:Hlt.
      * intros [= <- <-]. split; [lia|]. apply Z.ltb_lt in Hlt.
        rewrite (drop_S _ _ _ Hi).
        pose proof (StronglySorted_drop _ i _ ts_sorted) as Hs.
        rewrite (drop_S _ _ _ Hi) in Hs.
        apply StronglySorted_cons in Hs as [Hs _].
        intros r' [->|Hr']%elem_of_cons; [done|].
        rewrite Forall_forall in Hs. apply Hs in Hr'.
        unfold keyLe in Hr'. lia.
      * intros H. apply IH in H as [H1 H2].
        -- split; [lia|done].
        -- apply lookup_lt_Some in Hi. lia.
        -- pose proof (Forall_lookup_1 _ _ _ _ ts_ok Hi). simpl in *. lia.
    + intros [= <- <-]. split; [lia|]. apply lookup_ge_None_1 in Hi.
      rewrite drop_ge by lia. intros r Hr. by apply elem_of_nil in Hr.
Qed.

Lemma covered_cons lo r ys :
  SyntaxRange.start r = lo -> covered len ws (SyntaxRange.end_ r) ys ->
  covered len ws lo (r :: ys).
Proof.
  intros <- Hc x Hx.
  destruct (decide (x < SyntaxRange.end_ r)) as [Hlt|Hge].
  - left. exists r. split; [left|]. unfold inRange. lia.
  - destruct (Hc x) as [(r' & Hr' & Hin)|Hw]; [lia| |by right].
    left. exists r'. split; [by right|done].
Qed.

Lemma covered_skip lo lo' w ys :
  w ∈ ws -> SyntaxRange.start w <= lo -> lo' <= SyntaxRange.end_ w ->
  covered len ws lo' ys -> covered len ws lo ys.
Proof.
  intros Hw Hs He Hc x Hx.
  destruct (decide (x < lo')) as [Hlt|Hge].
  - right. exists w. split; [done|]. unfold inRange. lia.
  - apply Hc. lia.
Qed.

Lemma covered_same lo lo' ys : lo' <= lo -> covered len ws lo' ys -> covered len ws lo ys.
Proof. intros Hle Hc x Hx. apply Hc. lia. Qed.

(** The sweep ends within its fuel, and what it yields from [pos] on is
    ordered, stays inside the text and, with the whitespace ranges,
    covers the rest of the text. *)
Lemma getSyntaxRangesLoop_spec fuel wi ti pos :
  (forall r, r ∈ drop ti ts -> pos <= SyntaxRange.start r) ->
  (Z.to_nat (len - pos) + (length ws - wi) < fuel)%nat ->
  exists ys,
    TsSyntaxTracker.getSyntaxRangesLoop fuel len ws ts wi ti pos = Some ys
    /\ ordered pos ys /\ covered len ws pos ys /\ Forall (yieldedOk len) ys.
Proof.
  revert wi ti pos. induction fuel as [|fuel IH]; intros wi ti pos Hts Hf; [lia|].
  simpl. destruct (pos <? len) eqn:Hlt.
  2:{ apply Z.ltb_ge in Hlt. exists []. split; [done|]. split; [done|].
      split; [|constructor]. intros x Hx. lia. }
  apply Z.ltb_lt in Hlt.
  (* the JavaScript range up to [e] *)
  assert (forall e, pos < e <= len ->
            (forall r, r ∈ drop ti ts -> e <= SyntaxRange.start r) ->
            exists ys,
              cons (SyntaxRange.mk pos e javaScript)
                <$> TsSyntaxTracker.getSyntaxRangesLoop fuel len ws ts wi ti e
              = Some ys
              /\ ordered pos ys /\ covered len ws pos ys /\ Forall (yieldedOk len) ys) as Hjs.
  { intros e He Hts'.
    destruct (IH wi ti e Hts' ltac:(lia)) as (ys & -> & Ho & Hc & Hy).
    eexists. split; [done|]. split; [simpl; split; [lia|split; [lia|done]]|].
    split; [by apply covered_cons|]. constructor; [|done].
    split; simpl; [lia|done]. }
  (* passing the whitespace range [w] *)
  assert (forall w, ws !! wi = Some w -> SyntaxRange.start w <= pos ->
            (forall r, r ∈ drop ti ts -> SyntaxRange.end_ w <= SyntaxRange.start r) ->
            exists ys,
              TsSyntaxTracker.getSyntaxRangesLoop fuel len ws ts (S wi) ti
                (Z.max pos (SyntaxRange.end_ w)) = Some ys
              /\ ordered pos ys /\ covered len ws pos ys /\ Forall (yieldedOk len) ys) as Hskip.
  { intros w Hw Hs Hts'. pose proof (lookup_lt_Some _ _ _ Hw) as Hwi.
    destruct (IH (S wi) ti (Z.max pos (SyntaxRange.end_ w))) as (ys & -> & Ho & Hc & Hy).
    - intros r Hr. specialize (Hts r Hr). specialize (Hts' r Hr). lia.
    - lia.
    - exists ys. split; [done|]. split; [eapply ordered_weaken; [|done]; lia|].
      split; [|done].
      destruct (decide (pos <= SyntaxRange.end_ w)).
      + eapply covered_skip; [by eapply list_elem_of_lookup_2|done| |done]. lia.
      + eapply covered_same; [|done]. lia. }
  destruct (ts !! ti) as [r|] eqn:Hti; simpl.
  - pose proof (StronglySorted_drop _ ti _ ts_sorted) as Hsorted.
    rewrite (drop_S _ _ _ Hti) in Hsorted, Hts.
    apply StronglySorted_cons in Hsorted as [Hhead _].
    rewrite Forall_forall in Hhead.
    assert (forall r', r' ∈ r :: drop (S ti) ts ->
              SyntaxRange.start r <= SyntaxRange.start r') as Hmin.
    { intros r' [->|Hr']%elem_of_cons; [lia|]. by apply Hhead. }
    pose proof (Forall_lookup_1 _ _ _ _ ts_ok Hti) as Hr. simpl in Hr.
    case_bool_decide as Heq.
    + injection Heq as Heq.
      destruct (TsSyntaxTracker.mergeTsRanges (length ts) ts (S ti)
                  (SyntaxRange.end_ r)) as [e' ti'] eqn:Hm.
      apply mergeTsRanges_spec in Hm as [He' Hts']; [|lia|lia].
      destruct (IH wi ti' e') as (ys & -> & Ho & Hc & Hy).
      * intros r' Hr'. specialize (Hts' r' Hr'). lia.
      * lia.
      * eexists. split; [done|].
        split; [simpl; split; [lia|split; [lia|done]]|].
        split; [by apply covered_cons|]. constructor; [|done].
        split; simpl; [lia|done].
    + assert (pos < SyntaxRange.start r) as Hpos.
      { assert (pos <= SyntaxRange.start r) by (apply Hts; left).
        assert (SyntaxRange.start r <> pos) by congruence. lia. }
      destruct (ws !! wi) as [w|] eqn:Hwi.
      * destruct (SyntaxRange.start w <=? pos) eqn:Hw.
        -- apply Z.leb_le in Hw.
           destruct (SyntaxRange.end_ w <? SyntaxRange.start r) eqn:He.
           ++ apply Z.ltb_lt in He. apply (Hskip w); [done|done|].
              rewrite (drop_S _ _ _ Hti).
              intros r' Hr'. specialize (Hmin r' Hr'). lia.
           ++ apply Z.ltb_ge in He.
              destruct (IH wi ti (SyntaxRange.start r)) as (ys & -> & Ho & Hc & Hy).
              ** rewrite (drop_S _ _ _ Hti). apply Hmin.
              ** lia.
              ** exists ys. split; [done|].
                 split; [eapply ordered_weaken; [|done]; lia|]. split; [|done].
                 eapply covered_skip; [by eapply list_elem_of_lookup_2|done|done|done].
        -- apply Z.leb_gt in Hw. apply Hjs.
           ++ unfold TsSyntaxTracker.minStart. simpl. lia.
           ++ rewrite (drop_S _ _ _ Hti). intros r' Hr'.
              specialize (Hmin r' Hr').
              unfold TsSyntaxTracker.minStart. simpl. lia.
      * apply Hjs.
        -- unfold TsSyntaxTracker.minStart. simpl. lia.
        -- rewrite (drop_S _ _ _ Hti). intros r' Hr'.
           specialize (Hmin r' Hr').
           unfold TsSyntaxTracker.minStart. simpl. lia.
  - assert (forall e r, r ∈ drop ti ts -> e <= SyntaxRange.start r) as Hnone.
    { intros e r. apply lookup_ge_None_1 in Hti. rewrite drop_ge by lia.
      intros Hr. by apply elem_of_nil in Hr. }
    destruct (ws !! wi) as [w|] eqn:Hwi.
    + destruct (SyntaxRange.start w <=? pos) eqn:Hw.
      * apply Z.leb_le in Hw. apply (Hskip w); [done|done|]. apply Hnone.
      * apply Z.leb_gt in Hw. apply Hjs; [|apply Hnone].
        unfold TsSyntaxTracker.minStart. simpl. lia.
    + apply Hjs; [|apply Hnone].
      unfold TsSyntaxTracker.minStart. simpl. lia.
Qed.

(** The same of the whole sweep, with the turns [getSyntaxRanges] has. *)
Lemma getSyntaxRanges_swept :
  (forall r, r ∈ ts -> 0 <= SyntaxRange.start r) ->
  exists ys,
    TsSyntaxTracker.getSyntaxRangesLoop
      (TsSyntaxTracker.getSyntaxRangesFuel ws ts) len ws ts 0 0 0 = Some ys
    /\ ordered 0 ys /\ covered len ws 0 ys /\ Forall (yieldedOk len) ys.
Proof.
  intros Hts.
  destruct (getSyntaxRangesLoop_spec (S (Z.to_nat len + length ws)) 0 0 0)
    as (ys & Hloop & Hys); [by rewrite drop_0|lia|].
  exists ys. split; [|done].
  destruct (getSyntaxRangesLoop_returns len ws ts) as [ys' Hloop'].
  rewrite Hloop'. f_equal.
  pose proof (getSyntaxRangesLoop_more_fuel _ _ _ _
                (S (Z.to_nat len + length ws)
                 + TsSyntaxTracker.getSyntaxRangesFuel ws ts) _ _ _ _ Hloop
                ltac:(lia)) as H1.
  pose proof (getSyntaxRangesLoop_more_fuel _ _ _ _
                (S (Z.to_nat len + length ws)
                 + TsSyntaxTracker.getSyntaxRangesFuel ws ts) _ _ _ _ Hloop'
                ltac:(lia)) as H2.
  congruence.
Qed.

End Sweep.

Lemma declare_tsRangeOk text tracker range :
  0 <= fst range -> snd range <= text_length text ->
  Forall (tsRangeOk (text_length text)) (TsSyntaxTracker.tsSyntaxRanges tracker) ->
  Forall (tsRangeOk (text_length text))
    (TsSyntaxTracker.tsSyntaxRanges (TsSyntaxTracker.declare text tracker range)).
Proof.
  intros H0 Hlen Htr. unfold TsSyntaxTracker.declare,
    TsSyntaxTracker.skipWhitespaceThenMarkRangeAsTS.
  destruct (commentScan text range.1 range.2 true) as [ds [realStart|]] eqn:Hcs;
    simpl; [|done].
  apply commentScan_ge in Hcs.
  destruct (realStart <? range.2) eqn:Hlt; [|done].
  apply Z.ltb_lt in Hlt. apply Forall_app. split; [done|].
  apply Forall_singleton. unfold tsRangeOk. simpl. lia.
Qed.

Lemma declareAll_tsRangeOk text ranges :
  Forall (fun range => 0 <= fst range /\ snd range <= text_length text) ranges ->
  Forall (tsRangeOk (text_length text))
    (TsSyntaxTracker.tsSyntaxRanges (TsSyntaxTracker.declareAll text ranges)).
Proof.
  unfold TsSyntaxTracker.declareAll.
  induction ranges as [|range ranges IH] using rev_ind; [constructor|].
  intros [Hranges [[H0 Hlen] _]%Forall_cons]%Forall_app.
  rewrite foldl_app. simpl. apply declare_tsRangeOk; auto.
Qed.

Lemma ordered_disjoint lo ys i j r1 r2 x :
  ordered lo ys -> ys !! i = Some r1 -> ys !! j = Some r2 ->
  inRange x r1 -> inRange x r2 -> i = j.
Proof.
  intros Ho%ordered_sorted H1 H2 Hx1 Hx2.
  assert (forall i j r1 r2, (i < j)%nat -> ys !! i = Some r1 -> ys !! j = Some r2 ->
            SyntaxRange.end_ r1 <= SyntaxRange.start r2) as Hlt.
  { clear -Ho. induction Ho as [|r ys Hys IH Hr]; intros i j r1 r2 Hij; [done|].
    destruct i as [|i], j as [|j]; simpl; try lia.
    - intros [= <-] Hj. rewrite Forall_forall in Hr.
      apply list_elem_of_lookup_2, Hr in Hj. lia.
    - apply IH. lia. }
  unfold inRange in *.
  destruct (Nat.lt_trichotomy i j) as [Hij|[->|Hij]]; [|done|].
  - specialize (Hlt _ _ _ _ Hij H1 H2). lia.
  - specialize (Hlt _ _ _ _ Hij H2 H1). lia.
Qed.

(** ** C3: the single-colon comment in [skipTrivia] and [scan] *)

Lemma scanTsCommentPrefix_complete text e s p fuel q :
  tsOpening text s p -> p < e -> s + 2 <= q <= p ->
  (distance e q <= fuel)%nat ->
  scanTsCommentPrefix fuel text e q = (p, true).
Proof.
  intros (_ & _ & _ & Hspaces & Hcolon) Hpe.
  remember (Z.to_nat (p - q)) as n eqn:Hn.
  revert q fuel Hn. induction n as [|n IH]; intros q fuel Hn Hq Hf.
  - assert (q = p) as -> by lia.
    destruct fuel as [|fuel]; [unfold distance in Hf; lia|]. simpl.
    destruct (p <? e) eqn:E; [|apply Z.ltb_ge in E; lia].
    destruct (codeIs (charCodeAt text p) CharacterCodes.space) eqn:Hsp; [clash|].
    by rewrite Hcolon.
  - destruct fuel as [|fuel]; [unfold distance in Hf; lia|]. simpl.
    destruct (q <? e) eqn:E; [|apply Z.ltb_ge in E; lia].
    rewrite Hspaces by lia. apply IH; [lia|lia|unfold distance in *; lia].
Qed.

Lemma tsOpening_bounds text s p : tsOpening text s p -> 0 <= s /\ p < text_length text.
Proof.
  intros (Hslash & _ & _ & _ & Hcolon).
  apply codeIs_eq, charCodeAt_Some_lt in Hslash.
  apply codeIs_eq, charCodeAt_Some_lt in Hcolon. lia.
Qed.

Lemma colonCount_1 text p :
  codeIs (charCodeAt text (p + 1)) CharacterCodes.colon = false ->
  colonCount text p = 1.
Proof. intros H. unfold colonCount. by rewrite H. Qed.

Section CommentPaths.

Variable positionIsSynthesized : Z -> bool.
Variable text : Text.
Variables stopAfterLineBreak inJSDoc : bool.
Variable end_ : Z.
Variable skipTriviaFlag : bool.
Variable inJSDocType : Z.
Variable shouldParseJSDoc : Scanner.t -> bool.
Variable scanOther : option Z -> Scanner.t -> bool -> Scanner.Turn.

Local Abbreviation scanTurn :=
  (Scanner.scanTurn text end_ skipTriviaFlag inJSDocType shouldParseJSDoc scanOther).
Local Abbreviation scanLoop :=
  (Scanner.scanLoop text end_ skipTriviaFlag inJSDocType shouldParseJSDoc scanOther).
Local Abbreviation scan :=
  (Scanner.scan text end_ skipTriviaFlag inJSDocType shouldParseJSDoc scanOther).

(** [skipTrivia] stops on the colon of a single-colon comment. *)
Lemma skipTrivia_single_colon s p fuel :
  tsOpening text s p ->
  codeIs (charCodeAt text (p + 1)) CharacterCodes.colon = false ->
  positionIsSynthesized s = false ->
  skipTrivia positionIsSynthesized text stopAfterLineBreak false inJSDoc
    (S fuel) s = Some p.
Proof.
  intros Hop Hone Hsyn. unfold skipTrivia. rewrite Hsyn. simpl.
  pose proof Hop as (Hslash & Hast & Hsp & _ & _).
  pose proof (tsOpening_bounds _ _ _ Hop) as [H0 Hlen].
  unfold skipTriviaTurn.
  apply codeIs_eq in Hslash as Hs. rewrite Hs.
  change (codeIs (Some CharacterCodes.slash) CharacterCodes.carriageReturn) with false.
  change (codeIs (Some CharacterCodes.slash) CharacterCodes.lineFeed) with false.
  change (isCase (Some CharacterCodes.slash) _) with false.
  change (codeIs (Some CharacterCodes.slash) CharacterCodes.slash) with true.
  cbn iota.
  apply codeIs_eq in Hast as Ha. rewrite Ha.
  change (codeIs (Some CharacterCodes.asterisk) CharacterCodes.slash) with false.
  change (codeIs (Some CharacterCodes.asterisk) CharacterCodes.asterisk) with true.
  cbn iota. unfold skipTriviaBlockComment.
  rewrite (scanTsCommentPrefix_complete text _ s p) by (done || lia).
  by rewrite colonCount_1.
Qed.

(** The turn of [scan] at the opening of a single-colon comment: it goes
    on at the colon, with the flag set and no token. *)
Lemma scanTurn_single_colon sc asteriskSeen s p :
  tsOpening text s p ->
  codeIs (charCodeAt text (p + 1)) CharacterCodes.colon = false ->
  Scanner.pos sc = s -> p < end_ ->
  (s = 0 -> Scanner.appearsBinary text = false) ->
  scanTurn sc asteriskSeen
  = Scanner.Continue
      (Scanner.addFlags (Scanner.setPos p (Scanner.setTokenStart s sc))
         (TokenFlags.setEnteringTSComment true))
      asteriskSeen.
Proof.
  intros Hop Hone Hpos Hend Hbin.
  pose proof Hop as (Hslash & Hast & Hsp & _ & _).
  unfold Scanner.scanTurn. simpl. rewrite Hpos.
  destruct (end_ <=? s) eqn:E; [apply Z.leb_le in E; lia|].
  assert ((s =? 0) && Scanner.appearsBinary text = false) as ->.
  { destruct (s =? 0) eqn:E0; [|done]. apply Z.eqb_eq in E0. by rewrite Hbin. }
  apply codeIs_eq in Hslash as Hs.
  rewrite (codePointAt_of_charCodeAt _ _ CharacterCodes.slash eq_refl Hs).
  change (codeIs (Some CharacterCodes.slash) CharacterCodes.hash) with false.
  rewrite andb_false_r. cbn [andb].
  change (isCase (Some CharacterCodes.slash) lineBreakCases) with false.
  change (isCase (Some CharacterCodes.slash) whiteSpaceCases) with false.
  change (codeIs (Some CharacterCodes.slash) CharacterCodes.asterisk) with false.
  change (codeIs (Some CharacterCodes.slash) CharacterCodes.slash) with true.
  cbn iota.
  apply codeIs_eq in Hast as Ha. rewrite Ha.
  change (codeIs (Some CharacterCodes.asterisk) CharacterCodes.slash) with false.
  change (codeIs (Some CharacterCodes.asterisk) CharacterCodes.asterisk) with true.
  cbn iota. unfold Scanner.scanBlockComment. simpl.
  rewrite (scanTsCommentPrefix_complete text _ s p) by (done || lia).
  by rewrite colonCount_1.
Qed.

(** The turn of [scan] at a colon returns the colon token. *)
Lemma scanTurn_colon sc asteriskSeen p :
  codeIs (charCodeAt text p) CharacterCodes.colon = true ->
  Scanner.pos sc = p -> p < end_ -> 0 < p ->
  scanTurn sc asteriskSeen
  = Scanner.Return
      (Scanner.setToken ColonToken
         (Scanner.setPos (p + 1) (Scanner.setTokenStart p sc))).
Proof.
  intros Hcolon Hpos Hend H0.
  unfold Scanner.scanTurn. simpl. rewrite Hpos.
  destruct (end_ <=? p) eqn:E; [apply Z.leb_le in E; lia|].
  destruct (p =? 0) eqn:E0; [apply Z.eqb_eq in E0; lia|]. cbn [andb].
  apply codeIs_eq in Hcolon as Hc.
  rewrite (codePointAt_of_charCodeAt _ _ CharacterCodes.colon eq_refl Hc).
  change (isCase (Some CharacterCodes.colon) lineBreakCases) with false.
  change (isCase (Some CharacterCodes.colon) whiteSpaceCases) with false.
  change (codeIs (Some CharacterCodes.colon) CharacterCodes.asterisk) with false.
  change (codeIs (Some CharacterCodes.colon) CharacterCodes.slash) with false.
  change (codeIs (Some CharacterCodes.colon) CharacterCodes.colon) with true.
  cbn iota. unfold Scanner.produce. simpl. by rewrite Hpos.
Qed.

(** The turn of [scan] at a closing delimiter goes on behind it, with
    the flag cleared and no token. *)
Lemma scanTurn_closing sc asteriskSeen q :
  closingAt text q -> Scanner.pos sc = q -> q < end_ ->
  (q = 0 -> Scanner.appearsBinary text = false) ->
  scanTurn sc asteriskSeen
  = Scanner.Continue
      (Scanner.addFlags (Scanner.setPos (q + 2) (Scanner.setTokenStart q sc))
         (TokenFlags.setEnteringTSComment false))
      asteriskSeen.
Proof.
  intros [Hast Hslash] Hpos Hend Hbin.
  unfold Scanner.scanTurn. simpl. rewrite Hpos.
  destruct (end_ <=? q) eqn:E; [apply Z.leb_le in E; lia|].
  assert ((q =? 0) && Scanner.appearsBinary text = false) as ->.
  { destruct (q =? 0) eqn:E0; [|done]. apply Z.eqb_eq in E0. by rewrite Hbin. }
  apply codeIs_eq in Hast as Ha.
  rewrite (codePointAt_of_charCodeAt _ _ CharacterCodes.asterisk eq_refl Ha).
  change (codeIs (Some CharacterCodes.asterisk) CharacterCodes.hash) with false.
  rewrite andb_false_r. cbn [andb].
  change (isCase (Some CharacterCodes.asterisk) lineBreakCases) with false.
  change (isCase (Some CharacterCodes.asterisk) whiteSpaceCases) with false.
  change (codeIs (Some CharacterCodes.asterisk) CharacterCodes.asterisk) with true.
  cbn iota. by rewrite Hslash.
Qed.

(** At a single-colon comment, slash, asterisk, spaces and exactly one
    colon, [skipTrivia] stops on the colon, and a [scan] started at the
    comment returns the colon token, which starts at the colon and ends
    behind it, so that the next [scan] starts on what follows the colon. *)
Lemma scan_single_colon s p :
  tsOpening text s p ->
  codeIs (charCodeAt text (p + 1)) CharacterCodes.colon = false ->
  positionIsSynthesized s = false ->
  p < end_ ->
  (s = 0 -> Scanner.appearsBinary text = false) ->
  (forall fuel,
      skipTrivia positionIsSynthesized text stopAfterLineBreak false inJSDoc
        (S fuel) s = Some p)
  /\ (forall fuel sc,
        Scanner.pos sc = s ->
        exists sc',
          scan (S (S fuel)) sc = Some sc'
          /\ Scanner.token sc' = ColonToken
          /\ Scanner.tokenStart sc' = p
          /\ Scanner.pos sc' = p + 1
          /\ Scanner.fullStartPos sc' = s).
Proof.
  intros Hop Hone Hsyn Hend Hbin.
  split; [intros fuel; by apply skipTrivia_single_colon|].
  intros fuel sc Hpos. unfold Scanner.scan.
  cbn [Scanner.scanLoop].
  rewrite (scanTurn_single_colon _ _ s p) by done.
  pose proof Hop as (_ & _ & Hsp & _ & Hcolon).
  pose proof (tsOpening_bounds _ _ _ Hop) as [H0 _].
  rewrite (scanTurn_colon _ _ p) by (done || lia).
  eexists. split; [done|]. by rewrite Hpos.
Qed.

(** In [scan] an asterisk is looked at together with the character behind
    it before anything else: an asterisk that stands before the asterisk of
    a closing delimiter is returned with it as one token, which ends on the
    slash of the delimiter. *)
Lemma scanTurn_asterisk_before_closing sc asteriskSeen q :
  codeIs (charCodeAt text (q - 1)) CharacterCodes.asterisk = true ->
  closingAt text q -> Scanner.pos sc = q - 1 -> 1 < q -> q - 1 < end_ ->
  scanTurn sc asteriskSeen
  = Scanner.Return
      (Scanner.setToken AsteriskAsteriskToken
         (Scanner.setPos (q + 1) (Scanner.setTokenStart (q - 1) sc))).
Proof.
  intros Hbody [Hast Hslash] Hpos H1 Hend.
  unfold Scanner.scanTurn. simpl. rewrite Hpos.
  destruct (end_ <=? q - 1) eqn:E; [apply Z.leb_le in E; lia|].
  destruct (q - 1 =? 0) eqn:E0; [apply Z.eqb_eq in E0; lia|]. cbn [andb].
  apply codeIs_eq in Hbody as Hb.
  rewrite (codePointAt_of_charCodeAt _ _ CharacterCodes.asterisk eq_refl Hb).
  change (isCase (Some CharacterCodes.asterisk) lineBreakCases) with false.
  change (isCase (Some CharacterCodes.asterisk) whiteSpaceCases) with false.
  change (codeIs (Some CharacterCodes.asterisk) CharacterCodes.asterisk) with true.
  cbn iota.
  replace (q - 1 + 1) with q by lia. replace (q - 1 + 2) with (q + 1) by lia.
  apply codeIs_eq in Hast as Ha. apply codeIs_eq in Hslash as Hs.
  rewrite Ha, Hs.
  change (codeIs (Some CharacterCodes.asterisk) CharacterCodes.slash) with false.
  change (codeIs (Some CharacterCodes.asterisk) CharacterCodes.equals) with false.
  change (codeIs (Some CharacterCodes.asterisk) CharacterCodes.asterisk) with true.
  change (codeIs (Some CharacterCodes.slash) CharacterCodes.equals) with false.
  cbn iota. unfold Scanner.produce. simpl. rewrite Hpos.
  by replace (q - 1 + 2) with (q + 1) by lia.
Qed.

End CommentPaths.

(** C3 fails on the code, by the defect of C2.  The opening of a
    single-colon comment is read as the claim says: on [x /*: T **/]
    [skipTrivia] stops on the colon at 4, and [scan] returns the colon token
    there.  But [scan] looks at an asterisk together with the character
    behind it, so where the body ends in an asterisk the closing delimiter
    is not passed in silence: on [/*: **/] the tokens are the colon, one
    token for the asterisk of the body and the asterisk of the delimiter,
    and a token for the slash, while the body alone gives one asterisk
    token; and behind the [T] of [x /*: T **/] the same two tokens follow.
    This holds whatever the rest of the tokenizer does.  [commentScan]
    reports the closing delimiter of [/*: **/] at 5. *)
Theorem closing_delimiter_of_colon_comment shouldParseJSDoc scanOther kind :
  skipTrivia (fun p => p <? 0) (text_of "x /*: T **/") false false false 1 2
  = Some 4
  /\ (Scanner.token <$> Scanner.scan (text_of "x /*: T **/") 11 true 0
                          shouldParseJSDoc scanOther 2
                          (Scanner.mk 2 0 0 Unknown TokenFlags.None_))
     = Some ColonToken
  /\ Scanner.scanAll (text_of "x /*: T **/") 11 true 0 shouldParseJSDoc
       scanOther 3 4 (Scanner.mk 7 5 6 kind TokenFlags.None_)
     = Some [AsteriskAsteriskToken; SlashToken]
  /\ Scanner.scanAll (text_of "/*: **/") 7 true 0 shouldParseJSDoc scanOther 4 4
       Scanner.initial
     = Some [ColonToken; AsteriskAsteriskToken; SlashToken]
  /\ Scanner.scanAll (text_of " *") 2 true 0 shouldParseJSDoc scanOther 2 4
       Scanner.initial
     = Some [AsteriskToken]
  /\ fst (commentScan (text_of "/*: **/") 0 7 false)
     = [(0, openTsCommentWithoutColons); (2, singleColonForOpenTsComment);
        (5, close)].
Proof. repeat split; vm_compute; reflexivity. Qed.

(** ** C2: the double-colon comment in [scan] *)

Section DoubleColon.

Variable text : Text.
Variable end_ : Z.
Variable skipTriviaFlag : bool.
Variable inJSDocType : Z.
Variable shouldParseJSDoc : Scanner.t -> bool.
Variable scanOther : option Z -> Scanner.t -> bool -> Scanner.Turn.

(** The turn of [scan] at the opening of a double-colon comment goes on
    behind the two colons, with the flag set and no token. *)
Lemma scanTurn_double_colon sc asteriskSeen s p :
  tsOpening text s p ->
  codeIs (charCodeAt text (p + 1)) CharacterCodes.colon = true ->
  codeIs (charCodeAt text (p + 2)) CharacterCodes.colon = false ->
  Scanner.pos sc = s -> p < end_ ->
  (s = 0 -> Scanner.appearsBinary text = false) ->
  Scanner.scanTurn text end_ skipTriviaFlag inJSDocType shouldParseJSDoc
    scanOther sc asteriskSeen
  = Scanner.Continue
      (Scanner.addFlags (Scanner.setPos (p + 2) (Scanner.setTokenStart s sc))
         (TokenFlags.setEnteringTSComment true))
      asteriskSeen.
Proof.
  intros Hop Hone Htwo Hpos Hend Hbin.
  pose proof Hop as (Hslash & Hast & Hsp & _ & _).
  unfold Scanner.scanTurn. simpl. rewrite Hpos.
  destruct (end_ <=? s) eqn:E; [apply Z.leb_le in E; lia|].
  assert ((s =? 0) && Scanner.appearsBinary text = false) as ->.
  { destruct (s =? 0) eqn:E0; [|done]. apply Z.eqb_eq in E0. by rewrite Hbin. }
  apply codeIs_eq in Hslash as Hs.
  rewrite (codePointAt_of_charCodeAt _ _ CharacterCodes.slash eq_refl Hs).
  change (codeIs (Some CharacterCodes.slash) CharacterCodes.hash) with false.
  rewrite andb_false_r. cbn [andb].
  change (isCase (Some CharacterCodes.slash) lineBreakCases) with false.
  change (isCase (Some CharacterCodes.slash) whiteSpaceCases) with false.
  change (codeIs (Some CharacterCodes.slash) CharacterCodes.asterisk) with false.
  change (codeIs (Some CharacterCodes.slash) CharacterCodes.slash) with true.
  cbn iota.
  apply codeIs_eq in Hast as Ha. rewrite Ha.
  change (codeIs (Some CharacterCodes.asterisk) CharacterCodes.slash) with false.
  change (codeIs (Some CharacterCodes.asterisk) CharacterCodes.asterisk) with true.
  cbn iota. unfold Scanner.scanBlockComment. simpl.
  rewrite (scanTsCommentPrefix_complete text _ s p) by (done || lia).
  unfold colonCount. by rewrite Hone, Htwo.
Qed.

End DoubleColon.

(** C2 fails on the code.  In [scan] an asterisk is looked at together with
    the character behind it, so in the comment [/*:: **/] the asterisk of
    the body and the asterisk of the closing delimiter are returned as one
    token, followed by a token for the slash; the body alone gives one
    asterisk token.  This holds whatever the rest of the tokenizer does.
    [commentScan] reports the closing delimiter of the same text at 6. *)
Theorem closing_delimiter_behind_asterisk shouldParseJSDoc scanOther :
  Scanner.scanAll (text_of "/*:: **/") 8 true 0 shouldParseJSDoc scanOther 3 4
    Scanner.initial
  = Some [AsteriskAsteriskToken; SlashToken]
  /\ Scanner.scanAll (text_of " *") 2 true 0 shouldParseJSDoc scanOther 2 4
       Scanner.initial
     = Some [AsteriskToken]
  /\ fst (commentScan (text_of "/*:: **/") 0 8 false)
     = [(0, openTsCommentWithoutColons); (2, doubleColonForOpenTsComment);
        (6, close)].
Proof. repeat split; vm_compute; reflexivity. Qed.

(** * Further properties of the code *)

(** ** [commentScan]: how far it goes and what it reports *)

Lemma scanLineComment_le fuel text e p :
  scanLineComment fuel text e p <= Z.max p e.
Proof.
  revert p. induction fuel as [|fuel IH]; intros p; simpl; [lia|].
  destruct (p <? e) eqn:E; [|lia]. apply Z.ltb_lt in E.
  destruct (isLineBreakAt text p); [lia|].
  specialize (IH (p + 1)). lia.
Qed.

Lemma scanTsCommentPrefix_le fuel text e p q b :
  scanTsCommentPrefix fuel text e p = (q, b) -> q <= Z.max p e.
Proof.
  revert p. induction fuel as [|fuel IH]; intros p; simpl.
  - intros [= <- <-]. lia.
  - destruct (p <? e) eqn:E; [|intros [= <- <-]; lia]. apply Z.ltb_lt in E.
    destruct (codeIs (charCodeAt text p) CharacterCodes.space).
    + intros H%IH. lia.
    + destruct (codeIs (charCodeAt text p) CharacterCodes.colon);
        intros [= <- <-]; lia.
Qed.

Lemma scanBlockCommentBody_le fuel text e p q ds :
  scanBlockCommentBody fuel text e p = (q, ds) ->
  (q <= Z.max p e /\ ds = [])
  \/ (exists c, ds = [(c, close)] /\ p <= c < e /\ closingAt text c /\ q = c + 2).
Proof.
  revert p. induction fuel as [|fuel IH]; intros p; simpl.
  - intros [= <- <-]. left. split; [lia|done].
  - destruct (p <? e) eqn:E; [|intros [= <- <-]; left; split; [lia|done]].
    apply Z.ltb_lt in E.
    destruct (codeIs (charCodeAt text p) CharacterCodes.asterisk
              && codeIs (charCodeAt text (p + 1)) CharacterCodes.slash) eqn:Hc.
    + intros [= <- <-]. right. exists p. apply andb_true_iff in Hc.
      split; [done|]. split; [lia|]. split; [done|done].
    + intros [[H1 ->]|(c & -> & Hc1 & Hc2 & ->)]%IH; [left; split; [lia|done]|].
      right. exists c. split; [done|]. split; [lia|]. split; [done|done].
Qed.

Lemma codeIs_lt_length text p c :
  codeIs (charCodeAt text p) c = true -> p < text_length text.
Proof. intros H%codeIs_eq%charCodeAt_Some_lt. lia. Qed.

Lemma codePointAt_Some_lt text p c :
  codePointAt text p = Some c -> 0 <= p < text_length text.
Proof.
  unfold codePointAt. destruct (charCodeAt text p) as [first|] eqn:E; [|done].
  intros _. by eapply charCodeAt_Some_lt.
Qed.

Lemma isCase_lt_length text p labels :
  isCase (codePointAt text p) labels = true -> p < text_length text.
Proof.
  unfold isCase. destruct (codePointAt text p) as [c|] eqn:E; [|done].
  intros _. apply codePointAt_Some_lt in E. lia.
Qed.

Lemma colonCount_length text p :
  codeIs (charCodeAt text p) CharacterCodes.colon = true ->
  p + colonCount text p <= text_length text.
Proof.
  intros Hp. unfold colonCount.
  destruct (codeIs (charCodeAt text (p + 1)) CharacterCodes.colon) eqn:H1; simpl.
  - destruct (codeIs (charCodeAt text (p + 2)) CharacterCodes.colon) eqn:H2; simpl.
    + apply codeIs_lt_length in H2. lia.
    + apply codeIs_lt_length in H1. lia.
  - apply codeIs_lt_length in Hp. lia.
Qed.

(** What one turn of the block-comment case does: where it ends and what
    it reports, in order. *)
Lemma commentScanBlockComment_bounds text e p :
  p < e ->
  codeIs (charCodeAt text (p + 1)) CharacterCodes.asterisk = true ->
  match commentScanBlockComment text e p with
  | Continues p' ds =>
      p' <= e + 2 /\ p' <= Z.max e (text_length text)
      /\ inOrderWithin p p' ds /\ Forall (colonsOf text) ds
  | _ => False
  end.
Proof.
  intros Hpe Hast. unfold commentScanBlockComment.
  pose proof (codeIs_lt_length _ _ _ Hast) as Hlen.
  destruct (scanTsCommentPrefix _ text e (p + 2)) as [q b] eqn:Hpre.
  pose proof (scanTsCommentPrefix_le _ _ _ _ _ _ Hpre) as Hq.
  apply scanTsCommentPrefix_spec in Hpre as (Hq' & _ & Hcol).
  assert (forall q0, p + 2 <= q0 -> q0 <= e + 2 ->
            q0 <= Z.max e (text_length text) ->
            match scanBlockCommentBody (distance e q0) text e q0 with
            | (p', closing) =>
                p' <= e + 2 /\ p' <= Z.max e (text_length text)
                /\ inOrderWithin p p' ((p, openNonTsComment) :: closing)
                /\ Forall (colonsOf text) ((p, openNonTsComment) :: closing)
            end) as Hbody.
  { intros q0 H1 H2 H3.
    destruct (scanBlockCommentBody _ text e q0) as [p' closing] eqn:Hb.
    pose proof (scanBlockCommentBody_spec _ _ _ _ _ _ Hb) as [Hge _].
    apply scanBlockCommentBody_le in Hb
      as [[Hle ->]|(c & -> & Hc & [_ Hsl] & ->)].
    - split; [lia|]. split; [lia|]. split; [|by repeat constructor].
      split; [repeat constructor|]. repeat constructor; simpl; lia.
    - apply codeIs_lt_length in Hsl.
      split; [lia|]. split; [lia|]. split; [|by repeat constructor].
      split.
      + apply StronglySorted_cons. split; [|repeat constructor].
        repeat constructor. simpl. lia.
      + repeat constructor; simpl; lia. }
  destruct b; simpl.
  - destruct (Hcol eq_refl) as [Hc Hqe].
    pose proof (colonCount_length _ _ Hc) as Hcl.
    destruct (colonCount_cases text q) as [E | [E | E]]; rewrite E in *; simpl.
    + split; [lia|]. split; [lia|]. split.
      * split; [|repeat constructor; simpl; lia].
        apply StronglySorted_cons. split; [|repeat constructor].
        repeat constructor. simpl. lia.
      * repeat constructor; simpl. done.
    + split; [lia|]. split; [lia|]. split.
      * split; [|repeat constructor; simpl; lia].
        apply StronglySorted_cons. split; [|repeat constructor].
        repeat constructor. simpl. lia.
      * repeat constructor; simpl. done.
    + specialize (Hbody (q + 3) ltac:(lia) ltac:(lia) ltac:(lia)).
      by destruct (scanBlockCommentBody _ text e (q + 3)).
  - specialize (Hbody q ltac:(lia) ltac:(lia) ltac:(lia)).
    by destruct (scanBlockCommentBody _ text e q).
Qed.

Lemma commentScanIteration_bounds text e stop p p' ds :
  commentScanIteration text e stop p = Continues p' ds ->
  p' <= e + 2 /\ p' <= Z.max e (text_length text)
  /\ inOrderWithin p p' ds /\ Forall (colonsOf text) ds.
Proof.
  assert (inOrderWithin p p' [] /\ Forall (colonsOf text) []) as Hnil
    by (split; [split|]; constructor).
  unfold commentScanIteration.
  destruct (e <=? p) eqn:Hend; [done|]. apply Z.leb_gt in Hend.
  destruct ((p =? 0) && _ && isShebangTrivia text).
  { destruct (scanShebangTrivia text p <? e) eqn:E; [|done].
    apply Z.ltb_lt in E. intros [= <- <-]. split; [lia|]. split; [lia|done]. }
  destruct (isCase _ lineBreakCases) eqn:Hlb.
  { apply isCase_lt_length in Hlb. intros [= <- <-].
    split; [lia|]. split; [lia|done]. }
  destruct (isCase _ whiteSpaceCases) eqn:Hws.
  { apply isCase_lt_length in Hws. intros [= <- <-].
    split; [lia|]. split; [lia|done]. }
  destruct (codeIs (codePointAt text p) CharacterCodes.asterisk) eqn:Hast.
  { apply codePointAt_small in Hast; [|done].
    pose proof (codeIs_lt_length _ _ _ Hast).
    destruct (codeIs (charCodeAt text (p + 1)) CharacterCodes.slash) eqn:Hsl;
      intros [= <- <-].
    - apply codeIs_lt_length in Hsl. split; [lia|]. split; [lia|].
      split; [split; repeat constructor; simpl; lia|by repeat constructor].
    - split; [lia|]. split; [lia|done]. }
  destruct (codeIs (codePointAt text p) CharacterCodes.slash) eqn:Hsl.
  { apply codePointAt_small in Hsl; [|done].
    pose proof (codeIs_lt_length _ _ _ Hsl).
    destruct (codeIs (charCodeAt text (p + 1)) CharacterCodes.slash) eqn:Hsl2.
    { intros [= <- <-]. apply codeIs_lt_length in Hsl2.
      pose proof (scanLineComment_le (distance e (p + 2)) text e (p + 2)).
      split; [lia|]. split; [lia|done]. }
    destruct (codeIs (charCodeAt text (p + 1)) CharacterCodes.asterisk) eqn:Ha.
    { intros H'. pose proof (commentScanBlockComment_bounds text e p Hend Ha) as Hb.
      by rewrite H' in Hb. }
    intros [= <- <-]. split; [lia|]. split; [lia|done]. }
  simpl. destruct stop; [done|]. intros [= <- <-].
  split; [lia|]. split; [lia|done].
Qed.

Lemma inOrderWithin_app lo mid hi ds1 ds2 :
  inOrderWithin lo mid ds1 -> inOrderWithin mid hi ds2 -> mid <= hi -> lo <= mid ->
  inOrderWithin lo hi (ds1 ++ ds2).
Proof.
  intros [Hs1 Hb1] [Hs2 Hb2] Hle Hle'. split.
  - apply StronglySorted_app. split; [|done].
    intros d1 d2 H1 H2. rewrite Forall_forall in Hb1, Hb2.
    apply Hb1 in H1. apply Hb2 in H2. lia.
  - apply Forall_app. split; (eapply Forall_impl; [done|]); simpl; intros; lia.
Qed.

Lemma commentScanLoop_bounds fuel text e stop start p acc ds r :
  start <= p -> inOrderWithin start p acc -> Forall (colonsOf text) acc ->
  (start < p -> p <= e + 2 /\ p <= Z.max e (text_length text)) ->
  commentScanLoop fuel text e stop p acc = Some (ds, r) ->
  Forall (colonsOf text) ds
  /\ StronglySorted (fun a b => fst a < fst b) ds
  /\ Forall (fun d => start <= fst d) ds
  /\ match r with
     | Normal q =>
         Forall (fun d => fst d < q) ds
         /\ q <= Z.max start (e + 2)
         /\ q <= Z.max start (Z.max e (text_length text))
     | Throw => True
     end.
Proof.
  revert p acc. induction fuel as [|fuel IH]; intros p acc Hsp Hacc Hcol Hp; [done|].
  simpl. destruct (commentScanIteration text e stop p) as [q| |p' ds'] eqn:Hit.
  - intros [= <- <-]. apply commentScanIteration_Returns in Hit as [-> _].
    destruct Hacc as [Hs Hb]. split; [done|]. split; [done|].
    split; [eapply Forall_impl; [exact Hb|]; simpl; intros; lia|].
    split; [eapply Forall_impl; [exact Hb|]; simpl; intros; lia|].
    destruct (decide (start < p)) as [Hlt|]; [destruct (Hp Hlt)|]; lia.
  - intros [= <- <-]. destruct Hacc as [Hs Hb]. split; [done|]. split; [done|].
    split; [eapply Forall_impl; [exact Hb|]; simpl; intros; lia|done].
  - pose proof (commentScanIteration_progress _ _ _ _ _ _ Hit) as [Hlt _].
    apply commentScanIteration_bounds in Hit as (H1 & H2 & H3 & H4).
    apply IH; [lia| |by apply Forall_app|done].
    eapply inOrderWithin_app; [done|done|lia|lia].
Qed.

(** X1.  [commentScan] may stop behind [end], when a delimiter straddles
    it, but by no more than two characters, and never behind the text when
    [end] is inside the text. *)
Theorem commentScan_overshoot text start e stop :
  start <= e ->
  match snd (commentScan text start e stop) with
  | Normal q =>
      start <= q <= e + 2 /\ (e <= text_length text -> q <= text_length text)
  | Throw => True
  end.
Proof.
  intros Hse. pose proof (commentScan_unfold text start e stop) as Hu.
  destruct (commentScan text start e stop) as [ds [q|]] eqn:Hcs; simpl; [|done].
  pose proof (commentScan_ge _ _ _ _ _ _ Hcs).
  apply (commentScanLoop_bounds _ _ _ _ start) in Hu as (_ & _ & _ & _ & H1 & H2);
    [lia|lia|split; constructor|constructor|lia].
Qed.

Lemma commentScan_overshoot_witness :
  0 <= 3
  /\ match snd (commentScan (text_of "/*::: x */") 0 3 false) with
     | Normal q => 0 <= q <= 3 + 2 /\ (3 <= 10 -> q <= 10)
     | Throw => True
     end.
Proof.
  split; [lia|]. apply (commentScan_overshoot (text_of "/*::: x */") 0 3 false). lia.
Defined.

(** The bound is reached: three colons found right before [end] are passed
    as a whole. *)
Example commentScan_overshoots_by_two :
  snd (commentScan (text_of "/*::: x */") 0 3 false) = Normal 5.
Proof. vm_compute. reflexivity. Qed.

(** X2.  [commentScan] calls [onCommentDelimiter] in document order: the
    positions it reports increase strictly, none lies before [start], and
    all lie before the position it returns. *)
Theorem commentScan_reports_in_order text start e stop :
  StronglySorted (fun a b => fst a < fst b) (fst (commentScan text start e stop))
  /\ Forall (fun d => start <= fst d) (fst (commentScan text start e stop))
  /\ match snd (commentScan text start e stop) with
     | Normal q => Forall (fun d => fst d < q) (fst (commentScan text start e stop))
     | Throw => True
     end.
Proof.
  pose proof (commentScan_unfold text start e stop) as Hu.
  destruct (commentScan text start e stop) as [ds r]. simpl.
  apply (commentScanLoop_bounds _ _ _ _ start) in Hu as (_ & H1 & H2 & H3);
    [|lia|split; constructor|constructor|lia].
  split; [done|]. split; [done|]. destruct r; [|done]. by destruct H3.
Qed.

(** X3.  The colon delimiter that [commentScan] reports tells the number of
    colons: a single-colon delimiter sits on a colon followed by no colon, a
    double-colon delimiter on two colons followed by no third.  Three colons
    or more are never reported as a TS comment. *)
Theorem commentScan_colon_counts text start e stop :
  Forall
    (fun d =>
       (snd d = singleColonForOpenTsComment ->
        codeIs (charCodeAt text (fst d + 1)) CharacterCodes.colon = false)
       /\ (snd d = doubleColonForOpenTsComment ->
           codeIs (charCodeAt text (fst d + 1)) CharacterCodes.colon = true
           /\ codeIs (charCodeAt text (fst d + 2)) CharacterCodes.colon = false))
    (fst (commentScan text start e stop)).
Proof.
  pose proof (commentScan_unfold text start e stop) as Hu.
  destruct (commentScan text start e stop) as [ds r]. simpl.
  apply (commentScanLoop_bounds _ _ _ _ start) in Hu as (H & _);
    [|lia|split; constructor|constructor|lia].
  eapply Forall_impl; [exact H|]. intros [q ty]. unfold colonsOf, colonCount. simpl.
  destruct (codeIs (charCodeAt text (q + 1)) CharacterCodes.colon);
    destruct (codeIs (charCodeAt text (q + 2)) CharacterCodes.colon);
    destruct ty; simpl; intros Hc; split; intros Hty; try done; try lia.
Qed.

Lemma commentScanLoop_significant fuel text e p acc ds q :
  commentScanLoop fuel text e true p acc = Some (ds, Normal q) ->
  q < e -> significantAt text q.
Proof.
  revert p acc. induction fuel as [|fuel IH]; intros p acc; [done|]. simpl.
  destruct (commentScanIteration text e true p) as [q'| |p' ds'] eqn:Hit;
    [|done|by apply IH].
  intros [= <- <-] Hlt.
  pose proof (commentScanIteration_Returns _ _ _ _ _ Hit) as [-> _].
  revert Hit. unfold commentScanIteration, significantAt.
  destruct (e <=? p) eqn:Hend; [apply Z.leb_le in Hend; lia|].
  destruct ((p =? 0) && _ && isShebangTrivia text).
  { by destruct (scanShebangTrivia text p <? e). }
  destruct (isCase _ lineBreakCases) eqn:H1; [done|].
  destruct (isCase _ whiteSpaceCases) eqn:H2; [done|].
  destruct (codeIs (codePointAt text p) CharacterCodes.asterisk) eqn:H3.
  { by destruct (codeIs (charCodeAt text (p + 1)) CharacterCodes.slash). }
  destruct (codeIs (codePointAt text p) CharacterCodes.slash) eqn:H4; [|done].
  destruct (codeIs (charCodeAt text (p + 1)) CharacterCodes.slash); [done|].
  destruct (codeIs (charCodeAt text (p + 1)) CharacterCodes.asterisk); [|done].
  intros H. pose proof (commentScanBlockComment_progress text e p) as Hp.
  by rewrite H in Hp.
Qed.

(** X4.  Asked to stop on significant text, [commentScan] stops before
    [end] only at an offset that none of the cases of its switch passes:
    the code point there, if the offset holds one, is none of line feed and
    carriage return, none of the white space characters that the switch
    lists, no asterisk and no slash.  So a slash or an asterisk that
    belongs to no comment delimiter is passed like white space.  The
    switch lists neither U+2028 and U+2029 nor U+0085: on these the scan
    stops, as it does at an offset outside the text. *)
Theorem commentScan_stops_on_significant text start e :
  match snd (commentScan text start e true) with
  | Normal q => q < e -> significantAt text q
  | Throw => True
  end.
Proof.
  pose proof (commentScan_unfold text start e true) as Hu.
  destruct (commentScan text start e true) as [ds [q|]]; simpl; [|done].
  by eapply commentScanLoop_significant.
Qed.

(** A division sign is no significant text for [commentScan]. *)
Example commentScan_passes_lone_slash :
  snd (commentScan (text_of "/ 2") 0 3 true) = Normal 2.
Proof. vm_compute. reflexivity. Qed.

(** The line separator, the paragraph separator and the next-line
    character are significant text for [commentScan], and so is an offset
    behind the text. *)
Example commentScan_stops_on_separators :
  snd (commentScan (text_of " " ++ [0x2028] ++ text_of "a") 0 3 true) = Normal 1
  /\ snd (commentScan (text_of " " ++ [0x2029] ++ text_of "a") 0 3 true) = Normal 1
  /\ snd (commentScan (text_of " " ++ [0x85] ++ text_of "a") 0 3 true) = Normal 1
  /\ snd (commentScan (text_of "  ") 0 5 true) = Normal 2.
Proof. vm_compute. repeat split; reflexivity. Qed.

(** ** The cursor: positions never go back *)

Lemma scanReporting_pos text start e stop w :
  TsCommentScanner.pos (fst (snd (scanReporting text start e stop w)))
  = TsCommentScanner.pos (fst w).
Proof.
  unfold scanReporting. destruct (commentScan text start e stop) as [ds [q|]];
    simpl; apply foldl_onCommentDelimiter_pos.
Qed.

Lemma scanThroughLeafNode_advances text node_pos node_end w :
  TsCommentScanner.pos (fst w)
  <= TsCommentScanner.pos (fst (snd (scanThroughLeafNode text node_pos node_end w))).
Proof.
  unfold scanThroughLeafNode, TsCommentScanner.bind, TsCommentScanner.get,
    TsCommentScanner.modify, TsCommentScanner.ret, inTSComment. simpl.
  destruct (node_end <? _) eqn:E; [simpl; lia|]. apply Z.ltb_ge in E.
  pose proof (scanReporting_pos text (TsCommentScanner.pos (fst w)) node_pos false w)
    as H1.
  destruct (scanReporting text _ node_pos false w) as [[r1|] w1]; simpl in *; [|lia].
  pose proof (scanReporting_pos text node_pos node_end true w1) as H2.
  destruct (scanReporting text node_pos node_end true w1) as [[r2|] w2];
    simpl in *; lia.
Qed.

Lemma scanTo_advances text e w :
  TsCommentScanner.pos (fst w)
  <= TsCommentScanner.pos (fst (snd (scanTo text e w))).
Proof.
  unfold scanTo, TsCommentScanner.bind, TsCommentScanner.get,
    TsCommentScanner.modify, TsCommentScanner.ret, inTSComment. simpl.
  destruct (e <? _) eqn:E; [simpl; lia|]. apply Z.ltb_ge in E.
  pose proof (scanReporting_pos text (TsCommentScanner.pos (fst w)) e true w) as H1.
  destruct (scanReporting text _ e true w) as [[r1|] w1]; simpl in *; [|lia].
  pose proof (scanReporting_pos text (fst r1) e false w1) as H2.
  destruct (scanReporting text (fst r1) e false w1) as [[r2|] w2];
    simpl in *; lia.
Qed.

(** What the loop of [scanUntilAtChar] does with the position: it ends on
    the first listed character, or at [max] (or where it was, behind
    [max]); a scan that throws leaves it between. *)
Lemma scanUntilAtCharLoop_spec fuel text charList max w :
  (distance max (TsCommentScanner.pos (fst w)) <= fuel)%nat ->
  let lo := TsCommentScanner.pos (fst w) in
  let r := scanUntilAtCharLoop fuel text charList max w in
  let hi := TsCommentScanner.pos (fst (snd r)) in
  lo <= hi /\ noCharIn charList text lo hi
  /\ (fst r = Normal tt ->
      firstCharAt charList text lo max hi
      \/ (noCharIn charList text lo max /\ hi = Z.max lo max)).
Proof.
  revert w. induction fuel as [|fuel IH]; intros w Hf; simpl.
  - unfold distance in Hf. split; [lia|]. split; [intros j; lia|].
    intros _. right. split; [intros j; lia|lia].
  - unfold TsCommentScanner.bind, TsCommentScanner.get, TsCommentScanner.modify,
      TsCommentScanner.ret. simpl.
    destruct (TsCommentScanner.pos (fst w) <? max) eqn:E.
    2:{ apply Z.ltb_ge in E. simpl. split; [lia|]. split; [intros j; lia|].
        intros _. right. split; [intros j; lia|lia]. }
    apply Z.ltb_lt in E.
    pose proof (scanReporting_pos text (TsCommentScanner.pos (fst w)) max true w)
      as H1.
    destruct (scanReporting text _ max true w) as [[r1|] w1]; simpl in *.
    2:{ split; [lia|]. split; [intros j; lia|done]. }
    destruct (includesCharAt charList text (TsCommentScanner.pos (fst w))) eqn:Hin;
      simpl.
    + rewrite H1. split; [lia|]. split; [intros j; lia|]. intros _. left.
      split; [lia|]. split; [done|]. intros j; lia.
    + specialize (IH (TsCommentScanner.setPos (TsCommentScanner.pos (fst w) + 1)
                        (fst w1), snd w1)).
      simpl in IH. destruct IH as (IH1 & IH2 & IH3); [unfold distance in *; lia|].
      split; [lia|]. split.
      * intros j Hj. destruct (decide (j = TsCommentScanner.pos (fst w)));
          [by subst|]. apply IH2. lia.
      * intros Hr. destruct (IH3 Hr) as [(Ha & Hb & Hc)|[Ha Hb]].
        -- left. split; [lia|]. split; [done|]. intros j Hj.
           destruct (decide (j = TsCommentScanner.pos (fst w))); [by subst|].
           apply Hc. lia.
        -- right. split; [|lia]. intros j Hj.
           destruct (decide (j = TsCommentScanner.pos (fst w))); [by subst|].
           apply Ha. lia.
Qed.

Lemma scanUntilPastCharLoop_spec fuel text charList max w :
  (distance max (TsCommentScanner.pos (fst w)) <= fuel)%nat ->
  let lo := TsCommentScanner.pos (fst w) in
  let r := scanUntilPastCharLoop fuel text charList max w in
  let hi := TsCommentScanner.pos (fst (snd r)) in
  lo <= hi
  /\ (fst r = Normal tt ->
      (exists i, firstCharAt charList text lo max i /\ hi = i + 1)
      \/ (noCharIn charList text lo max /\ hi = Z.max lo max)).
Proof.
  revert w. induction fuel as [|fuel IH]; intros w Hf; simpl.
  - unfold distance in Hf. split; [lia|].
    intros _. right. split; [intros j; lia|lia].
  - unfold TsCommentScanner.bind, TsCommentScanner.get, TsCommentScanner.modify,
      TsCommentScanner.ret. simpl.
    destruct (TsCommentScanner.pos (fst w) <? max) eqn:E.
    2:{ apply Z.ltb_ge in E. simpl. split; [lia|].
        intros _. right. split; [intros j; lia|lia]. }
    apply Z.ltb_lt in E.
    pose proof (scanReporting_pos text (TsCommentScanner.pos (fst w)) max true w)
      as H1.
    destruct (scanReporting text _ max true w) as [[r1|] w1]; simpl in *.
    2:{ split; [lia|done]. }
    destruct (includesCharAt charList text (TsCommentScanner.pos (fst w))) eqn:Hin;
      simpl.
    + split; [lia|]. intros _. left. exists (TsCommentScanner.pos (fst w)).
      split; [|done]. split; [lia|]. split; [done|]. intros j; lia.
    + specialize (IH (TsCommentScanner.setPos (TsCommentScanner.pos (fst w) + 1)
                        (fst w1), snd w1)).
      simpl in IH. destruct IH as (IH1 & IH3); [unfold distance in *; lia|].
      split; [lia|].
      intros Hr. destruct (IH3 Hr) as [(i & (Ha & Hb & Hc) & Hi)|[Ha Hb]].
      * left. exists i. split; [|done]. split; [lia|]. split; [done|]. intros j Hj.
        destruct (decide (j = TsCommentScanner.pos (fst w))); [by subst|].
        apply Hc. lia.
      * right. split; [|lia]. intros j Hj.
        destruct (decide (j = TsCommentScanner.pos (fst w))); [by subst|].
        apply Ha. lia.
Qed.

Lemma method_advances {A} i (m : TsCommentScanner.M A) s :
  (forall w, TsCommentScanner.pos (fst w) <= TsCommentScanner.pos (fst (snd (m w)))) ->
  Forall2 (fun a b => TsCommentScanner.pos a <= TsCommentScanner.pos b)
    (Session.scanners s) (Session.scanners (Session.method i m s)).
Proof.
  intros Hm. unfold Session.method.
  destruct (Session.scanners s !! i) as [sc|] eqn:Hi.
  - specialize (Hm (sc, Session.store s)).
    destruct (m (sc, Session.store s)) as [r [sc' store']]. simpl in *.
    apply Forall2_same_length_lookup. split; [by rewrite length_insert|].
    intros j a b Ha Hb. destruct (decide (i = j)) as [->|Hne].
    + rewrite list_lookup_insert_eq in Hb by (by eapply lookup_lt_Some).
      injection Hb as <-. by simplify_eq.
    + rewrite list_lookup_insert_ne in Hb by done. by simplify_eq.
  - apply Forall2_same_length_lookup. split; [done|]. intros j a b Ha Hb.
    by simplify_eq.
Qed.

Lemma perform_advances text s c :
  Forall2 (fun a b => TsCommentScanner.pos a <= TsCommentScanner.pos b)
    (Session.scanners s)
    (take (length (Session.scanners s))
       (Session.scanners (Session.perform text s c))).
Proof.
  assert (Forall2 (fun a b => TsCommentScanner.pos a <= TsCommentScanner.pos b)
            (Session.scanners s) (Session.scanners s)) as Hrefl.
  { apply Forall2_same_length_lookup. split; [done|]. intros j a b Ha Hb.
    by simplify_eq. }
  assert (forall {A} i (m : TsCommentScanner.M A),
            (forall w, TsCommentScanner.pos (fst w)
                       <= TsCommentScanner.pos (fst (snd (m w)))) ->
            Forall2 (fun a b => TsCommentScanner.pos a <= TsCommentScanner.pos b)
              (Session.scanners s)
              (take (length (Session.scanners s))
                 (Session.scanners (Session.method i m s)))) as Hmethod.
  { intros A i m Hm. pose proof (method_advances i m s Hm) as H.
    rewrite take_ge; [done|]. by rewrite (Forall2_length _ _ _ H). }
  destruct c; simpl.
  - destruct (createTSCommentScanner None None None (Session.store s)) as [sc st].
    simpl. by rewrite take_app_length.
  - destruct (Session.scanners s !! i); [|by rewrite firstn_all].
    destruct (clone t (Session.store s)) as [sc st]. simpl.
    by rewrite take_app_length.
  - apply Hmethod. apply scanThroughLeafNode_advances.
  - apply Hmethod. apply scanTo_advances.
  - apply Hmethod. intros w. rewrite scanUntilNextSignificantChar_pos. lia.
  - apply Hmethod. intros w. unfold scanUntilAtChar, TsCommentScanner.bind,
      TsCommentScanner.get. simpl.
    by destruct (scanUntilAtCharLoop_spec
                   (distance max (TsCommentScanner.pos (fst w))) text charList
                   max w ltac:(lia)) as [H _].
  - apply Hmethod. intros w. unfold scanUntilPastChar, TsCommentScanner.bind,
      TsCommentScanner.get. simpl.
    by destruct (scanUntilPastCharLoop_spec
                   (distance max (TsCommentScanner.pos (fst w))) text charList
                   max w ltac:(lia)) as [H _].
Qed.

Lemma perform_length text s c :
  (length (Session.scanners s)
   <= length (Session.scanners (Session.perform text s c)))%nat.
Proof.
  pose proof (perform_advances text s c) as H%Forall2_length.
  rewrite length_take in H. lia.
Qed.

(** X5.  The position of a scanner never decreases: whatever calls are made
    on it or on other scanners, completed or thrown, each scanner of the
    session stays in the session and its position is at least what it
    was. *)
Theorem positions_never_decrease text s calls :
  Forall2 (fun a b => TsCommentScanner.pos a <= TsCommentScanner.pos b)
    (Session.scanners s)
    (take (length (Session.scanners s))
       (Session.scanners (foldl (Session.perform text) s calls))).
Proof.
  induction calls as [|c calls IH] using rev_ind.
  - simpl. rewrite firstn_all. apply Forall2_same_length_lookup.
    split; [done|]. intros j a b Ha Hb. by simplify_eq.
  - rewrite foldl_app. simpl.
    set (s' := foldl (Session.perform text) s calls) in *.
    pose proof (perform_advances text s' c) as Hc.
    pose proof (Forall2_length _ _ _ IH) as Hlen. rewrite length_take in Hlen.
    apply Forall2_same_length_lookup. split.
    { rewrite length_take. pose proof (perform_length text s' c). lia. }
    intros j a b Ha Hb.
    pose proof (lookup_lt_Some _ _ _ Ha) as Hj.
    rewrite lookup_take_lt in Hb by lia.
    destruct (take (length (Session.scanners s)) (Session.scanners s') !! j)
      as [m|] eqn:Hm.
    2:{ apply lookup_ge_None_1 in Hm. rewrite length_take in Hm. lia. }
    pose proof (Forall2_lookup_lr _ _ _ _ _ _ IH Ha Hm) as H1.
    rewrite lookup_take_lt in Hm by lia.
    assert (take (length (Session.scanners s'))
              (Session.scanners (Session.perform text s' c)) !! j = Some b) as Hb'.
    { rewrite lookup_take_lt; [done|]. by eapply lookup_lt_Some. }
    pose proof (Forall2_lookup_lr _ _ _ _ _ _ Hc Hm Hb') as H2. simpl in *. lia.
Qed.

(** X6.  A completed [scanUntilAtChar] leaves the scanner on the first
    position at or behind its own, before [max], whose character is in the
    list, and at [max] when there is none (where it was, if that is behind
    [max]).  Every position is tried: a listed character inside a comment
    stops it too. *)
Theorem scanUntilAtChar_stops_at_first text charList max w w' :
  scanUntilAtChar text charList max w = (Normal tt, w') ->
  firstCharAt charList text (TsCommentScanner.pos (fst w)) max
    (TsCommentScanner.pos (fst w'))
  \/ (noCharIn charList text (TsCommentScanner.pos (fst w)) max
      /\ TsCommentScanner.pos (fst w')
         = Z.max (TsCommentScanner.pos (fst w)) max).
Proof.
  unfold scanUntilAtChar, TsCommentScanner.bind, TsCommentScanner.get. simpl.
  intros H.
  destruct (scanUntilAtCharLoop_spec (distance max (TsCommentScanner.pos (fst w)))
              text charList max w ltac:(lia)) as (_ & _ & H3).
  rewrite H in H3. by apply H3.
Qed.

Lemma scanUntilAtChar_witness :
  scanUntilAtChar (text_of "/* , */ ,") [text_of ","] 9
    (createTSCommentScanner None None None [])
  = (Normal tt,
     snd (scanUntilAtChar (text_of "/* , */ ,") [text_of ","] 9
            (createTSCommentScanner None None None [])))
  /\ (firstCharAt [text_of ","] (text_of "/* , */ ,") 0 9
        (TsCommentScanner.pos
           (fst (snd (scanUntilAtChar (text_of "/* , */ ,") [text_of ","] 9
                        (createTSCommentScanner None None None [])))))
      \/ (noCharIn [text_of ","] (text_of "/* , */ ,") 0 9
          /\ TsCommentScanner.pos
               (fst (snd (scanUntilAtChar (text_of "/* , */ ,") [text_of ","] 9
                            (createTSCommentScanner None None None []))))
             = Z.max 0 9)).
Proof.
  assert (scanUntilAtChar (text_of "/* , */ ,") [text_of ","] 9
            (createTSCommentScanner None None None [])
          = (Normal tt,
             snd (scanUntilAtChar (text_of "/* , */ ,") [text_of ","] 9
                    (createTSCommentScanner None None None [])))) as H
    by (vm_compute; reflexivity).
  split; [exact H|].
  exact (scanUntilAtChar_stops_at_first _ _ _ _ _ H).
Defined.

(** The comma inside the comment stops the search. *)
Example scanUntilAtChar_inside_comment :
  TsCommentScanner.pos
    (fst (snd (scanUntilAtChar (text_of "/* , */ ,") [text_of ","] 9
                 (createTSCommentScanner None None None []))))
  = 3.
Proof. vm_compute. reflexivity. Qed.

(** X7.  A completed [scanUntilPastChar] leaves the scanner one behind the
    first position at or behind its own, before [max], whose character is
    in the list, and at [max] when there is none (where it was, if that is
    behind [max]). *)
Theorem scanUntilPastChar_stops_behind_first text charList max w w' :
  scanUntilPastChar text charList max w = (Normal tt, w') ->
  (exists i, firstCharAt charList text (TsCommentScanner.pos (fst w)) max i
             /\ TsCommentScanner.pos (fst w') = i + 1)
  \/ (noCharIn charList text (TsCommentScanner.pos (fst w)) max
      /\ TsCommentScanner.pos (fst w')
         = Z.max (TsCommentScanner.pos (fst w)) max).
Proof.
  unfold scanUntilPastChar, TsCommentScanner.bind, TsCommentScanner.get. simpl.
  intros H.
  destruct (scanUntilPastCharLoop_spec (distance max (TsCommentScanner.pos (fst w)))
              text charList max w ltac:(lia)) as (_ & H3).
  rewrite H in H3. by apply H3.
Qed.

Lemma scanUntilPastChar_witness :
  scanUntilPastChar (text_of "f(a, b)") [text_of ","] 7
    (createTSCommentScanner None None None [])
  = (Normal tt,
     snd (scanUntilPastChar (text_of "f(a, b)") [text_of ","] 7
            (createTSCommentScanner None None None [])))
  /\ ((exists i, firstCharAt [text_of ","] (text_of "f(a, b)") 0 7 i
                 /\ TsCommentScanner.pos
                      (fst (snd (scanUntilPastChar (text_of "f(a, b)")
                                   [text_of ","] 7
                                   (createTSCommentScanner None None None []))))
                    = i + 1)
      \/ (noCharIn [text_of ","] (text_of "f(a, b)") 0 7
          /\ TsCommentScanner.pos
               (fst (snd (scanUntilPastChar (text_of "f(a, b)") [text_of ","] 7
                            (createTSCommentScanner None None None []))))
             = Z.max 0 7)).
Proof.
  assert (scanUntilPastChar (text_of "f(a, b)") [text_of ","] 7
            (createTSCommentScanner None None None [])
          = (Normal tt,
             snd (scanUntilPastChar (text_of "f(a, b)") [text_of ","] 7
                    (createTSCommentScanner None None None [])))) as H
    by (vm_compute; reflexivity).
  split; [exact H|].
  exact (scanUntilPastChar_stops_behind_first _ _ _ _ _ H).
Defined.

(** ** The positions of TS comments, delimiter by delimiter *)

Lemma sorted_strictly (l : list Delimiter) :
  StronglySorted (keyLe fst) l -> NoDup l.*1 ->
  StronglySorted (fun a b => fst a < fst b) l.
Proof.
  induction 1 as [|d l Hl IH Hd]; intros Hnd; [constructor|].
  apply NoDup_cons in Hnd as [Hfresh Hnd]. constructor; [by apply IH|].
  apply Forall_forall. intros d' Hd'. rewrite Forall_forall in Hd.
  pose proof (Hd d' Hd') as Hle. unfold keyLe in Hle.
  assert (fst d <> fst d'); [|lia].
  intros E. apply Hfresh. rewrite E. by apply list_elem_of_fmap_2.
Qed.

Lemma StronglySorted_snoc {A} (R : A -> A -> Prop) l x :
  StronglySorted R l -> Forall (fun y => R y x) l -> StronglySorted R (l ++ [x]).
Proof.
  induction 1 as [|y l Hl IH Hy]; intros Hx; simpl.
  - by repeat constructor.
  - apply Forall_cons in Hx as [Hyx Hx]. constructor; [by apply IH|].
    apply Forall_app. split; [done|by constructor].
Qed.

Lemma pairDelimiter_spans m st d l :
  StronglySorted (fun a b => fst a < fst b) (d :: l) ->
  m !! fst d = Some (snd d) ->
  colonsFollow (d :: l) ->
  spanInvariant m st (d :: l) -> spanInvariant m (pairDelimiter st d) l.
Proof.
  intros Hsorted Hd [Hfollow _] (Hres & Hord & Hbelow & Hin).
  apply StronglySorted_cons in Hsorted as [Hl Hsorted].
  destruct d as [q ty]. simpl in *.
  assert (Forall (fun p => exists k, TsCommentPosition.close p = Some k
                                     /\ Forall (fun d => k < fst d) l)
            (result st)) as Hbelow'.
  { eapply Forall_impl; [exact Hbelow|]. intros p (k & Hk & Hkl).
    exists k. split; [done|]. by apply Forall_cons in Hkl as [_ ?]. }
  unfold pairDelimiter, spanInvariant.
  destruct st as [res p inTS]. simpl in *.
  destruct inTS.
  - destruct (Hin eq_refl) as (o & Ho & Hmo & Hol & Hprev & Hcolon).
    apply Forall_cons in Hol as [Hoq Hol]. simpl in Hoq.
    assert ((exists c n,
               TsCommentPosition.colonPos p = Some c
               /\ TsCommentPosition.colonCount p = Some n
               /\ (n = 1 \/ n = 2) /\ o < c
               /\ m !! c = Some (colonDelimiter n)
               /\ Forall (fun d => c < fst d) l)
            \/ isColonDelimiter ty = true) as Hcolon'.
    { destruct Hcolon as [(c & n & ? & ? & ? & ? & ? & Hcl)|?]; [left|by right].
      exists c, n. by apply Forall_cons in Hcl as [_ ?]. }
    destruct ty; simpl.
    + do 3 (split; [done|]). intros _. exists o. do 4 (split; [done|]).
      by destruct Hcolon' as [?|?]; [left|].
    + do 3 (split; [done|]). intros _. exists o. do 4 (split; [done|]).
      by destruct Hcolon' as [?|?]; [left|].
    + do 3 (split; [done|]). intros _. exists o. do 4 (split; [done|]).
      left. exists q, 1. by repeat split; try lia; try done; left.
    + do 3 (split; [done|]). intros _. exists o. do 4 (split; [done|]).
      left. exists q, 2. by repeat split; try lia; try done; right.
    + destruct Hcolon' as [(c & n & Hc & Hn & Hn12 & Hoc & Hmc & _)|?]; [|done].
      destruct Hcolon as [(c' & n' & Hc' & Hn' & _ & _ & _ & Hcl)|?]; [|done].
      apply Forall_cons in Hcl as [Hcq _]. simpl in Hcq.
      assert (c' = c) as -> by congruence.
      split; [|split; [|split; [|done]]].
      * apply Forall_app. split; [done|]. apply Forall_singleton.
        exists o, c, q, n. simpl. repeat split; try done; lia.
      * apply StronglySorted_snoc; [done|].
        eapply Forall_impl; [exact Hprev|]. intros p' (k & Hk & Hko).
        exists k, o. by simpl.
      * apply Forall_app. split; [done|]. apply Forall_singleton.
        exists q. by simpl.
  - destruct ty; simpl; (do 3 (split; [done|])); try done.
    intros _. exists q. split; [done|]. split; [done|]. split; [done|]. split.
    + eapply Forall_impl; [exact Hbelow|]. intros p' (k & Hk & Hkl).
      exists k. split; [done|]. by apply Forall_cons in Hkl as [? _].
    + right. by apply Hfollow.
Qed.

Lemma foldl_pairDelimiter_spans m l st :
  StronglySorted (fun a b => fst a < fst b) l ->
  (forall d, d ∈ l -> m !! fst d = Some (snd d)) ->
  colonsFollow l -> spanInvariant m st l ->
  Forall (spanOf m) (result (foldl pairDelimiter st l))
  /\ StronglySorted spanBefore (result (foldl pairDelimiter st l)).
Proof.
  revert st. induction l as [|d l IH]; intros st Hsorted Hin Hl Hst; simpl.
  - by destruct Hst as (? & ? & _).
  - apply IH.
    + by apply StronglySorted_cons in Hsorted as [_ ?].
    + intros d' Hd'. apply Hin. by right.
    + by destruct Hl.
    + apply pairDelimiter_spans; [done| |done|done]. apply Hin. by left.
Qed.

(** X8.  However scanners are created, cloned and driven over a text, the
    records that [getTSCommentPositions] returns are spans of the delimiter
    map: [open] is the key of an opening of a TS comment, [colonPos] the key
    of the colon delimiter that [colonCount] names, [close] the key of a
    closing delimiter, with [open < colonPos < close]; and the records come
    in document order, each closed before the next opens. *)
Theorem positions_are_ordered_spans text calls :
  let s := foldl (Session.perform text) Session.empty calls in
  Forall
    (fun sc =>
       Forall (spanOf (getBlockCommentDelimiters sc (Session.store s)))
         (getTSCommentPositions sc (Session.store s))
       /\ StronglySorted spanBefore (getTSCommentPositions sc (Session.store s)))
    (Session.scanners s).
Proof.
  intros s. apply Forall_forall. intros sc _.
  pose proof (getBlockCommentDelimiters_wellPaired text sc _
                (session_wellPaired text calls)) as Hm.
  fold s in Hm. unfold getTSCommentPositions, pairDelimiters.
  apply foldl_pairDelimiter_spans.
  - apply sorted_strictly; [apply sortByKey_sorted|apply sortedDelimiters_NoDup].
  - intros [q ty]. apply elem_of_sortedDelimiters.
  - by apply (colonsFollow_sortedDelimiters text).
  - split; [constructor|]. split; [constructor|]. split; [constructor|done].
Qed.

(** The colon of a position can belong to an opening inside the comment:
    the colon delimiter seen last before the close is the one recorded. *)
Example inner_colon_is_recorded :
  let w := snd (scanTo (text_of "/*:: /*: x */") 13
                  (createTSCommentScanner None None None [])) in
  getTSCommentPositions (fst w) (snd w)
  = [TsCommentPosition.mk (Some 0) (Some 7) (Some 11) (Some 1) false].
Proof. vm_compute. reflexivity. Qed.

(** ** The syntax tracker: what the yielded ranges stand for *)

Lemma sorted_lookup {A} (key : A -> Z) l i j a b :
  StronglySorted (keyLe key) l -> (i <= j)%nat ->
  l !! i = Some a -> l !! j = Some b -> key a <= key b.
Proof.
  intros Hs. revert i j. induction Hs as [|x l Hl IH Hx]; intros i j Hij; [done|].
  destruct i as [|i], j as [|j]; simpl; try lia.
  - intros [= <-] [= <-]. lia.
  - intros [= <-] Hb. rewrite Forall_forall in Hx.
    apply (Hx b). by eapply list_elem_of_lookup_2.
  - apply IH. lia.
Qed.

Section SweepSound.

Variables (len : Z) (ws ts : list SyntaxRange.t).
Hypothesis ts_sorted : StronglySorted (keyLe SyntaxRange.start) ts.
Hypothesis ws_sorted : StronglySorted (keyLe SyntaxRange.start) ws.
Hypothesis ts_ok :
  Forall (fun r => SyntaxRange.start r < SyntaxRange.end_ r <= len) ts.

(** What the merging loop passes lies below the end it returns, and that
    end is reached through recorded ranges only. *)
Lemma mergeTsRanges_merged fuel i e0 e' i' :
  TsSyntaxTracker.mergeTsRanges fuel ts i e0 = (e', i') ->
  (i <= i')%nat /\ e0 <= e'
  /\ (forall j r, ts !! j = Some r -> (i <= j < i')%nat -> SyntaxRange.end_ r <= e')
  /\ (forall x, e0 <= x < e' -> exists r, r ∈ ts /\ inRange x r)
  /\ ((length ts - i <= fuel)%nat ->
      forall j r, ts !! j = Some r -> (i' <= j)%nat -> e' < SyntaxRange.start r).
Proof.
  revert i e0. induction fuel as [|fuel IH]; intros i e0; simpl.
  - intros [= <- <-]. split; [lia|]. split; [lia|]. split; [intros; lia|].
    split; [intros; lia|]. intros Hf j r Hj%lookup_lt_Some. lia.
  - destruct (ts !! i) as [r|] eqn:Hi.
    + destruct (e0 <? SyntaxRange.start r) eqn:Hlt.
      * apply Z.ltb_lt in Hlt. intros [= <- <-]. split; [lia|]. split; [lia|].
        split; [intros; lia|]. split; [intros; lia|]. intros _ j r' Hj Hij.
        pose proof (sorted_lookup _ _ _ _ _ _ ts_sorted Hij Hi Hj). lia.
      * apply Z.ltb_ge in Hlt. intros H.
        apply IH in H as (H1 & H2 & H3 & H4 & H5).
        split; [lia|]. split; [lia|]. split; [|split].
        -- intros j r' Hj Hij. destruct (decide (j = i)) as [->|Hne].
           ++ assert (r' = r) as -> by congruence. lia.
           ++ apply (H3 j); [done|lia].
        -- intros x Hx.
           destruct (decide (x < Z.max e0 (SyntaxRange.end_ r))) as [Hx'|Hx'].
           ++ exists r. split; [by eapply list_elem_of_lookup_2|].
              unfold inRange. lia.
           ++ apply H4. lia.
        -- intros Hf. apply H5. apply lookup_lt_Some in Hi. lia.
    + intros [= <- <-]. apply lookup_ge_None_1 in Hi.
      split; [lia|]. split; [lia|]. split; [intros; lia|]. split; [intros; lia|].
      intros _ j r Hj%lookup_lt_Some. lia.
Qed.

Lemma sweepSound_javaScript ti pos e ys :
  (forall x, pos <= x < e ->
     (forall r, r ∈ ts -> ~ inRange x r) /\ (forall w, w ∈ ws -> ~ inRange x w)) ->
  sweepSound ws ts ti ys ->
  sweepSound ws ts ti (SyntaxRange.mk pos e javaScript :: ys).
Proof.
  intros Hfree (HA & HB & HC). split; [|split].
  - intros j r Hj Hij. destruct (HA j r Hj Hij) as (y & Hy & H).
    exists y. split; [by right|done].
  - intros y x [->|Hy]%elem_of_cons Hty Hx; [|by eapply HB].
    by apply Hfree.
  - intros y x [->|Hy]%elem_of_cons Hty Hx; [done|by eapply HC].
Qed.

Lemma sweepSound_typeScript ti ti' pos e ys :
  (forall j r, ts !! j = Some r -> (ti <= j < ti')%nat ->
     pos <= SyntaxRange.start r /\ SyntaxRange.end_ r <= e) ->
  (forall x, pos <= x < e -> exists r, r ∈ ts /\ inRange x r) ->
  sweepSound ws ts ti' ys ->
  sweepSound ws ts ti (SyntaxRange.mk pos e typeScript :: ys).
Proof.
  intros Hin Hcov (HA & HB & HC). split; [|split].
  - intros j r Hj Hij. destruct (decide (j < ti')%nat) as [Hlt|Hge].
    + exists (SyntaxRange.mk pos e typeScript). split; [left|]. split; [done|].
      simpl. apply (Hin j); [done|lia].
    + destruct (HA j r Hj ltac:(lia)) as (y & Hy & H).
      exists y. split; [by right|done].
  - intros y x [->|Hy]%elem_of_cons Hty Hx; [done|by eapply HB].
  - intros y x [->|Hy]%elem_of_cons Hty Hx; [|by eapply HC].
    by apply Hcov.
Qed.

Lemma getSyntaxRangesLoop_sound fuel wi ti pos ys :
  (forall j r, ts !! j = Some r -> (ti <= j)%nat -> pos <= SyntaxRange.start r) ->
  (forall j r, ts !! j = Some r -> (j < ti)%nat -> SyntaxRange.end_ r <= pos) ->
  (forall j w, ws !! j = Some w -> (j < wi)%nat -> SyntaxRange.end_ w <= pos) ->
  TsSyntaxTracker.getSyntaxRangesLoop fuel len ws ts wi ti pos = Some ys ->
  sweepSound ws ts ti ys.
Proof.
  revert wi ti pos ys. induction fuel as [|fuel IH];
    intros wi ti pos ys H1 H2 H3; [done|].
  simpl. destruct (pos <? len) eqn:Hlt.
  2:{ apply Z.ltb_ge in Hlt. intros [= <-]. split; [|split].
      - intros j r Hj Hij. specialize (H1 j r Hj Hij).
        pose proof (Forall_lookup_1 _ _ _ _ ts_ok Hj) as Hr. simpl in Hr. lia.
      - intros y x Hy. by apply elem_of_nil in Hy.
      - intros y x Hy. by apply elem_of_nil in Hy. }
  apply Z.ltb_lt in Hlt.
  (* a JavaScript range up to [e] *)
  assert (forall e, pos < e ->
            (forall j r, ts !! j = Some r -> (ti <= j)%nat -> e <= SyntaxRange.start r) ->
            (forall j w, ws !! j = Some w -> (wi <= j)%nat -> e <= SyntaxRange.start w) ->
            cons (SyntaxRange.mk pos e javaScript)
              <$> TsSyntaxTracker.getSyntaxRangesLoop fuel len ws ts wi ti e
            = Some ys ->
            sweepSound ws ts ti ys) as Hjs.
  { intros e He Hts Hws.
    destruct (TsSyntaxTracker.getSyntaxRangesLoop fuel len ws ts wi ti e)
      as [ys'|] eqn:Hl; [|done].
    simpl. intros [= <-]. apply sweepSound_javaScript.
    - intros x Hx. split.
      + intros r [j Hj]%list_elem_of_lookup_1. unfold inRange.
        destruct (decide (j < ti)%nat).
        * specialize (H2 j r Hj ltac:(lia)). lia.
        * specialize (Hts j r Hj ltac:(lia)). lia.
      + intros w [j Hj]%list_elem_of_lookup_1. unfold inRange.
        destruct (decide (j < wi)%nat).
        * specialize (H3 j w Hj ltac:(lia)). lia.
        * specialize (Hws j w Hj ltac:(lia)). lia.
    - eapply IH; [..|exact Hl].
      + done.
      + intros j r Hj Hij. specialize (H2 j r Hj Hij). lia.
      + intros j w Hj Hij. specialize (H3 j w Hj Hij). lia. }
  (* passing the whitespace range [w] *)
  assert (forall w, ws !! wi = Some w ->
            (forall j r, ts !! j = Some r -> (ti <= j)%nat ->
               SyntaxRange.end_ w <= SyntaxRange.start r) ->
            TsSyntaxTracker.getSyntaxRangesLoop fuel len ws ts (S wi) ti
              (Z.max pos (SyntaxRange.end_ w)) = Some ys ->
            sweepSound ws ts ti ys) as Hskip.
  { intros w Hw Hts Hl. eapply IH; [..|exact Hl].
    - intros j r Hj Hij. specialize (H1 j r Hj Hij).
      specialize (Hts j r Hj Hij). lia.
    - intros j r Hj Hij. specialize (H2 j r Hj Hij). lia.
    - intros j w' Hj Hij. destruct (decide (j = wi)) as [->|Hne].
      + assert (w' = w) as -> by congruence. lia.
      + specialize (H3 j w' Hj ltac:(lia)). lia. }
  destruct (ts !! ti) as [r|] eqn:Hti; simpl.
  - pose proof (Forall_lookup_1 _ _ _ _ ts_ok Hti) as Hr. simpl in Hr.
    assert (forall j r', ts !! j = Some r' -> (ti <= j)%nat ->
              SyntaxRange.start r <= SyntaxRange.start r') as Hmin.
    { intros j r' Hj Hij. by eapply (sorted_lookup _ ts ti j). }
    case_bool_decide as Heq.
    + injection Heq as Heq.
      destruct (TsSyntaxTracker.mergeTsRanges (length ts) ts (S ti)
                  (SyntaxRange.end_ r)) as [e' ti'] eqn:Hm.
      apply mergeTsRanges_merged in Hm as (M1 & M2 & M3 & M4 & M5).
      destruct (TsSyntaxTracker.getSyntaxRangesLoop fuel len ws ts wi ti' e')
        as [ys'|] eqn:Hl; [|done].
      simpl. intros [= <-]. apply (sweepSound_typeScript ti ti').
      * intros j r' Hj Hij. split; [apply (H1 j); [done|lia]|].
        destruct (decide (j = ti)) as [->|Hne].
        -- assert (r' = r) as -> by congruence. lia.
        -- apply (M3 j); [done|lia].
      * intros x Hx. destruct (decide (x < SyntaxRange.end_ r)).
        -- exists r. split; [by eapply list_elem_of_lookup_2|].
           unfold inRange. lia.
        -- apply M4. lia.
      * eapply IH; [..|exact Hl].
        -- intros j r' Hj Hij. specialize (M5 ltac:(lia) j r' Hj Hij). lia.
        -- intros j r' Hj Hij. destruct (decide (j < ti)%nat).
           ++ specialize (H2 j r' Hj ltac:(lia)). lia.
           ++ destruct (decide (j = ti)) as [->|Hne].
              ** assert (r' = r) as -> by congruence. lia.
              ** specialize (M3 j r' Hj ltac:(lia)). lia.
        -- intros j w Hj Hij. specialize (H3 j w Hj Hij). lia.
    + assert (pos < SyntaxRange.start r) as Hpos.
      { assert (pos <= SyntaxRange.start r) by (by apply (H1 ti)).
        assert (SyntaxRange.start r <> pos) by congruence. lia. }
      destruct (ws !! wi) as [w|] eqn:Hwi.
      * assert (forall j w', ws !! j = Some w' -> (wi <= j)%nat ->
                  SyntaxRange.start w <= SyntaxRange.start w') as Hwmin.
        { intros j w' Hj Hij. by eapply (sorted_lookup _ ws wi j). }
        destruct (SyntaxRange.start w <=? pos) eqn:Hw.
        -- apply Z.leb_le in Hw.
           destruct (SyntaxRange.end_ w <? SyntaxRange.start r) eqn:He.
           ++ apply Z.ltb_lt in He. apply (Hskip w); [done|].
              intros j r' Hj Hij. specialize (Hmin j r' Hj Hij). lia.
           ++ apply Z.ltb_ge in He. intros Hl. eapply IH; [..|exact Hl].
              ** done.
              ** intros j r' Hj Hij. specialize (H2 j r' Hj Hij). lia.
              ** intros j w' Hj Hij. specialize (H3 j w' Hj Hij). lia.
        -- apply Z.leb_gt in Hw. apply Hjs.
           ++ unfold TsSyntaxTracker.minStart. simpl. lia.
           ++ intros j r' Hj Hij. specialize (Hmin j r' Hj Hij).
              unfold TsSyntaxTracker.minStart. simpl. lia.
           ++ intros j w' Hj Hij. specialize (Hwmin j w' Hj Hij).
              unfold TsSyntaxTracker.minStart. simpl. lia.
      * apply Hjs.
        -- unfold TsSyntaxTracker.minStart. simpl. lia.
        -- intros j r' Hj Hij. specialize (Hmin j r' Hj Hij).
           unfold TsSyntaxTracker.minStart. simpl. lia.
        -- intros j w' Hj%lookup_lt_Some Hij. apply lookup_ge_None_1 in Hwi. lia.
  - assert (forall e j r, ts !! j = Some r -> (ti <= j)%nat ->
              e <= SyntaxRange.start r) as Hnone.
    { intros e j r Hj%lookup_lt_Some Hij. apply lookup_ge_None_1 in Hti. lia. }
    destruct (ws !! wi) as [w|] eqn:Hwi.
    + assert (forall j w', ws !! j = Some w' -> (wi <= j)%nat ->
                SyntaxRange.start w <= SyntaxRange.start w') as Hwmin.
      { intros j w' Hj Hij. by eapply (sorted_lookup _ ws wi j). }
      destruct (SyntaxRange.start w <=? pos) eqn:Hw.
      * apply Z.leb_le in Hw. apply (Hskip w); [done|]. apply Hnone.
      * apply Z.leb_gt in Hw. apply Hjs; [|apply Hnone|].
        -- unfold TsSyntaxTracker.minStart. simpl. lia.
        -- intros j w' Hj Hij. specialize (Hwmin j w' Hj Hij).
           unfold TsSyntaxTracker.minStart. simpl. lia.
    + apply Hjs; [|apply Hnone|].
      * unfold TsSyntaxTracker.minStart. simpl. lia.
      * intros j w' Hj%lookup_lt_Some Hij. apply lookup_ge_None_1 in Hwi. lia.
Qed.

End SweepSound.

Lemma getSyntaxRanges_sound text ranges :
  Forall (fun range => 0 <= fst range /\ snd range <= text_length text) ranges ->
  let tracker := TsSyntaxTracker.declareAll text ranges in
  sweepSound (TsSyntaxTracker.whitespaceSyntaxRanges tracker)
    (TsSyntaxTracker.tsSyntaxRanges tracker) 0
    (fst (TsSyntaxTracker.getSyntaxRanges text tracker)).
Proof.
  intros Hranges tracker.
  pose proof (declareAll_tsRangeOk text ranges Hranges) as Hts. fold tracker in Hts.
  set (len := text_length text) in *.
  set (ts := sortByKey SyntaxRange.start (TsSyntaxTracker.tsSyntaxRanges tracker)).
  set (ws := sortByKey SyntaxRange.start
               (TsSyntaxTracker.whitespaceSyntaxRanges tracker)).
  assert (Forall (tsRangeOk len) ts) as Hts'.
  { unfold ts. by rewrite sortByKey_Permutation. }
  assert (Forall (fun r => SyntaxRange.start r < SyntaxRange.end_ r <= len) ts)
    as Hok by exact (Forall_impl _ _ _ Hts' (fun r H => proj2 H)).
  destruct (getSyntaxRanges_swept len ws ts (sortByKey_sorted _ _) Hok)
    as (ys & Hloop & _).
  { intros r Hr. rewrite Forall_forall in Hts'. by destruct (Hts' r Hr). }
  assert (fst (TsSyntaxTracker.getSyntaxRanges text tracker) = ys) as ->.
  { unfold TsSyntaxTracker.getSyntaxRanges. cbn [fst]. fold ts ws len.
    by rewrite Hloop. }
  apply (getSyntaxRangesLoop_sound len ws ts (sortByKey_sorted _ _)
           (sortByKey_sorted _ _) Hok) in Hloop as (HA & HB & HC).
  - split; [|split].
    + intros j r Hj _.
      assert (r ∈ ts) as [j' Hj']%list_elem_of_lookup_1.
      { apply elem_of_sortByKey. by eapply list_elem_of_lookup_2. }
      apply (HA j' r Hj'). lia.
    + intros y x Hy Hty Hx. destruct (HB y x Hy Hty Hx) as [Hr Hw]. split.
      * intros r Hin. apply Hr. by apply elem_of_sortByKey.
      * intros w Hin. apply Hw. by apply elem_of_sortByKey.
    + intros y x Hy Hty Hx. destruct (HC y x Hy Hty Hx) as (r & Hr & Hin).
      exists r. split; [|done]. by apply elem_of_sortByKey in Hr.
  - intros j r Hj _. rewrite Forall_forall in Hts'.
    by destruct (Hts' r (list_elem_of_lookup_2 _ _ _ Hj)).
  - intros; lia.
  - intros; lia.
Qed.

(** C1.  For declarations that lie inside the text ([0 <= start] and
    [end <= text.length]), [getSyntaxRanges] runs to its end, and the ranges
    it yields are sorted by start, not empty, inside the text and mutually
    non-overlapping: an offset lies in at most one of them.  Every offset of
    the text lies in a yielded range or in a recorded whitespace range, and
    an offset of a yielded javaScript range lies in no recorded whitespace
    range.  An offset of a yielded typeScript range can lie in one: TS
    ranges trump whitespace ranges. *)
Theorem getSyntaxRanges_partition text ranges :
  Forall (fun range => 0 <= fst range /\ snd range <= text_length text) ranges ->
  let tracker := TsSyntaxTracker.declareAll text ranges in
  let sorted := snd (TsSyntaxTracker.getSyntaxRanges text tracker) in
  let ys := fst (TsSyntaxTracker.getSyntaxRanges text tracker) in
  TsSyntaxTracker.getSyntaxRangesLoop
    (TsSyntaxTracker.getSyntaxRangesFuel
       (TsSyntaxTracker.whitespaceSyntaxRanges sorted)
       (TsSyntaxTracker.tsSyntaxRanges sorted))
    (text_length text) (TsSyntaxTracker.whitespaceSyntaxRanges sorted)
    (TsSyntaxTracker.tsSyntaxRanges sorted) 0%nat 0%nat 0 = Some ys
  /\ StronglySorted
       (fun a b => SyntaxRange.start a < SyntaxRange.start b
                   /\ SyntaxRange.end_ a <= SyntaxRange.start b) ys
  /\ Forall (fun r => 0 <= SyntaxRange.start r
                      /\ SyntaxRange.start r < SyntaxRange.end_ r
                      /\ SyntaxRange.end_ r <= text_length text
                      /\ SyntaxRange.type r <> whitespace) ys
  /\ (forall i j r1 r2 x,
        ys !! i = Some r1 -> ys !! j = Some r2 ->
        inRange x r1 -> inRange x r2 -> i = j)
  /\ (forall x, 0 <= x < text_length text ->
        (exists r, r ∈ ys /\ inRange x r)
        \/ (exists w, w ∈ TsSyntaxTracker.whitespaceSyntaxRanges tracker
                      /\ inRange x w))
  /\ (forall y x w,
        y ∈ ys -> SyntaxRange.type y = javaScript -> inRange x y ->
        w ∈ TsSyntaxTracker.whitespaceSyntaxRanges tracker -> ~ inRange x w).
Proof.
  intros Hranges tracker sorted ys.
  pose proof (getSyntaxRanges_sound text ranges Hranges) as (_ & Hjs & _).
  fold tracker ys in Hjs.
  pose proof (declareAll_tsRangeOk text ranges Hranges) as Hts. fold tracker in Hts.
  set (len := text_length text) in *.
  set (ts := sortByKey SyntaxRange.start (TsSyntaxTracker.tsSyntaxRanges tracker)).
  set (ws := sortByKey SyntaxRange.start
               (TsSyntaxTracker.whitespaceSyntaxRanges tracker)).
  assert (Forall (tsRangeOk len) ts) as Hts'.
  { unfold ts. by rewrite sortByKey_Permutation. }
  destruct (getSyntaxRanges_swept len ws ts
              (sortByKey_sorted _ _)
              (Forall_impl _ _ _ Hts' (fun r H => proj2 H)))
    as (ys' & Hloop & Ho & Hc & Hy).
  { intros r Hr. rewrite Forall_forall in Hts'. by destruct (Hts' r Hr). }
  assert (ys = ys') as Heq.
  { unfold ys, TsSyntaxTracker.getSyntaxRanges. cbn [fst]. fold ts ws len.
    by rewrite Hloop. }
  clearbody ys. subst ys.
  split; [exact Hloop|]. split; [by eapply ordered_sorted|]. split.
  { pose proof (ordered_Forall _ _ Ho) as Ho'.
    rewrite Forall_forall in Ho', Hy |- *. intros r Hr.
    destruct (Ho' r Hr), (Hy r Hr). done. }
  split; [intros i j r1 r2 x; by eapply ordered_disjoint|].
  split.
  - intros x Hx. destruct (Hc x Hx) as [?|(w & Hw & Hin)]; [by left|right].
    exists w. split; [|done]. by apply elem_of_sortByKey in Hw.
  - intros y x w Hy' Hty Hx Hw. destruct (Hjs y x Hy' Hty Hx) as [_ Hws].
    by apply Hws.
Qed.

Lemma getSyntaxRanges_partition_witness :
  Forall (fun range => 0 <= fst range /\ snd range <= 20) [(5, 15)]
  /\ fst (TsSyntaxTracker.getSyntaxRanges (text_of "let x  : number = 1;")
            (TsSyntaxTracker.declareAll (text_of "let x  : number = 1;") [(5, 15)]))
     = [SyntaxRange.mk 0 5 javaScript; SyntaxRange.mk 7 15 typeScript;
        SyntaxRange.mk 15 20 javaScript]
  /\ forall x, 0 <= x < text_length (text_of "let x  : number = 1;") ->
       (exists r,
          r ∈ fst (TsSyntaxTracker.getSyntaxRanges (text_of "let x  : number = 1;")
                     (TsSyntaxTracker.declareAll (text_of "let x  : number = 1;")
                        [(5, 15)]))
          /\ inRange x r)
       \/ (exists w,
             w ∈ TsSyntaxTracker.whitespaceSyntaxRanges
                   (TsSyntaxTracker.declareAll (text_of "let x  : number = 1;")
                      [(5, 15)])
             /\ inRange x w).
Proof.
  assert (Forall (fun range => 0 <= fst range /\ snd range <= 20) [(5, 15)]) as H
    by (repeat constructor; simpl; lia).
  split; [exact H|]. split; [vm_compute; reflexivity|].
  apply (getSyntaxRanges_partition (text_of "let x  : number = 1;") [(5, 15)] H).
Defined.

(** The cover is not exact: on [/* a */ b], with the whole comment declared
    and then its inside, the offset 3 lies in the yielded typeScript range
    and in the recorded whitespace range. *)
Lemma getSyntaxRanges_covers_twice :
  let text := text_of "/* a */ b" in
  let tracker := TsSyntaxTracker.declareAll text [(0, 7); (3, 4)] in
  Forall (fun range => 0 <= fst range /\ snd range <= text_length text)
    [(0, 7); (3, 4)]
  /\ fst (TsSyntaxTracker.getSyntaxRanges text tracker)
     = [SyntaxRange.mk 3 4 typeScript; SyntaxRange.mk 7 9 javaScript]
  /\ TsSyntaxTracker.whitespaceSyntaxRanges tracker
     = [SyntaxRange.mk 0 7 whitespace]
  /\ exists r w,
       r ∈ fst (TsSyntaxTracker.getSyntaxRanges text tracker)
       /\ w ∈ TsSyntaxTracker.whitespaceSyntaxRanges tracker
       /\ inRange 3 r /\ inRange 3 w.
Proof.
  split; [repeat constructor; simpl; vm_compute; congruence|].
  split; [vm_compute; reflexivity|]. split; [vm_compute; reflexivity|].
  exists (SyntaxRange.mk 3 4 typeScript), (SyntaxRange.mk 0 7 whitespace).
  split; [vm_compute; left|]. split; [vm_compute; left|].
  unfold inRange. simpl. lia.
Qed.

(** A declaration that begins before the text is swept as the code sweeps
    it: the first range runs backwards. *)
Example getSyntaxRanges_before_the_text :
  fst (TsSyntaxTracker.getSyntaxRanges (text_of "a: T;")
         (TsSyntaxTracker.declareAll (text_of "a: T;") [(-2, 3)]))
  = [SyntaxRange.mk 0 (-2) javaScript; SyntaxRange.mk (-2) 3 typeScript;
     SyntaxRange.mk 3 5 javaScript].
Proof. vm_compute. reflexivity. Qed.

(** X9.  For declarations inside the text, every TS range that a
    declaration recorded lies inside one of the typeScript ranges that
    [getSyntaxRanges] yields: no declared TypeScript is handed out as
    JavaScript or dropped. *)
Theorem declared_ts_is_yielded text ranges :
  Forall (fun range => 0 <= fst range /\ snd range <= text_length text) ranges ->
  let tracker := TsSyntaxTracker.declareAll text ranges in
  forall r, r ∈ TsSyntaxTracker.tsSyntaxRanges tracker ->
    exists y, y ∈ fst (TsSyntaxTracker.getSyntaxRanges text tracker)
              /\ SyntaxRange.type y = typeScript
              /\ SyntaxRange.start y <= SyntaxRange.start r
              /\ SyntaxRange.end_ r <= SyntaxRange.end_ y.
Proof.
  intros Hranges tracker r [j Hj]%list_elem_of_lookup_1.
  destruct (getSyntaxRanges_sound text ranges Hranges) as (HA & _).
  apply (HA j r Hj). lia.
Qed.

Lemma declared_ts_is_yielded_witness :
  Forall (fun range => 0 <= fst range /\ snd range <= 20) [(5, 15); (9, 12)]
  /\ forall r,
       r ∈ TsSyntaxTracker.tsSyntaxRanges
             (TsSyntaxTracker.declareAll (text_of "let x  : number = 1;")
                [(5, 15); (9, 12)]) ->
       exists y,
         y ∈ fst (TsSyntaxTracker.getSyntaxRanges (text_of "let x  : number = 1;")
                    (TsSyntaxTracker.declareAll (text_of "let x  : number = 1;")
                       [(5, 15); (9, 12)]))
         /\ SyntaxRange.type y = typeScript
         /\ SyntaxRange.start y <= SyntaxRange.start r
         /\ SyntaxRange.end_ r <= SyntaxRange.end_ y.
Proof.
  assert (Forall (fun range => 0 <= fst range /\ snd range <= 20)
            [(5, 15); (9, 12)]) as H
    by (repeat constructor; simpl; lia).
  split; [exact H|].
  apply (declared_ts_is_yielded (text_of "let x  : number = 1;")
           [(5, 15); (9, 12)] H).
Defined.

(** X10.  For declarations inside the text, no offset of a yielded
    javaScript range lies in a recorded TS range or in a recorded
    whitespace range. *)
Theorem javaScript_ranges_are_unmarked text ranges :
  Forall (fun range => 0 <= fst range /\ snd range <= text_length text) ranges ->
  let tracker := TsSyntaxTracker.declareAll text ranges in
  forall y x,
    y ∈ fst (TsSyntaxTracker.getSyntaxRanges text tracker) ->
    SyntaxRange.type y = javaScript -> inRange x y ->
    (forall r, r ∈ TsSyntaxTracker.tsSyntaxRanges tracker -> ~ inRange x r)
    /\ (forall w, w ∈ TsSyntaxTracker.whitespaceSyntaxRanges tracker ->
          ~ inRange x w).
Proof.
  intros Hranges tracker.
  by destruct (getSyntaxRanges_sound text ranges Hranges) as (_ & HB & _).
Qed.

Lemma javaScript_ranges_are_unmarked_witness :
  Forall (fun range => 0 <= fst range /\ snd range <= 20) [(5, 15)]
  /\ (forall r,
        r ∈ TsSyntaxTracker.tsSyntaxRanges
              (TsSyntaxTracker.declareAll (text_of "let x  : number = 1;")
                 [(5, 15)]) ->
        ~ inRange 16 r)
  /\ (forall w,
        w ∈ TsSyntaxTracker.whitespaceSyntaxRanges
              (TsSyntaxTracker.declareAll (text_of "let x  : number = 1;")
                 [(5, 15)]) ->
        ~ inRange 16 w).
Proof.
  assert (Forall (fun range => 0 <= fst range /\ snd range <= 20) [(5, 15)]) as H
    by (repeat constructor; simpl; lia).
  split; [exact H|].
  apply (javaScript_ranges_are_unmarked (text_of "let x  : number = 1;")
           [(5, 15)] H (SyntaxRange.mk 15 20 javaScript) 16).
  - vm_compute. right. right. left.
  - reflexivity.
  - unfold inRange. simpl. lia.
Defined.

(** X11.  For declarations inside the text, every offset of a yielded
    typeScript range lies in a recorded TS range: overlapping and touching
    declarations are merged, and nothing else is added to them. *)
Theorem typeScript_ranges_are_declared text ranges :
  Forall (fun range => 0 <= fst range /\ snd range <= text_length text) ranges ->
  let tracker := TsSyntaxTracker.declareAll text ranges in
  forall y x,
    y ∈ fst (TsSyntaxTracker.getSyntaxRanges text tracker) ->
    SyntaxRange.type y = typeScript -> inRange x y ->
    exists r, r ∈ TsSyntaxTracker.tsSyntaxRanges tracker /\ inRange x r.
Proof.
  intros Hranges tracker.
  by destruct (getSyntaxRanges_sound text ranges Hranges) as (_ & _ & HC).
Qed.

Lemma typeScript_ranges_are_declared_witness :
  Forall (fun range => 0 <= fst range /\ snd range <= 20) [(5, 12); (12, 15)]
  /\ exists r,
       r ∈ TsSyntaxTracker.tsSyntaxRanges
             (TsSyntaxTracker.declareAll (text_of "let x  : number = 1;")
                [(5, 12); (12, 15)])
       /\ inRange 13 r.
Proof.
  assert (Forall (fun range => 0 <= fst range /\ snd range <= 20)
            [(5, 12); (12, 15)]) as H
    by (repeat constructor; simpl; lia).
  split; [exact H|].
  apply (typeScript_ranges_are_declared (text_of "let x  : number = 1;")
           [(5, 12); (12, 15)] H (SyntaxRange.mk 7 15 typeScript) 13).
  - vm_compute. right. left.
  - reflexivity.
  - unfold inRange. simpl. lia.
Defined.

(** ** Trivia skipping *)

Lemma isCase_charCodeAt_lt text p labels :
  isCase (charCodeAt text p) labels = true -> p < text_length text.
Proof.
  destruct (charCodeAt text p) as [c|] eqn:E; [|done].
  apply charCodeAt_Some_lt in E. lia.
Qed.

Lemma scanConflictMarkerLine_bounds fuel text pos :
  pos <= scanConflictMarkerLine fuel text pos <= Z.max pos (text_length text).
Proof.
  revert pos. induction fuel as [|fuel IH]; intros pos; simpl; [lia|].
  destruct ((pos <? text_length text) && negb (isLineBreakAt text pos)) eqn:E;
    [|lia].
  apply andb_true_iff in E as [E%Z.ltb_lt _]. specialize (IH (pos + 1)). lia.
Qed.

Lemma scanConflictMarkerBlock_bounds fuel text ch pos :
  pos <= scanConflictMarkerBlock fuel text ch pos <= Z.max pos (text_length text).
Proof.
  revert pos. induction fuel as [|fuel IH]; intros pos; simpl; [lia|].
  destruct (pos <? text_length text) eqn:E; [|lia]. apply Z.ltb_lt in E.
  destruct (_ && _); [lia|]. specialize (IH (pos + 1)). lia.
Qed.

(** A conflict marker is passed by at least one character. *)
Lemma scanConflictMarkerTrivia_progress text pos :
  isCase (charCodeAt text pos)
    [CharacterCodes.lessThan; CharacterCodes.bar; CharacterCodes.equals;
     CharacterCodes.greaterThan] = true ->
  pos < scanConflictMarkerTrivia text pos <= text_length text.
Proof.
  intros Hch. unfold scanConflictMarkerTrivia.
  destruct (charCodeAt text pos) as [c|] eqn:Hc; [|done].
  pose proof (charCodeAt_Some_lt _ _ _ Hc) as Hlt.
  assert (distance (text_length text) pos
          = S (distance (text_length text) (pos + 1))) as ->
    by (unfold distance; lia).
  destruct (codeIs (Some c) CharacterCodes.lessThan
            || codeIs (Some c) CharacterCodes.greaterThan) eqn:E; simpl.
  - assert (isLineBreakAt text pos = false) as Hlb.
    { unfold isLineBreakAt. rewrite Hc. simpl. simpl in E.
      apply orb_true_iff in E as [->%Z.eqb_eq| ->%Z.eqb_eq]; reflexivity. }
    rewrite Hlb. replace (pos <? text_length text) with true by lia. simpl.
    pose proof (scanConflictMarkerLine_bounds
                  (distance (text_length text) (pos + 1)) text (pos + 1)). lia.
  - replace (pos <? text_length text) with true by lia. rewrite Hc.
    rewrite bool_decide_eq_true_2 by done. rewrite andb_false_r. simpl.
    pose proof (scanConflictMarkerBlock_bounds
                  (distance (text_length text) (pos + 1)) text (Some c) (pos + 1)).
    lia.
Qed.

Lemma skipTriviaBlockComment_bounds text pos c :
  pos <= text_length text ->
  match skipTriviaBlockComment text pos c with
  | TriviaReturn q =>
      pos <= q < text_length text
      /\ codeIs (charCodeAt text q) CharacterCodes.colon = true
  | TriviaContinue q _ => pos <= q <= text_length text
  end.
Proof.
  intros Hlen. unfold skipTriviaBlockComment.
  destruct (scanTsCommentPrefix _ text (text_length text) pos) as [p b] eqn:Hp.
  pose proof (scanTsCommentPrefix_spec _ _ _ _ _ _ Hp) as (Hge & _ & Hb).
  pose proof (scanTsCommentPrefix_le _ _ _ _ _ _ Hp) as Hle.
  destruct b; simpl.
  - destruct (Hb eq_refl) as [Hcolon Hlt].
    pose proof (colonCount_length _ _ Hcolon) as Hcc.
    destruct (colonCount_cases text p) as [E|[E|E]]; rewrite E in *; simpl.
    + split; [lia|done].
    + lia.
    + destruct (scanBlockCommentBody _ text (text_length text) (p + 3))
        as [q ds] eqn:Hq.
      pose proof (scanBlockCommentBody_spec _ _ _ _ _ _ Hq) as [Hge' _].
      pose proof (scanBlockCommentBody_le _ _ _ _ _ _ Hq)
        as [[Hle' _]|(k & _ & Hk & [_ Hsl%codeIs_lt_length] & ->)]; simpl; lia.
  - destruct (scanBlockCommentBody _ text (text_length text) p) as [q ds] eqn:Hq.
    pose proof (scanBlockCommentBody_spec _ _ _ _ _ _ Hq) as [Hge' _].
    pose proof (scanBlockCommentBody_le _ _ _ _ _ _ Hq)
      as [[Hle' _]|(k & _ & Hk & [_ Hsl%codeIs_lt_length] & ->)]; simpl; lia.
Qed.

(** A turn that continues has moved forward, inside the text; a turn that
    returns has not left the text either. *)
Lemma skipTriviaTurn_bounds text stopAfterLineBreak stopAtComments inJSDoc pos c :
  match skipTriviaTurn text stopAfterLineBreak stopAtComments inJSDoc pos c with
  | TriviaReturn q => pos <= q <= Z.max pos (text_length text)
  | TriviaContinue q _ => pos < q <= text_length text
  end.
Proof.
  unfold skipTriviaTurn.
  destruct (codeIs (charCodeAt text pos) CharacterCodes.carriageReturn) eqn:E1.
  { apply codeIs_lt_length in E1.
    destruct (codeIs (charCodeAt text (pos + 1)) CharacterCodes.lineFeed) eqn:E;
      [apply codeIs_lt_length in E|]; destruct stopAfterLineBreak; lia. }
  destruct (codeIs (charCodeAt text pos) CharacterCodes.lineFeed) eqn:E2.
  { apply codeIs_lt_length in E2. destruct stopAfterLineBreak; lia. }
  destruct (isCase (charCodeAt text pos) [CharacterCodes.tab;
              CharacterCodes.verticalTab; CharacterCodes.formFeed;
              CharacterCodes.space]) eqn:E3.
  { apply isCase_charCodeAt_lt in E3. lia. }
  destruct (codeIs (charCodeAt text pos) CharacterCodes.slash) eqn:E4.
  { apply codeIs_lt_length in E4. destruct stopAtComments; [lia|].
    destruct (codeIs (charCodeAt text (pos + 1)) CharacterCodes.slash) eqn:E.
    { apply codeIs_lt_length in E.
      pose proof (scanLineComment_ge (distance (text_length text) (pos + 2)) text
                    (text_length text) (pos + 2)).
      pose proof (scanLineComment_le (distance (text_length text) (pos + 2)) text
                    (text_length text) (pos + 2)). lia. }
    destruct (codeIs (charCodeAt text (pos + 1)) CharacterCodes.asterisk) eqn:E';
      [|lia].
    apply codeIs_lt_length in E'.
    pose proof (skipTriviaBlockComment_bounds text (pos + 2) c ltac:(lia)) as H.
    destruct (skipTriviaBlockComment text (pos + 2) c); lia. }
  destruct (isCase (charCodeAt text pos) [CharacterCodes.lessThan;
              CharacterCodes.bar; CharacterCodes.equals;
              CharacterCodes.greaterThan]) eqn:E5.
  { destruct (isConflictMarkerTrivia text pos); [|lia].
    by apply scanConflictMarkerTrivia_progress. }
  destruct (codeIs (charCodeAt text pos) CharacterCodes.hash) eqn:E6.
  { destruct ((pos =? 0) && isShebangTrivia text) eqn:E; [|lia].
    apply andb_true_iff in E as [->%Z.eqb_eq E]. unfold scanShebangTrivia.
    unfold isShebangTrivia in E. apply andb_true_iff in E as [_ E].
    apply codeIs_lt_length in E.
    pose proof (regexDotStar_bounds (drop 2 text)) as H.
    rewrite length_drop in H. unfold text_length in *. lia. }
  destruct (codeIs (charCodeAt text pos) CharacterCodes.asterisk) eqn:E7.
  { apply codeIs_lt_length in E7. destruct c; [lia|].
    destruct (codeIs (charCodeAt text (pos + 1)) CharacterCodes.slash) eqn:E;
      [apply codeIs_lt_length in E|]; lia. }
  destruct (charCodeAt text pos) as [x|] eqn:Hx; [|lia].
  apply charCodeAt_Some_lt in Hx. destruct (_ && _); lia.
Qed.

Lemma skipTriviaLoop_returns text stopAfterLineBreak stopAtComments inJSDoc
    fuel pos c :
  (distance (text_length text) pos < fuel)%nat ->
  exists q,
    skipTriviaLoop text stopAfterLineBreak stopAtComments inJSDoc fuel pos c
    = Some q
    /\ pos <= q <= Z.max pos (text_length text).
Proof.
  revert pos c. induction fuel as [|fuel IH]; intros pos c Hf; [lia|]. simpl.
  pose proof (skipTriviaTurn_bounds text stopAfterLineBreak stopAtComments
                inJSDoc pos c) as H.
  destruct (skipTriviaTurn text stopAfterLineBreak stopAtComments inJSDoc pos c)
    as [q|q c'].
  - by exists q.
  - destruct (IH q c') as (q' & -> & Hq'); [unfold distance in *; lia|].
    exists q'. split; [done|lia].
Qed.

(** X12.  [skipTrivia] ends: given [text.length - pos + 1] turns of its
    loop, or more, it returns a position that is not before [pos] and, for a
    [pos] inside the text, not behind the end of the text. *)
Theorem skipTrivia_returns positionIsSynthesized text stopAfterLineBreak
    stopAtComments inJSDoc pos more :
  exists q,
    skipTrivia positionIsSynthesized text stopAfterLineBreak stopAtComments
      inJSDoc (S (distance (text_length text) pos) + more) pos = Some q
    /\ pos <= q <= Z.max pos (text_length text).
Proof.
  unfold skipTrivia. destruct (positionIsSynthesized pos).
  - exists pos. split; [done|lia].
  - apply skipTriviaLoop_returns. lia.
Qed.

Lemma skipTriviaTurn_colon text stopAfterLineBreak stopAtComments inJSDoc q c :
  codeIs (charCodeAt text q) CharacterCodes.colon = true ->
  skipTriviaTurn text stopAfterLineBreak stopAtComments inJSDoc q c
  = TriviaReturn q.
Proof.
  intros H%codeIs_eq. unfold skipTriviaTurn. rewrite H. reflexivity.
Qed.

Lemma skipTriviaBlockComment_Return text pos c c' q :
  skipTriviaBlockComment text pos c = TriviaReturn q ->
  skipTriviaBlockComment text pos c' = TriviaReturn q.
Proof.
  unfold skipTriviaBlockComment.
  destruct (scanTsCommentPrefix _ text (text_length text) pos) as [p b].
  destruct (b && _); [done|]. by destruct (b && _).
Qed.

(** Where a turn returns, a turn of a new call returns at once. *)
Lemma skipTriviaTurn_Return text stopAtComments inJSDoc inJSDoc' pos c q :
  skipTriviaTurn text false stopAtComments inJSDoc pos c = TriviaReturn q ->
  skipTriviaTurn text false stopAtComments inJSDoc' q false = TriviaReturn q.
Proof.
  intros H.
  assert (q = pos
          \/ codeIs (charCodeAt text q) CharacterCodes.colon = true) as [->|Hq].
  { revert H. unfold skipTriviaTurn.
    repeat match goal with
           | |- context [if ?b then _ else _] => destruct b eqn:?
           | |- context [match charCodeAt text pos with _ => _ end] =>
               destruct (charCodeAt text pos) eqn:?
           end; try (intros [= <-]; by left); try done.
    intros H.
    pose proof (skipTriviaBlockComment_bounds text (pos + 2) c) as Hb.
    rewrite H in Hb. right. apply Hb.
    match goal with
    | E : codeIs (charCodeAt text (pos + 1)) CharacterCodes.asterisk = true |- _ =>
        apply codeIs_lt_length in E
    end. lia. }
  2:{ by apply skipTriviaTurn_colon. }
  revert H. unfold skipTriviaTurn.
  repeat match goal with
         | |- context [if ?b then _ else _] => destruct b eqn:?
         | |- context [match charCodeAt text pos with _ => _ end] =>
             destruct (charCodeAt text pos) eqn:?
         end; try done.
  apply skipTriviaBlockComment_Return.
Qed.

Lemma skipTriviaLoop_Return text stopAtComments inJSDoc inJSDoc' fuel pos c q :
  skipTriviaLoop text false stopAtComments inJSDoc fuel pos c = Some q ->
  skipTriviaTurn text false stopAtComments inJSDoc' q false = TriviaReturn q.
Proof.
  revert pos c. induction fuel as [|fuel IH]; intros pos c; [done|]. simpl.
  destruct (skipTriviaTurn text false stopAtComments inJSDoc pos c)
    as [q'|q' c'] eqn:Hturn.
  - intros [= ->]. by eapply skipTriviaTurn_Return.
  - apply IH.
Qed.

(** X13.  Without [stopAfterLineBreak], [skipTrivia] is idempotent: called
    on the position it returned, it returns that position again, whatever
    [inJSDoc] is then. *)
Theorem skipTrivia_idempotent positionIsSynthesized text stopAtComments
    inJSDoc inJSDoc' fuel fuel' pos q :
  skipTrivia positionIsSynthesized text false stopAtComments inJSDoc fuel pos
  = Some q ->
  skipTrivia positionIsSynthesized text false stopAtComments inJSDoc'
    (S fuel') q = Some q.
Proof.
  unfold skipTrivia. destruct (positionIsSynthesized pos) eqn:Hs.
  - intros [= ->]. by rewrite Hs.
  - intros H. destruct (positionIsSynthesized q); [done|]. simpl.
    by rewrite (skipTriviaLoop_Return _ _ _ inJSDoc' _ _ _ _ H).
Qed.

Lemma skipTrivia_idempotent_witness :
  skipTrivia (fun p => p <? 0)
    (text_of "  /* a */ // b" ++ [10] ++ text_of " x = 1")
    false false false 30 0 = Some 16
  /\ skipTrivia (fun p => p <? 0)
       (text_of "  /* a */ // b" ++ [10] ++ text_of " x = 1")
       false false true 1 16 = Some 16.
Proof.
  assert (skipTrivia (fun p => p <? 0)
            (text_of "  /* a */ // b" ++ [10] ++ text_of " x = 1")
            false false false 30 0 = Some 16) as H
    by (vm_compute; reflexivity).
  split; [exact H|].
  exact (skipTrivia_idempotent _ _ _ _ true _ 0%nat _ _ H).
Defined.

(** With [stopAfterLineBreak] the position behind a line break is returned,
    and trivia may follow it. *)
Example skipTrivia_after_line_break :
  skipTrivia (fun p => p <? 0) ([10] ++ text_of "  x") true false false 5 0 = Some 1
  /\ skipTrivia (fun p => p <? 0) ([10] ++ text_of "  x") true false false 5 1 = Some 3.
Proof. split; vm_compute; reflexivity. Qed.

(** X14.  [couldStartTrivia] and [skipTrivia] are in step but for the
    asterisk: where [couldStartTrivia] answers false and the character is
    not an asterisk, [skipTrivia] returns the position it was given. *)
Theorem couldStartTrivia_false_skips_nothing positionIsSynthesized text
    stopAfterLineBreak stopAtComments inJSDoc fuel pos :
  couldStartTrivia text pos = false ->
  codeIs (charCodeAt text pos) CharacterCodes.asterisk = false ->
  skipTrivia positionIsSynthesized text stopAfterLineBreak stopAtComments
    inJSDoc (S fuel) pos = Some pos.
Proof.
  intros Hc Hstar. unfold skipTrivia.
  destruct (positionIsSynthesized pos); [done|]. simpl.
  assert (skipTriviaTurn text stopAfterLineBreak stopAtComments inJSDoc pos false
          = TriviaReturn pos) as ->; [|done].
  revert Hc. unfold couldStartTrivia, skipTriviaTurn. rewrite Hstar.
  destruct (charCodeAt text pos) as [x|] eqn:Hx; [|done].
  unfold isCase, codeIs, existsb.
  repeat match goal with
         | |- context [x =? ?k] => destruct (x =? k) eqn:?
         end; simpl; try done.
  - intros Hp. by rewrite Hp.
  - intros ->. done.
Qed.

Lemma couldStartTrivia_false_witness :
  couldStartTrivia (text_of "x = 1") 0 = false
  /\ skipTrivia (fun p => p <? 0) (text_of "x = 1") false false false 1 0
     = Some 0.
Proof.
  split; [reflexivity|].
  apply (couldStartTrivia_false_skips_nothing _ (text_of "x = 1")); reflexivity.
Defined.

(** The asterisk is the exception: the closing of a TS comment is trivia
    for [skipTrivia], and nothing for [couldStartTrivia]. *)
Example couldStartTrivia_misses_closing :
  couldStartTrivia (text_of "*/ x") 0 = false
  /\ skipTrivia (fun p => p <? 0) (text_of "*/ x") false false false 4 0
     = Some 3.
Proof. split; vm_compute; reflexivity. Qed.

(** ** [scan]: the loop ends *)

Ltac continues_ahead :=
  let H := fresh in intros H; injection H as <- _; simpl; lia.

Section ScanEnds.

Variable text : Text.
Variable end_ : Z.
Variable skipTrivia : bool.
Variable inJSDocType : Z.
Variable shouldParseJSDoc : Scanner.t -> bool.
Variable scanOther : option Z -> Scanner.t -> bool -> Scanner.Turn.

(** What is asked of the general tokenizer: a turn that continues has
    moved forward. *)
Hypothesis scanOther_advances :
  forall ch s a s' a',
    scanOther ch s a = Scanner.Continue s' a' -> Scanner.pos s < Scanner.pos s'.

Lemma scanCommentBody_ge fuel p lineBreak :
  p <= fst (fst (Scanner.scanCommentBody text end_ fuel p lineBreak)).
Proof.
  revert p lineBreak. induction fuel as [|fuel IH]; intros p lb; simpl; [lia|].
  destruct (p <? end_); [|simpl; lia].
  destruct (_ && _); [simpl; lia|]. specialize (IH (p + 1) (lb || isLineBreakAt text p)).
  lia.
Qed.

Lemma scanBlockComment_progress s a s' a' :
  Scanner.scanBlockComment text end_ skipTrivia shouldParseJSDoc s a
  = Scanner.Continue s' a' ->
  Scanner.pos s <= Scanner.pos s'.
Proof.
  unfold Scanner.scanBlockComment.
  destruct (scanTsCommentPrefix _ text end_ (Scanner.pos s)) as [p b] eqn:Hp.
  pose proof (scanTsCommentPrefix_spec _ _ _ _ _ _ Hp) as (Hge & _).
  destruct (b && _).
  { intros [= <- _]. simpl. lia. }
  destruct (b && _).
  { intros [= <- _]. simpl. lia. }
  pose proof (scanCommentBody_ge (distance end_ (if b then p + 3 else p))
                (if b then p + 3 else p) false) as Hbody.
  destruct (Scanner.scanCommentBody text end_ _ _ false) as [[q closed] lb].
  simpl in Hbody. destruct skipTrivia; [|done].
  intros [= <- _].
  repeat match goal with
         | |- context [if ?c then _ else _] => destruct c
         end; simpl; destruct b; lia.
Qed.

(** Every turn of the loop that continues has moved forward, and was made
    before the end. *)
Lemma scanTurn_progress s a s' a' :
  Scanner.scanTurn text end_ skipTrivia inJSDocType shouldParseJSDoc scanOther s a
  = Scanner.Continue s' a' ->
  Scanner.pos s < Scanner.pos s' /\ Scanner.pos s < end_.
Proof.
  unfold Scanner.scanTurn. cbn [Scanner.pos Scanner.setTokenStart].
  destruct (end_ <=? Scanner.pos s) eqn:Hend; [done|]. apply Z.leb_gt in Hend.
  intros H. split; [|done]. revert H.
  destruct (_ && Scanner.appearsBinary text); [done|].
  destruct ((Scanner.pos s =? 0) && _ && isShebangTrivia text) eqn:Hsh.
  { destruct skipTrivia; [|done]. intros [= <- _]. simpl.
    apply andb_true_iff in Hsh as [[->%Z.eqb_eq _]%andb_true_iff _].
    unfold scanShebangTrivia. pose proof (regexDotStar_bounds (drop 2 text)). lia. }
  destruct (isCase _ lineBreakCases).
  { destruct skipTrivia; [continues_ahead|].
    unfold Scanner.produce.
    by destruct (codeIs _ CharacterCodes.carriageReturn && _ && _). }
  destruct (isCase _ whiteSpaceCases).
  { destruct skipTrivia; [continues_ahead|done]. }
  destruct (codeIs _ CharacterCodes.asterisk).
  { unfold Scanner.produce.
    repeat match goal with
           | |- context [if ?c then _ else _] => destruct c
           end; try done; continues_ahead. }
  destruct (codeIs _ CharacterCodes.slash).
  { destruct (codeIs _ CharacterCodes.slash).
    { destruct skipTrivia; [|done]. intros [= <- _]. simpl.
      pose proof (scanLineComment_ge (distance end_ (Scanner.pos s + 2)) text end_
                    (Scanner.pos s + 2)). lia. }
    destruct (codeIs _ CharacterCodes.asterisk).
    { intros H%scanBlockComment_progress. simpl in H. lia. }
    unfold Scanner.produce. by destruct (codeIs _ CharacterCodes.equals). }
  destruct (codeIs _ CharacterCodes.colon); [done|].
  intros H%scanOther_advances. by simpl in H.
Qed.

Lemma scanLoop_returns fuel s a :
  (distance end_ (Scanner.pos s) < fuel)%nat ->
  is_Some (Scanner.scanLoop text end_ skipTrivia inJSDocType shouldParseJSDoc
             scanOther fuel s a).
Proof.
  revert s a. induction fuel as [|fuel IH]; intros s a Hf; [lia|]. simpl.
  destruct (Scanner.scanTurn text end_ skipTrivia inJSDocType shouldParseJSDoc
              scanOther s a) as [s'|s' a'] eqn:Hturn; [done|].
  apply scanTurn_progress in Hturn. apply IH. unfold distance in *. lia.
Qed.

End ScanEnds.

(** X15.  [scan] returns a token: provided the general tokenizer moves
    forward whenever it lets the loop go on, the loop of [scan] ends within
    [end - pos + 1] turns.  The white space, line breaks and comments it
    skips, the opening of a TS comment and a closing [*/] all move the
    position forward. *)
Theorem scan_returns text end_ skipTrivia inJSDocType shouldParseJSDoc scanOther
    s more :
  (forall ch s a s' a',
     scanOther ch s a = Scanner.Continue s' a' ->
     Scanner.pos s < Scanner.pos s') ->
  is_Some (Scanner.scan text end_ skipTrivia inJSDocType shouldParseJSDoc
             scanOther (S (distance end_ (Scanner.pos s)) + more) s).
Proof.
  intros Hother. unfold Scanner.scan. apply scanLoop_returns; [done|].
  simpl. lia.
Qed.

Lemma scan_returns_witness :
  is_Some (Scanner.scan (text_of "/*:: a */ b") 11 true 0 (fun _ => false)
             (fun _ s _ => Scanner.produce 1 (OtherKind 0) s)
             (S (distance 11 (Scanner.pos Scanner.initial)) + 0)
             Scanner.initial).
Proof.
  apply (scan_returns (text_of "/*:: a */ b") 11 true 0 (fun _ => false)
           (fun _ s _ => Scanner.produce 1 (OtherKind 0) s) Scanner.initial 0).
  intros ch s a s' a' H. discriminate H.
Defined.

(** ** The search in a table of ranges *)

Lemma elementAt_Some map i a :
  elementAt map i = Some a -> 0 <= i < Z.of_nat (length map).
Proof.
  unfold elementAt. destruct (0 <=? i) eqn:E; [|done].
  intros H%lookup_lt_Some. lia.
Qed.

Lemma elementAt_is_Some map i :
  0 <= i < Z.of_nat (length map) -> is_Some (elementAt map i).
Proof.
  intros Hi. unfold elementAt. replace (0 <=? i) with true by lia.
  apply lookup_lt_is_Some. lia.
Qed.

Lemma elementAt_sorted map i j a b :
  StronglySorted Z.le map -> i <= j ->
  elementAt map i = Some a -> elementAt map j = Some b -> a <= b.
Proof.
  intros Hs Hij Ha Hb.
  pose proof (elementAt_Some _ _ _ Ha). pose proof (elementAt_Some _ _ _ Hb).
  unfold elementAt in Ha, Hb.
  replace (0 <=? i) with true in Ha by lia.
  replace (0 <=? j) with true in Hb by lia.
  apply (sorted_lookup (fun x => x) map (Z.to_nat i) (Z.to_nat j) a b);
    [exact Hs|lia|done|done].
Qed.

(** The loop ends within its turns; what it finds is in the table, and in
    a sorted table it finds what is there between [lo] and [hi]. *)
Lemma lookupInUnicodeMapLoop_spec fuel code map lo hi :
  0 <= lo -> lo mod 2 = 0 -> hi <= Z.of_nat (length map) ->
  hi mod 2 = 0 \/ hi = Z.of_nat (length map) ->
  (Z.to_nat (hi - lo) < fuel)%nat ->
  exists b,
    lookupInUnicodeMapLoop fuel code map lo hi = Some b
    /\ (b = true -> exists k, inUnicodeRange code map k)
    /\ (StronglySorted Z.le map ->
        forall k, inUnicodeRange code map k -> lo <= 2 * k < hi -> b = true).
Proof.
  revert lo hi. induction fuel as [|fuel IH]; intros lo hi Hlo Heven Hhi Hhi' Hf;
    [lia|]. simpl.
  destruct (lo + 1 <? hi) eqn:E.
  2:{ apply Z.ltb_ge in E. exists false. split; [done|]. split; [done|].
      intros _ k (Hk & a & b & Ha & Hb & _) Hin.
      apply elementAt_Some in Hb.
      pose proof (Z.div_mod lo 2 ltac:(lia)).
      pose proof (Z.div_mod hi 2 ltac:(lia)). lia. }
  apply Z.ltb_lt in E.
  set (mid := (2 * lo + (hi - lo) - (2 * lo + (hi - lo)) mod 4) / 2).
  assert (lo <= mid /\ mid + 2 <= hi /\ mid mod 2 = 0) as (Hmid1 & Hmid2 & Hmid3).
  { assert (mid = 2 * ((lo + hi) / 4)) as ->.
    { unfold mid. replace (2 * lo + (hi - lo)) with (lo + hi) by lia.
      pose proof (Z.div_mod (lo + hi) 4 ltac:(lia)) as Hdm.
      replace (lo + hi - (lo + hi) mod 4) with ((2 * ((lo + hi) / 4)) * 2) by lia.
      by rewrite Z.div_mul. }
    pose proof (Z.div_mod (lo + hi) 4 ltac:(lia)) as Hdm.
    pose proof (Z.mod_pos_bound (lo + hi) 4 ltac:(lia)) as Hmb.
    pose proof (Z.div_mod lo 2 ltac:(lia)) as Hlo2.
    split; [lia|]. split; [lia|].
    rewrite Z.mul_comm. apply Z.mod_mul. lia. }
  clearbody mid. pose proof (Z.div_mod mid 2 ltac:(lia)) as Hmid4.
  destruct (elementAt_is_Some map mid ltac:(lia)) as [a Ha].
  destruct (elementAt_is_Some map (mid + 1) ltac:(lia)) as [b Hb].
  rewrite Ha, Hb. simpl.
  destruct ((a <=? code) && (code <=? b)) eqn:Hfound.
  { apply andb_true_iff in Hfound as [H1%Z.leb_le H2%Z.leb_le].
    exists true. split; [done|]. split; [|done]. intros _.
    exists (mid / 2). split; [lia|]. exists a, b.
    replace (2 * (mid / 2)) with mid by lia. done. }
  destruct (code <? a) eqn:Hlt.
  - apply Z.ltb_lt in Hlt.
    destruct (IH lo mid) as (r & -> & Hsound & Hcomplete);
      [lia|lia|lia|by left|lia|].
    exists r. split; [done|]. split; [done|].
    intros Hs k Hk Hin. apply (Hcomplete Hs k Hk).
    destruct (decide (2 * k < mid)); [lia|].
    destruct Hk as (_ & a' & b' & Ha' & _ & Hin').
    pose proof (elementAt_sorted map mid (2 * k) a a' Hs ltac:(lia) Ha Ha'). lia.
  - apply Z.ltb_ge in Hlt.
    assert (b < code) as Hb'.
    { apply andb_false_iff in Hfound as [H%Z.leb_gt|H%Z.leb_gt]; lia. }
    destruct (IH (mid + 2) hi) as (r & -> & Hsound & Hcomplete);
      [lia|by rewrite <- Z.add_mod_idemp_l, Hmid3 by lia|lia|done|lia|].
    exists r. split; [done|]. split; [done|].
    intros Hs k Hk Hin. apply (Hcomplete Hs k Hk).
    destruct (decide (mid + 2 <= 2 * k)); [lia|].
    destruct Hk as (_ & a' & b' & _ & Hb'' & Hin').
    pose proof (elementAt_sorted map (2 * k + 1) (mid + 1) b' b Hs ltac:(lia)
                  Hb'' Hb). lia.
Qed.

(** X16.  [lookupInUnicodeMap] ends, and in a sorted table it answers true
    exactly for the codes that lie in one of the ranges, the pairs
    [map[2k], map[2k + 1]]. *)
Theorem lookupInUnicodeMap_correct code map :
  StronglySorted Z.le map ->
  exists b,
    lookupInUnicodeMap code map = Some b
    /\ (b = true <-> exists k, inUnicodeRange code map k).
Proof.
  intros Hs. unfold lookupInUnicodeMap.
  destruct (jsLt (Some code) (elementAt map 0)) eqn:Hfirst.
  - exists false. split; [done|]. split; [done|].
    intros (k & Hk & a & b & Ha & _ & Hin). exfalso.
    destruct (elementAt map 0) as [a0|] eqn:H0; [|done]. simpl in Hfirst.
    apply Z.ltb_lt in Hfirst.
    pose proof (elementAt_sorted map 0 (2 * k) a0 a Hs ltac:(lia) H0 Ha). lia.
  - destruct (lookupInUnicodeMapLoop_spec (S (length map)) code map 0
                (Z.of_nat (length map)))
      as (b & Hb & Hsound & Hcomplete); [done|done|lia|by right|lia|].
    exists b. split; [done|]. split; [done|].
    intros (k & Hk). apply (Hcomplete Hs k Hk).
    destruct Hk as (Hk & a' & b' & _ & Hb'%elementAt_Some & _). lia.
Qed.

Lemma lookupInUnicodeMap_witness :
  StronglySorted Z.le [65; 90; 97; 122; 170; 170; 181; 181]
  /\ exists b,
       lookupInUnicodeMap 100 [65; 90; 97; 122; 170; 170; 181; 181] = Some b
       /\ (b = true
           <-> exists k, inUnicodeRange 100 [65; 90; 97; 122; 170; 170; 181; 181] k).
Proof.
  assert (StronglySorted Z.le [65; 90; 97; 122; 170; 170; 181; 181]) as H
    by (repeat constructor; lia).
  split; [exact H|].
  exact (lookupInUnicodeMap_correct 100 [65; 90; 97; 122; 170; 170; 181; 181] H).
Defined.

(** What is found lies in the table, sorted or not. *)
Lemma lookupInUnicodeMap_sound code map :
  lookupInUnicodeMap code map = Some true -> exists k, inUnicodeRange code map k.
Proof.
  unfold lookupInUnicodeMap. destruct (jsLt _ _); [done|].
  destruct (lookupInUnicodeMapLoop_spec (S (length map)) code map 0
              (Z.of_nat (length map)))
    as (b & Hb & Hsound & _); [done|done|lia|by right|lia|].
  rewrite Hb. intros [= ->]. by apply Hsound.
Qed.

(** ** UTF-16 *)

(** X17.  [utf16EncodeAsStringFallback] and [codePointAt] are inverse:
    for a code point of the Unicode range the encoding does not throw, has
    [charSize] code units, and [codePointAt] reads the code point back from
    it; unless the code point is a lone leading surrogate, it reads it back
    whatever text follows. *)
Theorem utf16_round_trip codePoint :
  0 <= codePoint <= 0x10FFFF ->
  exists units,
    utf16EncodeAsStringFallback codePoint = Normal units
    /\ text_length units = charSize codePoint
    /\ codePointAt units 0 = Some codePoint
    /\ (~ (0xD800 <= codePoint <= 0xDBFF) ->
        forall rest, codePointAt (units ++ rest) 0 = Some codePoint).
Proof.
  intros Hcp. unfold utf16EncodeAsStringFallback, charSize.
  replace ((0 <=? codePoint) && (codePoint <=? 0x10FFFF)) with true by lia.
  destruct (codePoint <=? 65535) eqn:E.
  - apply Z.leb_le in E. exists [codePoint].
    replace (0x10000 <=? codePoint) with false by lia.
    split; [done|]. split; [done|]. split.
    + unfold codePointAt. simpl. by destruct (_ && _).
    + intros Hs rest. unfold codePointAt. simpl.
      by replace ((0xD800 <=? codePoint) && (codePoint <=? 0xDBFF)) with false
        by lia.
  - apply Z.leb_gt in E.
    replace (0x10000 <=? codePoint) with true by lia.
    eexists. split; [done|]. split; [done|].
    pose proof (Z.div_mod (codePoint - 65536) 1024 ltac:(lia)) as Hdm.
    pose proof (Z.mod_pos_bound (codePoint - 65536) 1024 ltac:(lia)) as Hmb.
    revert Hdm Hmb.
    generalize ((codePoint - 65536) / 1024), ((codePoint - 65536) mod 1024).
    intros q r Hdm Hmb.
    assert (forall rest,
              codePointAt ([q + 0xD800; r + 0xDC00] ++ rest) 0
              = Some codePoint) as H.
    { intros rest. unfold codePointAt. simpl.
      replace ((0xD800 <=? q + 0xD800) && (q + 0xD800 <=? 0xDBFF))
        with true by lia.
      replace ((0xDC00 <=? r + 0xDC00) && (r + 0xDC00 <=? 0xDFFF))
        with true by lia.
      f_equal. lia. }
    split; [apply (H [])|]. intros _. apply H.
Qed.

Lemma utf16_round_trip_witness :
  0 <= 0x1F600 <= 0x10FFFF
  /\ exists units,
       utf16EncodeAsStringFallback 0x1F600 = Normal units
       /\ text_length units = charSize 0x1F600
       /\ codePointAt units 0 = Some 0x1F600
       /\ (~ (0xD800 <= 0x1F600 <= 0xDBFF) ->
           forall rest, codePointAt (units ++ rest) 0 = Some 0x1F600).
Proof.
  assert (0 <= 0x1F600 <= 0x10FFFF) as H by lia.
  split; [exact H|]. exact (utf16_round_trip 0x1F600 H).
Defined.

(** A lone leading surrogate is not read back when a trailing one follows. *)
Example lone_surrogate_joins :
  utf16EncodeAsStringFallback 0xD83D = Normal [0xD83D]
  /\ codePointAt ([0xD83D] ++ [0xDE00]) 0 = Some 0x1F600.
Proof. split; vm_compute; reflexivity. Qed.

(** ** Line starts *)

Lemma isLineBreakAt_cases text p :
  isLineBreakAt text p = true <->
  codeIs (charCodeAt text p) CharacterCodes.carriageReturn = true
  \/ codeIs (charCodeAt text p) CharacterCodes.lineFeed = true
  \/ from_option
       (fun c => (CharacterCodes.maxAsciiCharacter <? c) && isLineBreak c)
       false (charCodeAt text p) = true.
Proof.
  unfold isLineBreakAt. destruct (charCodeAt text p) as [c|]; simpl.
  2:{ split; [done|]. by intros [?|[?|?]]. }
  unfold isLineBreak, CharacterCodes.carriageReturn, CharacterCodes.lineFeed,
    CharacterCodes.lineSeparator, CharacterCodes.paragraphSeparator,
    CharacterCodes.maxAsciiCharacter.
  rewrite !orb_true_iff, andb_true_iff, !orb_true_iff, !Z.eqb_eq, Z.ltb_lt. lia.
Qed.

(** The line starts up to [pos]. *)
Lemma computeLineStartsLoop_spec fuel text pos lineStart result :
  0 <= pos ->
  StronglySorted Z.lt (result ++ [lineStart]) ->
  (forall p, p ∈ result ++ [lineStart] <->
             (p = 0 \/ (0 < p /\ lineStartAt text p)) /\ p <= pos) ->
  (Z.to_nat (text_length text - pos) < fuel)%nat ->
  exists starts,
    computeLineStartsLoop fuel text pos lineStart result = Some starts
    /\ StronglySorted Z.lt starts
    /\ (forall p, p ∈ starts <-> p = 0 \/ (0 < p /\ lineStartAt text p)).
Proof.
  revert pos lineStart result.
  induction fuel as [|fuel IH]; intros pos ls res Hpos Hsorted Hin Hf; [lia|].
  simpl. destruct (pos <? text_length text) eqn:E.
  2:{ apply Z.ltb_ge in E. exists (res ++ [ls]). split; [done|]. split; [done|].
      intros p. rewrite Hin. split; [by intros [? _]|]. intros H. split; [done|].
      destruct H as [->|[Hp [Hlb _]]]; [lia|].
      unfold isLineBreakAt in Hlb.
      destruct (charCodeAt text (p - 1)) as [c|] eqn:Hc; [|done].
      apply charCodeAt_Some_lt in Hc. lia. }
  apply Z.ltb_lt in E.
  (* a line starts at [pos'], the only one behind [pos] *)
  assert (forall pos', pos < pos' ->
            (forall p, pos < p <= pos' -> lineStartAt text p <-> p = pos') ->
            (Z.to_nat (text_length text - pos') < fuel)%nat ->
            exists starts,
              computeLineStartsLoop fuel text pos' pos' (res ++ [ls]) = Some starts
              /\ StronglySorted Z.lt starts
              /\ (forall p, p ∈ starts <-> p = 0 \/ (0 < p /\ lineStartAt text p)))
    as Hpush.
  { intros pos' Hlt Hnew Hf'. apply IH; [lia| | |done].
    - apply StronglySorted_snoc; [done|]. apply Forall_forall. intros p Hp.
      apply Hin in Hp. lia.
    - intros p. rewrite elem_of_app, list_elem_of_singleton, Hin.
      destruct (decide (p <= pos)) as [Hle|Hgt].
      + split; [intros [[? ?]|?]; [split; [done|lia]|lia]|]. intros [? _]. by left.
      + split.
        * intros [[_ ?]| ->]; [lia|]. split; [|lia]. right. split; [lia|].
          apply Hnew; [lia|done].
        * intros [[->|[_ Hs]] Hle]; [lia|]. right. apply Hnew; [lia|done]. }
  pose proof (isLineBreakAt_cases text pos) as Hcases.
  destruct (codeIs (charCodeAt text pos) CharacterCodes.carriageReturn) eqn:Hcr.
  { destruct (codeIs (charCodeAt text (pos + 1)) CharacterCodes.lineFeed) eqn:Hlf.
    - apply Hpush; [lia| |apply codeIs_lt_length in Hlf; lia].
      intros p Hp. unfold lineStartAt.
      destruct (decide (p = pos + 1)) as [->|Hne].
      + replace (pos + 1 - 1) with pos by lia. split; [|lia].
        intros [_ Hn]. exfalso. by apply Hn.
      + assert (p = pos + 2) as -> by lia. split; [lia|]. intros _.
        replace (pos + 2 - 1) with (pos + 1) by lia. split.
        * apply isLineBreakAt_cases. by right; left.
        * intros [Hcr' _]. pose proof (codeIs_functional _ _ _ Hcr' Hlf). done.
    - apply Hpush; [lia| |lia].
      intros p Hp. assert (p = pos + 1) as -> by lia. split; [done|]. intros _.
      unfold lineStartAt. replace (pos + 1 - 1) with pos by lia. split.
      + apply Hcases. by left.
      + intros [_ Hlf']. by rewrite Hlf in Hlf'. }
  destruct (codeIs (charCodeAt text pos) CharacterCodes.lineFeed) eqn:Hlf.
  { apply Hpush; [lia| |lia].
    intros p Hp. assert (p = pos + 1) as -> by lia. split; [done|]. intros _.
    unfold lineStartAt. replace (pos + 1 - 1) with pos by lia. split.
    - apply Hcases. by right; left.
    - intros [Hcr' _]. congruence. }
  destruct (from_option _ false (charCodeAt text pos)) eqn:Hsep.
  { apply Hpush; [lia| |lia].
    intros p Hp. assert (p = pos + 1) as -> by lia. split; [done|]. intros _.
    unfold lineStartAt. replace (pos + 1 - 1) with pos by lia. split.
    - apply Hcases. by right; right.
    - intros [Hcr' _]. congruence. }
  apply IH; [lia|done| |lia].
  intros p. rewrite Hin. split.
  - intros [? ?]. split; [done|lia].
  - intros [H Hle]. split; [done|].
    destruct (decide (p = pos + 1)) as [->|]; [exfalso|lia].
    destruct H as [?|[_ [Hlb _]]]; [lia|].
    replace (pos + 1 - 1) with pos in Hlb by lia.
    apply Hcases in Hlb as [?|[?|?]]; congruence.
Qed.

(** X18.  [computeLineStarts] ends, and what it returns is the increasing
    sequence of the line starts of the text: 0 and every position behind
    a line break (line feed, carriage return, U+2028 or U+2029), but for the
    line feed that follows a carriage return. *)
Theorem computeLineStarts_correct text :
  exists starts,
    computeLineStarts text = Some starts
    /\ StronglySorted Z.lt starts
    /\ (forall p, p ∈ starts <-> p = 0 \/ (0 < p /\ lineStartAt text p)).
Proof.
  unfold computeLineStarts. apply computeLineStartsLoop_spec.
  - done.
  - repeat constructor.
  - intros p. simpl. rewrite list_elem_of_singleton. split; [intros ->|].
    + split; [by left|unfold text_length; lia].
    + intros [[->|[? _]] ?]; [done|lia].
  - unfold text_length. lia.
Qed.

(** ** Comment ranges *)

Lemma scanToLineBreak_bounds fuel text pos :
  pos <= fst (scanToLineBreak fuel text pos) <= Z.max pos (text_length text).
Proof.
  revert pos. induction fuel as [|fuel IH]; intros pos; simpl; [lia|].
  destruct (pos <? text_length text) eqn:E; [|simpl; lia].
  apply Z.ltb_lt in E. destruct (isLineBreakAt text pos); [simpl; lia|].
  specialize (IH (pos + 1)). lia.
Qed.

Lemma rangesWithin_app text lo hi rs rs' :
  rangesWithin text lo hi (rs ++ rs') <->
  exists mid, rangesWithin text lo mid rs /\ rangesWithin text mid hi rs'.
Proof.
  revert lo. induction rs as [|r rs IH]; intros lo; simpl.
  - split.
    + intros H. exists lo. split; [lia|done].
    + intros (mid & Hle & H). revert lo Hle. clear -H.
      destruct rs' as [|r rs']; simpl in *; intros; [lia|].
      destruct H as (? & ? & ?). split; [lia|done].
  - rewrite IH. split.
    + intros (? & ? & mid & ? & ?). by exists mid.
    + intros (mid & (? & ? & ?) & ?). split; [done|]. split; [done|by exists mid].
Qed.

Lemma rangesWithin_le text lo hi rs : rangesWithin text lo hi rs -> lo <= hi.
Proof.
  revert lo. induction rs as [|r rs IH]; intros lo; simpl; [done|].
  intros (Hlo & (Hr & _) & H%IH). lia.
Qed.

Lemma rangesWithin_weaken text lo hi hi' rs :
  rangesWithin text lo hi rs -> hi <= hi' -> rangesWithin text lo hi' rs.
Proof.
  revert lo. induction rs as [|r rs IH]; intros lo; simpl; [lia|].
  intros (? & ? & ?) ?. split; [done|]. split; [done|by apply IH].
Qed.

Lemma rangesWithin_Forall text lo hi rs :
  rangesWithin text lo hi rs ->
  Forall (fun r => lo <= CommentRange.pos r /\ CommentRange.end_ r <= hi
                   /\ commentAt text r) rs.
Proof.
  revert lo. induction rs as [|r rs IH]; intros lo; simpl; [constructor|].
  intros (Hlo & Hr & H). pose proof (rangesWithin_le _ _ _ _ H).
  constructor; [done|]. eapply Forall_impl; [by apply IH|].
  simpl. intros r' (? & ? & ?). destruct Hr as (? & _). split; [lia|done].
Qed.

Lemma rangesWithin_snoc text lo hi hi' rs r :
  rangesWithin text lo hi rs -> hi <= CommentRange.pos r -> commentAt text r ->
  CommentRange.end_ r <= hi' -> rangesWithin text lo hi' (rs ++ [r]).
Proof.
  intros H Hle Hr Hend. apply rangesWithin_app. exists hi. by split.
Qed.

(** Marking the pending range does not touch its place. *)
Lemma rangesWithin_marked text lo hi rs (p : option CommentRange.t) :
  rangesWithin text lo hi (rs ++ option_list p) ->
  rangesWithin text lo hi
    (rs ++ option_list (CommentRange.withTrailingNewLine <$> p)).
Proof. destruct p as [r|]; [|done]. rewrite !rangesWithin_app. done. Qed.

(** The opening of a TS comment is found by the scan of the prefix. *)
Lemma scanTsCommentPrefix_tsOpening text s q b :
  scanTsCommentPrefix (distance (text_length text) (s + 2)) text
    (text_length text) (s + 2) = (q, b) ->
  forall p, tsOpening text s p -> b = true /\ q = p.
Proof.
  intros Hscan p Hp. pose proof (tsOpening_bounds _ _ _ Hp) as [_ Hlt].
  pose proof Hp as (_ & _ & Hle & _).
  rewrite (scanTsCommentPrefix_complete text (text_length text) s p _ (s + 2) Hp)
    in Hscan; [|lia..].
  by injection Hscan as <- <-.
Qed.

Section CommentRanges.

Variable text : Text.
Variable trailing : bool.
Variable truthy : option (list CommentRange.t) -> bool.

Local Abbreviation State := (CommentIterator.State (option (list CommentRange.t))).
Local Abbreviation iterateTurn :=
  (CommentIterator.iterateTurn (option (list CommentRange.t)) truthy true text
     trailing CommentIterator.appendCommentRange).
Local Abbreviation iterateLoop :=
  (CommentIterator.iterateLoop (option (list CommentRange.t)) truthy true text
     trailing CommentIterator.appendCommentRange).
Local Abbreviation pos := (CommentIterator.pos (option (list CommentRange.t))).
Local Abbreviation accumulator :=
  (CommentIterator.accumulator (option (list CommentRange.t))).

Local Abbreviation gathered := (gathered text).

Lemma collect_gathered lo s q kind hasTrailingNewLine :
  gathered lo s ->
  commentAt text (CommentRange.mk kind (pos s) q hasTrailingNewLine) ->
  match CommentIterator.collect (option (list CommentRange.t)) truthy true
          CommentIterator.appendCommentRange s (pos s) q kind
          hasTrailingNewLine with
  | CommentIterator.Continue _ s' => gathered lo s' /\ pos s' = q
  | CommentIterator.Break _ s' => False
  | CommentIterator.Return _ _ => False
  end.
Proof.
  intros [Hs Hacc] Hr. unfold CommentIterator.collect.
  pose proof Hr as ((Hq & _) & _). simpl in Hq.
  destruct s as [p pend coll acc]. unfold rangesOf in Hs. simpl in *.
  destruct coll; simpl.
  - destruct pend as [r|]; simpl; (split; [|done]).
    + split; [|by destruct acc as [[|? ?]|]].
      unfold rangesOf. simpl.
      eapply rangesWithin_snoc; [exact Hs|done|done|simpl; lia].
    + split; [|done]. unfold rangesOf. simpl. simpl in Hs.
      rewrite app_nil_r in Hs.
      eapply rangesWithin_snoc; [exact Hs|done|done|simpl; lia].
  - split; [|done]. split; [|done]. unfold rangesOf. simpl.
    eapply rangesWithin_weaken; [exact Hs|lia].
Qed.

(** A turn keeps the invariant and, unless it breaks, moves forward. *)
Lemma iterateTurn_gathered lo s :
  gathered lo s ->
  match iterateTurn s with
  | CommentIterator.Continue _ s' =>
      gathered lo s' /\ pos s < pos s' <= text_length text
  | CommentIterator.Break _ s' =>
      gathered lo s' /\ pos s' <= Z.max (pos s) (text_length text)
  | CommentIterator.Return _ _ => False
  end.
Proof.
  intros Hs. pose proof Hs as [Hin Hacc].
  assert (forall p, pos s <= p -> gathered lo (CommentIterator.setPos _ p s))
    as Hset.
  { intros p Hp. split; [|done].
    eapply rangesWithin_weaken; [exact Hin|done]. }
  assert (forall p, pos s <= p ->
            gathered lo
              (CommentIterator.mkState _ p
                 (CommentRange.withTrailingNewLine
                    <$> CommentIterator.pending _ s)
                 true (accumulator s))) as Hmark.
  { intros p Hp. split; [|done]. unfold rangesOf. simpl.
    apply rangesWithin_marked. eapply rangesWithin_weaken; [exact Hin|done]. }
  unfold CommentIterator.iterateTurn.
  destruct (codeIs (charCodeAt text (pos s)) CharacterCodes.carriageReturn) eqn:E1.
  { apply codeIs_lt_length in E1.
    destruct (codeIs (charCodeAt text (pos s + 1)) CharacterCodes.lineFeed) eqn:E;
      [apply codeIs_lt_length in E|]; destruct trailing;
      first [split; [apply Hset; lia|simpl; lia]
            | split; [apply Hmark; lia|simpl; lia]]. }
  destruct (codeIs (charCodeAt text (pos s)) CharacterCodes.lineFeed) eqn:E2.
  { apply codeIs_lt_length in E2. destruct trailing;
      first [split; [apply Hset; lia|simpl; lia]
            | split; [apply Hmark; lia|simpl; lia]]. }
  destruct (isCase (charCodeAt text (pos s)) [CharacterCodes.tab;
              CharacterCodes.verticalTab; CharacterCodes.formFeed;
              CharacterCodes.space]) eqn:E3.
  { apply isCase_charCodeAt_lt in E3. split; [apply Hset; lia|simpl; lia]. }
  destruct (codeIs (charCodeAt text (pos s)) CharacterCodes.slash) eqn:E4.
  { destruct (codeIs (charCodeAt text (pos s + 1)) CharacterCodes.slash) eqn:E.
    { pose proof (codeIs_lt_length _ _ _ E) as Hlt.
      pose proof (scanToLineBreak_bounds
                    (distance (text_length text) (pos s + 2)) text (pos s + 2))
        as Hb.
      destruct (scanToLineBreak _ text (pos s + 2)) as [q nl]. simpl in Hb.
      pose proof (collect_gathered lo s q SingleLineCommentTrivia nl Hs) as Hc.
      assert (commentAt text
                (CommentRange.mk SingleLineCommentTrivia (pos s) q nl)) as Hr.
      { split; [simpl; lia|]. split; [done|]. by left. }
      specialize (Hc Hr).
      destruct (CommentIterator.collect _ _ _ _ s (pos s) q _ nl);
        [done|done|].
      destruct Hc as [Hc ->]. split; [done|lia]. }
    destruct (codeIs (charCodeAt text (pos s + 1)) CharacterCodes.asterisk) eqn:E';
      [|split; [done|lia]].
    pose proof (codeIs_lt_length _ _ _ E') as Hlt.
    unfold CommentIterator.iterateBlockComment.
    destruct (scanTsCommentPrefix _ text (text_length text) (pos s + 2))
      as [p b] eqn:Hp.
    pose proof (scanTsCommentPrefix_spec _ _ _ _ _ _ Hp) as (Hge & _ & Hb).
    pose proof (scanTsCommentPrefix_le _ _ _ _ _ _ Hp) as Hle.
    pose proof (scanTsCommentPrefix_tsOpening _ _ _ _ Hp) as Hts.
    assert (forall q0,
              (b = true -> colonCount text p = 3) ->
              pos s + 2 <= q0 <= text_length text ->
              match CommentIterator.collect _ truthy true
                      CommentIterator.appendCommentRange s (pos s) q0
                      MultiLineCommentTrivia false with
              | CommentIterator.Continue _ s' =>
                  gathered lo s' /\ pos s < pos s' <= text_length text
              | CommentIterator.Break _ s' =>
                  gathered lo s' /\ pos s' <= Z.max (pos s) (text_length text)
              | CommentIterator.Return _ _ => False
              end) as Hcollect.
    { intros q0 Hcount Hq0.
      pose proof (collect_gathered lo s q0 MultiLineCommentTrivia false Hs) as Hc.
      assert (commentAt text
                (CommentRange.mk MultiLineCommentTrivia (pos s) q0 false)) as Hr.
      { split; [simpl; lia|]. split; [done|]. right.
        split; [done|]. split; [done|].
        intros p' Hp'. destruct (Hts p' Hp') as [-> ->]. by apply Hcount. }
      specialize (Hc Hr).
      destruct (CommentIterator.collect _ _ _ _ s (pos s) q0 _ false);
        [done|done|].
      destruct Hc as [Hc ->]. split; [done|lia]. }
    destruct b; simpl.
    - destruct (Hb eq_refl) as [Hcolon Hplt].
      pose proof (colonCount_length _ _ Hcolon) as Hcc.
      destruct (colonCount_cases text p) as [Ec|[Ec|Ec]]; rewrite Ec in *; simpl.
      + split; [apply Hset; lia|simpl; lia].
      + split; [apply Hset; lia|simpl; lia].
      + destruct (scanBlockCommentBody _ text (text_length text) (p + 3))
          as [q ds] eqn:Hq.
        pose proof (scanBlockCommentBody_spec _ _ _ _ _ _ Hq) as [Hge' _].
        pose proof (scanBlockCommentBody_le _ _ _ _ _ _ Hq)
          as [[Hle' _]|(k & _ & Hk & [_ Hsl%codeIs_lt_length] & ->)]; simpl;
          (apply Hcollect; [done|lia]).
    - destruct (scanBlockCommentBody _ text (text_length text) p) as [q ds] eqn:Hq.
      pose proof (scanBlockCommentBody_spec _ _ _ _ _ _ Hq) as [Hge' _].
      pose proof (scanBlockCommentBody_le _ _ _ _ _ _ Hq)
        as [[Hle' _]|(k & _ & Hk & [_ Hsl%codeIs_lt_length] & ->)]; simpl;
        (apply Hcollect; [done|lia]). }
  destruct (charCodeAt text (pos s)) as [c|] eqn:Hc; [|split; [done|lia]].
  apply charCodeAt_Some_lt in Hc.
  destruct ((CharacterCodes.maxAsciiCharacter <? c) && isWhiteSpaceLike c);
    [|split; [done|lia]].
  split; [|simpl; lia]. split; [|done]. unfold rangesOf. simpl.
  destruct (isLineBreak c).
  - apply rangesWithin_marked. eapply rangesWithin_weaken; [exact Hin|lia].
  - eapply rangesWithin_weaken; [exact Hin|lia].
Qed.

Lemma iterateLoop_gathered lo fuel s :
  gathered lo s ->
  (distance (text_length text) (pos s) < fuel)%nat ->
  exists s', iterateLoop fuel s = Some (inr s') /\ gathered lo s'
             /\ pos s' <= Z.max (pos s) (text_length text).
Proof.
  revert s. induction fuel as [|fuel IH]; intros s Hs Hf; [lia|]. simpl.
  destruct ((0 <=? pos s) && (pos s <? text_length text)) eqn:E.
  2:{ exists s. split; [done|]. split; [done|lia]. }
  pose proof (iterateTurn_gathered lo s Hs) as Hturn.
  destruct (iterateTurn s) as [u|s'|s']; [done| |].
  - exists s'. by split.
  - destruct Hturn as [Hs' Hpos].
    destruct (IH s' Hs') as (s'' & -> & Hs'' & Hle); [unfold distance in *; lia|].
    exists s''. split; [done|]. split; [done|lia].
Qed.

End CommentRanges.

(** What the loop leaves is what [appendCommentRange] has made of it. *)
Lemma iterateCommentRanges_gathered text trailing truthy pos :
  exists res,
    CommentIterator.iterateCommentRanges (option (list CommentRange.t)) truthy
      true text trailing CommentIterator.appendCommentRange
      (CommentIterator.iterateFuel text pos) pos None = Some res
    /\ res <> Some []
    /\ rangesWithin text pos (Z.max pos (text_length text)) (default [] res).
Proof.
  unfold CommentIterator.iterateCommentRanges.
  set (pos' := if pos =? 0 then _ else pos).
  assert (pos <= pos' <= Z.max pos (text_length text)) as Hpos'.
  { unfold pos'. destruct (pos =? 0) eqn:E; [|lia]. apply Z.eqb_eq in E as ->.
    unfold getShebang. destruct (isShebangTrivia text); [|lia].
    unfold text_length. rewrite length_take. lia. }
  clearbody pos'.
  destruct (iterateLoop_gathered text trailing truthy pos
              (CommentIterator.iterateFuel text pos)
              (CommentIterator.mkState _ pos' None (trailing || (pos =? 0)) None))
    as (s & -> & [Hin Hacc] & Hle).
  { split; [|done]. unfold rangesOf. simpl. lia. }
  { unfold CommentIterator.iterateFuel, distance. simpl. lia. }
  simpl in Hle. eexists. split; [done|].
  destruct s as [p pend coll acc]. unfold rangesOf in Hin. simpl in *.
  destruct pend as [r|]; simpl in *.
  - split; [by destruct acc as [[|? ?]|]|].
    eapply rangesWithin_weaken; [exact Hin|lia].
  - split; [done|]. rewrite app_nil_r in Hin.
    eapply rangesWithin_weaken; [exact Hin|lia].
Qed.

(** X19.  [getLeadingCommentRanges] and [getTrailingCommentRanges] end, and
    what they return is [undefined] or a list that is not empty, of comments
    of the text behind [pos]: each range begins with the two characters of
    the kind it is given, ends inside the text, and begins where the one
    before it has ended or later.  A TS comment (one colon or two behind the
    opening and its spaces) is not among them. *)
Theorem comment_ranges_are_comments text pos :
  (exists res,
     CommentIterator.getLeadingCommentRanges text pos = Some res
     /\ res <> Some []
     /\ rangesWithin text pos (Z.max pos (text_length text)) (default [] res))
  /\ (exists res,
        CommentIterator.getTrailingCommentRanges text pos = Some res
        /\ res <> Some []
        /\ rangesWithin text pos (Z.max pos (text_length text)) (default [] res)).
Proof. split; apply iterateCommentRanges_gathered. Qed.

(** The search ends in a TS comment: behind its opening comes its body,
    which is code. *)
Example comment_ranges_before_ts_comment :
  CommentIterator.getLeadingCommentRanges
    (text_of "/* a */ /*:: T */ /* b */") 0
  = Some (Some [CommentRange.mk MultiLineCommentTrivia 0 7 false]).
Proof. vm_compute. reflexivity. Qed.

(** ** Comment ranges and [skipTrivia] *)

Lemma scanToLineBreak_scanLineComment fuel text pos :
  fst (scanToLineBreak fuel text pos) = scanLineComment fuel text (text_length text) pos.
Proof.
  revert pos. induction fuel as [|fuel IH]; intros pos; simpl; [done|].
  destruct (pos <? text_length text); [|done].
  destruct (isLineBreakAt text pos); [done|]. apply IH.
Qed.

Lemma skipTriviaLoop_ge text stopAfterLineBreak stopAtComments inJSDoc fuel pos c q :
  skipTriviaLoop text stopAfterLineBreak stopAtComments inJSDoc fuel pos c = Some q ->
  pos <= q.
Proof.
  revert pos c. induction fuel as [|fuel IH]; intros pos c; [done|]. simpl.
  pose proof (skipTriviaTurn_bounds text stopAfterLineBreak stopAtComments
                inJSDoc pos c) as H.
  destruct (skipTriviaTurn text stopAfterLineBreak stopAtComments inJSDoc pos c)
    as [q'|q' c'].
  - intros [= <-]. lia.
  - intros Hq%IH. lia.
Qed.

Section CommentsAreTrivia.

Variable U : Type.
Variable truthy : U -> bool.
Variable reduce : bool.
Variable text : Text.
Variable trailing : bool.
Variable cb : CommentRange.t -> U -> U.
Variable inJSDoc : bool.

Lemma collect_Continue s startPos q kind nl s' :
  CommentIterator.collect U truthy reduce cb s startPos q kind nl
  = CommentIterator.Continue U s' ->
  CommentIterator.pos U s' = q.
Proof.
  unfold CommentIterator.collect. destruct (CommentIterator.collecting U s).
  - destruct (CommentIterator.pending U s).
    + destruct (_ && _); [done|]. by intros [= <-].
    + by intros [= <-].
  - by intros [= <-].
Qed.

(** Where the search for comments goes on, [skipTrivia] goes on too, to the
    same position. *)
Lemma iterateTurn_skipTriviaTurn s s' c :
  CommentIterator.iterateTurn U truthy reduce text trailing cb s
  = CommentIterator.Continue U s' ->
  exists c',
    skipTriviaTurn text false false inJSDoc (CommentIterator.pos U s) c
    = TriviaContinue (CommentIterator.pos U s') c'.
Proof.
  unfold CommentIterator.iterateTurn, skipTriviaTurn.
  destruct (codeIs (charCodeAt text _) CharacterCodes.carriageReturn).
  { destruct trailing; [done|]. intros [= <-]. simpl. by eexists. }
  destruct (codeIs (charCodeAt text _) CharacterCodes.lineFeed).
  { destruct trailing; [done|]. intros [= <-]. simpl. by eexists. }
  destruct (isCase (charCodeAt text _) _).
  { intros [= <-]. simpl. by eexists. }
  destruct (codeIs (charCodeAt text _) CharacterCodes.slash).
  { destruct (codeIs (charCodeAt text (_ + 1)) CharacterCodes.slash).
    { pose proof (scanToLineBreak_scanLineComment
                    (distance (text_length text) (CommentIterator.pos U s + 2))
                    text (CommentIterator.pos U s + 2)) as Heq.
      destruct (scanToLineBreak _ text _) as [q nl]. simpl in Heq.
      intros ->%collect_Continue. rewrite Heq. by eexists. }
    destruct (codeIs (charCodeAt text (_ + 1)) CharacterCodes.asterisk); [|done].
    unfold CommentIterator.iterateBlockComment, skipTriviaBlockComment.
    destruct (scanTsCommentPrefix _ text (text_length text) _) as [p b].
    destruct (b && _); [done|].
    destruct (b && _); [intros [= <-]; simpl; by eexists|].
    intros ->%collect_Continue. by eexists. }
  destruct (isCase (charCodeAt text _) _) eqn:Hcase.
  { destruct (charCodeAt text _) as [x|]; [|done].
    replace ((CharacterCodes.maxAsciiCharacter <? x) && isWhiteSpaceLike x)
      with false; [done|].
    symmetry. apply andb_false_iff. left. apply Z.ltb_ge.
    unfold isCase, existsb in Hcase.
    rewrite !orb_true_iff, !Z.eqb_eq in Hcase.
    unfold CharacterCodes.maxAsciiCharacter, CharacterCodes.lessThan,
      CharacterCodes.bar, CharacterCodes.equals, CharacterCodes.greaterThan
      in *. lia. }
  destruct (codeIs (charCodeAt text _) CharacterCodes.hash) eqn:Hhash.
  { apply codeIs_eq in Hhash. rewrite Hhash. done. }
  destruct (codeIs (charCodeAt text _) CharacterCodes.asterisk) eqn:Hstar.
  { apply codeIs_eq in Hstar. rewrite Hstar. done. }
  destruct (charCodeAt text _) as [x|]; [|done].
  destruct (_ && _); [|done]. intros [= <-]. simpl. by eexists.
Qed.

End CommentsAreTrivia.

(** A break of the search leaves the ranges as they were. *)
Lemma iterateTurn_Break text trailing truthy s s' :
  CommentIterator.iterateTurn (option (list CommentRange.t)) truthy true text
    trailing CommentIterator.appendCommentRange s
  = CommentIterator.Break _ s' ->
  rangesOf s' = rangesOf s.
Proof.
  unfold CommentIterator.iterateTurn.
  repeat match goal with
         | |- context [if ?b then _ else _] => destruct b
         | |- context [match charCodeAt ?t ?p with _ => _ end] =>
             destruct (charCodeAt t p)
         | |- context [let '(_, _) := ?x in _] => destruct x
         end; try done; try (by intros [= <-]).
  all: unfold CommentIterator.iterateBlockComment, CommentIterator.collect.
  all: repeat match goal with
         | |- context [if ?b then _ else _] => destruct b
         | |- context [match ?x with Some _ => _ | None => _ end] => destruct x
         | |- context [let '(_, _) := ?x in _] => destruct x
         end; try done; try (by intros [= <-]).
Qed.

Lemma iterateLoop_before_skipTrivia text trailing truthy inJSDoc lo fuel s s' :
  gathered text lo s ->
  CommentIterator.iterateLoop (option (list CommentRange.t)) truthy true text
    trailing CommentIterator.appendCommentRange fuel s = Some (inr s') ->
  forall fuel' c q,
    skipTriviaLoop text false false inJSDoc fuel' (CommentIterator.pos _ s) c
    = Some q ->
    rangesWithin text lo q (rangesOf s').
Proof.
  revert s. induction fuel as [|fuel IH]; intros s Hs; [done|]. simpl.
  destruct (_ && _).
  2:{ intros [= <-] fuel' c q Hq%skipTriviaLoop_ge.
      destruct Hs as [Hs _]. by eapply rangesWithin_weaken. }
  pose proof (iterateTurn_gathered text trailing truthy lo s Hs) as Hturn.
  destruct (CommentIterator.iterateTurn _ truthy true text trailing _ s)
    as [u|s1|s1] eqn:Ht; [done| |].
  - intros [= <-] fuel' c q Hq%skipTriviaLoop_ge.
    rewrite (iterateTurn_Break _ _ _ _ _ Ht).
    destruct Hs as [Hs _]. by eapply rangesWithin_weaken.
  - intros Hloop fuel' c q Hq. destruct Hturn as [Hs1 _].
    destruct (iterateTurn_skipTriviaTurn _ truthy true text trailing _ inJSDoc
                _ _ c Ht) as [c' Hc'].
    destruct fuel' as [|fuel']; [done|]. simpl in Hq. rewrite Hc' in Hq.
    by eapply (IH s1 Hs1 Hloop).
Qed.

Lemma iterateCommentRanges_before_skipTrivia positionIsSynthesized text trailing
    truthy inJSDoc pos fuel q res :
  positionIsSynthesized pos = false ->
  skipTrivia positionIsSynthesized text false false inJSDoc fuel pos = Some q ->
  CommentIterator.iterateCommentRanges (option (list CommentRange.t)) truthy
    true text trailing CommentIterator.appendCommentRange
    (CommentIterator.iterateFuel text pos) pos None = Some res ->
  rangesWithin text pos q (default [] res).
Proof.
  intros Hsyn. unfold skipTrivia. rewrite Hsyn. intros Hq.
  unfold CommentIterator.iterateCommentRanges.
  set (pos' := if pos =? 0 then _ else pos).
  assert (pos <= pos'
          /\ exists fuel' c,
               skipTriviaLoop text false false inJSDoc fuel' pos' c = Some q)
    as (Hle & fuel' & c & Hq').
  { unfold pos'. destruct (pos =? 0) eqn:E; [|split; [lia|by eauto]].
    apply Z.eqb_eq in E as ->.
    unfold getShebang. destruct (isShebangTrivia text) eqn:Hsh;
      [|split; [lia|by eauto]].
    pose proof Hsh as Hsh'. unfold isShebangTrivia in Hsh'.
    apply andb_true_iff in Hsh' as [Hhash Hbang].
    pose proof (codeIs_lt_length _ _ _ Hbang) as Hlen.
    pose proof (regexDotStar_bounds (drop 2 text)) as Hb.
    rewrite length_drop in Hb.
    assert (text_length (take (Z.to_nat (2 + regexDotStar (drop 2 text))) text)
            = scanShebangTrivia text 0) as ->.
    { unfold text_length, scanShebangTrivia in *. rewrite length_take. lia. }
    split; [unfold scanShebangTrivia; lia|].
    destruct fuel as [|fuel]; [done|]. simpl in Hq.
    assert (skipTriviaTurn text false false inJSDoc 0 false
            = TriviaContinue (scanShebangTrivia text 0) false) as Hturn.
    { unfold skipTriviaTurn. apply codeIs_eq in Hhash. rewrite Hhash.
      simpl. by rewrite Hsh. }
    rewrite Hturn in Hq. by eauto. }
  clearbody pos'.
  assert (gathered text pos
            (CommentIterator.mkState _ pos' None (trailing || (pos =? 0)) None))
    as Hstart by (split; [unfold rangesOf; simpl; lia|done]).
  destruct (CommentIterator.iterateLoop _ truthy true text trailing _ _ _)
    as [[u|s]|] eqn:Hloop; [| |done].
  - exfalso.
    destruct (iterateLoop_gathered text trailing truthy pos
                (CommentIterator.iterateFuel text pos) _ Hstart)
      as (s & Hs & _).
    { unfold CommentIterator.iterateFuel, distance. simpl. lia. }
    congruence.
  - intros [= <-].
    pose proof (iterateLoop_before_skipTrivia text trailing truthy inJSDoc pos
                  _ _ _ Hstart Hloop fuel' c q Hq') as Hin.
    destruct s as [p pend coll acc]. unfold rangesOf in Hin. simpl in *.
    destruct pend as [r|]; simpl in *; [done|]. by rewrite app_nil_r in Hin.
Qed.

(** X20.  The comments that [getLeadingCommentRanges] and
    [getTrailingCommentRanges] find behind a position are trivia for
    [skipTrivia]: called on the same position (which is not synthesized),
    stopping neither behind a line break nor at comments, it returns a
    position at or behind the end of each of them. *)
Theorem comment_ranges_are_skipped positionIsSynthesized text inJSDoc pos fuel q :
  positionIsSynthesized pos = false ->
  skipTrivia positionIsSynthesized text false false inJSDoc fuel pos = Some q ->
  forall rs,
    CommentIterator.getLeadingCommentRanges text pos = Some (Some rs)
    \/ CommentIterator.getTrailingCommentRanges text pos = Some (Some rs) ->
    Forall (fun r => pos <= CommentRange.pos r /\ CommentRange.end_ r <= q) rs.
Proof.
  intros Hsyn Hq rs Hrs.
  assert (rangesWithin text pos q rs) as Hin.
  { destruct Hrs as [Hrs|Hrs].
    - apply (iterateCommentRanges_before_skipTrivia _ _ _ _ _ _ _ _ _ Hsyn Hq Hrs).
    - apply (iterateCommentRanges_before_skipTrivia _ _ _ _ _ _ _ _ _ Hsyn Hq Hrs). }
  eapply Forall_impl; [by eapply rangesWithin_Forall|].
  simpl. by intros r (? & ? & _).
Qed.

Lemma comment_ranges_are_skipped_witness :
  skipTrivia (fun p => p <? 0) (text_of " /* a */ // b") false false false 20 0
  = Some 13
  /\ Forall (fun r => 0 <= CommentRange.pos r /\ CommentRange.end_ r <= 13)
       [CommentRange.mk MultiLineCommentTrivia 1 8 false;
        CommentRange.mk SingleLineCommentTrivia 9 13 false].
Proof.
  assert (skipTrivia (fun p => p <? 0) (text_of " /* a */ // b") false false
            false 20 0 = Some 13) as H by (vm_compute; reflexivity).
  split; [exact H|].
  apply (comment_ranges_are_skipped (fun p => p <? 0)
           (text_of " /* a */ // b") false 0 20 13 eq_refl H).
  left. vm_compute. reflexivity.
Defined.

(** ** Trailing and leading comments *)

Lemma iterateLoop_keeps_gathered text trailing truthy lo fuel s s' :
  gathered text lo s ->
  CommentIterator.iterateLoop (option (list CommentRange.t)) truthy true text
    trailing CommentIterator.appendCommentRange fuel s = Some (inr s') ->
  gathered text lo s'.
Proof.
  revert s. induction fuel as [|fuel IH]; intros s Hs; [done|]. simpl.
  destruct (_ && _); [|by intros [= <-]].
  pose proof (iterateTurn_gathered text trailing truthy lo s Hs) as Hturn.
  destruct (CommentIterator.iterateTurn _ truthy true text trailing _ s)
    as [u|s1|s1]; [done| |].
  - intros [= <-]. by destruct Hturn.
  - apply IH. by destruct Hturn.
Qed.

(** A turn of the search for trailing comments, beside the turn at the same
    position of a search for leading comments that has not begun to
    collect. *)
Lemma iterateTurn_trailing_leading text truthy p pend acc :
  match
    CommentIterator.iterateTurn (option (list CommentRange.t)) truthy true text
      true CommentIterator.appendCommentRange
      (CommentIterator.mkState _ p pend true acc),
    CommentIterator.iterateTurn (option (list CommentRange.t)) truthy true text
      false CommentIterator.appendCommentRange
      (CommentIterator.mkState _ p None false None)
  with
  | CommentIterator.Continue _ sT, CommentIterator.Continue _ sL =>
      CommentIterator.collecting _ sT = true
      /\ sL = CommentIterator.mkState _ (CommentIterator.pos _ sT) None false None
  | CommentIterator.Break _ sT, CommentIterator.Continue _ sL =>
      exists p', p <= p' /\ sL = CommentIterator.mkState _ p' None true None
  | CommentIterator.Break _ sT, CommentIterator.Break _ sL => rangesOf sL = []
  | _, _ => False
  end.
Proof.
  unfold CommentIterator.iterateTurn. simpl.
  destruct (codeIs (charCodeAt text p) CharacterCodes.carriageReturn).
  { eexists. split; [|done]. destruct (codeIs _ _); lia. }
  destruct (codeIs (charCodeAt text p) CharacterCodes.lineFeed).
  { eexists. split; [|done]. lia. }
  destruct (isCase (charCodeAt text p) _); [done|].
  destruct (codeIs (charCodeAt text p) CharacterCodes.slash).
  { destruct (codeIs (charCodeAt text (p + 1)) CharacterCodes.slash).
    { destruct (scanToLineBreak _ text (p + 2)) as [q nl].
      unfold CommentIterator.collect. simpl. by destruct pend. }
    destruct (codeIs (charCodeAt text (p + 1)) CharacterCodes.asterisk); [|done].
    unfold CommentIterator.iterateBlockComment.
    destruct (scanTsCommentPrefix _ text (text_length text) (p + 2)) as [q b].
    destruct (b && _); [done|]. destruct (b && _); [done|].
    unfold CommentIterator.collect. simpl. by destruct pend. }
  destruct (charCodeAt text p) as [c|]; [|done].
  destruct (_ && _); [|done]. simpl. split; [done|]. by destruct (isLineBreak c).
Qed.

Lemma iterateLoop_trailing_leading text truthy lo fuel p pend acc sT sL :
  gathered text lo (CommentIterator.mkState _ p pend true acc) ->
  CommentIterator.iterateLoop (option (list CommentRange.t)) truthy true text
    true CommentIterator.appendCommentRange fuel
    (CommentIterator.mkState _ p pend true acc) = Some (inr sT) ->
  CommentIterator.iterateLoop (option (list CommentRange.t)) truthy true text
    false CommentIterator.appendCommentRange fuel
    (CommentIterator.mkState _ p None false None) = Some (inr sL) ->
  exists mid hi,
    rangesWithin text lo mid (rangesOf sT) /\ rangesWithin text mid hi (rangesOf sL).
Proof.
  revert p pend acc. induction fuel as [|fuel IH]; intros p pend acc Hs; [done|].
  simpl. destruct (_ && _).
  2:{ intros [= <-] [= <-]. exists p, p. split; [by destruct Hs|].
      unfold rangesOf. simpl. lia. }
  pose proof (iterateTurn_trailing_leading text truthy p pend acc) as Hboth.
  pose proof (iterateTurn_gathered text true truthy lo _ Hs) as HT.
  destruct (CommentIterator.iterateTurn _ truthy true text true _ _)
    as [uT|sT1|sT1] eqn:HturnT; [done| |].
  - pose proof (iterateTurn_Break _ _ _ _ _ HturnT) as Hsame.
    destruct (CommentIterator.iterateTurn _ truthy true text false _ _)
      as [uL|sL1|sL1]; [done| |].
    + intros [= <-] [= <-]. exists p, p. rewrite Hsame, Hboth.
      split; [by destruct Hs|simpl; lia].
    + destruct Hboth as (p' & Hp' & ->). intros [= <-] HL.
      apply (iterateLoop_keeps_gathered text false truthy p') in HL as [HL _].
      2:{ split; [|done]. unfold rangesOf. simpl. lia. }
      exists p', (CommentIterator.pos _ sL). rewrite Hsame. split; [|done].
      destruct Hs as [Hs _]. simpl in Hs. by eapply rangesWithin_weaken.
  - destruct (CommentIterator.iterateTurn _ truthy true text false _ _)
      as [uL|sL1|sL1]; [done|done|].
    destruct Hboth as [Hcoll ->]. destruct HT as [HT _].
    destruct sT1 as [p1 pend1 coll1 acc1]. simpl in *. subst coll1.
    by apply IH.
Qed.

(** X21.  Behind a position other than 0, no comment is both a trailing
    and a leading one: every range of [getTrailingCommentRanges] ends
    before a range of [getLeadingCommentRanges] begins, or where it
    begins. *)
Theorem trailing_before_leading text pos trailingRanges leadingRanges :
  pos <> 0 ->
  CommentIterator.getTrailingCommentRanges text pos = Some trailingRanges ->
  CommentIterator.getLeadingCommentRanges text pos = Some leadingRanges ->
  forall t l,
    t ∈ default [] trailingRanges -> l ∈ default [] leadingRanges ->
    CommentRange.end_ t <= CommentRange.pos l.
Proof.
  intros Hpos. unfold CommentIterator.getTrailingCommentRanges,
    CommentIterator.getLeadingCommentRanges,
    CommentIterator.reduceEachTrailingCommentRange,
    CommentIterator.reduceEachLeadingCommentRange,
    CommentIterator.iterateCommentRanges.
  replace (pos =? 0) with false by lia. cbv beta iota delta [orb].
  destruct (CommentIterator.iterateLoop _ _ true text true _ _ _)
    as [[uT|sT]|] eqn:HT; [| |done].
  { exfalso.
    destruct (iterateLoop_gathered text true (fun _ => true) pos
                (CommentIterator.iterateFuel text pos)
                (CommentIterator.mkState _ pos None true None))
      as (s & Hs & _); [split; [unfold rangesOf; simpl; lia|done]| |congruence].
    unfold CommentIterator.iterateFuel, distance. simpl. lia. }
  destruct (CommentIterator.iterateLoop _ _ true text false _ _ _)
    as [[uL|sL]|] eqn:HL; [| |done].
  { exfalso.
    destruct (iterateLoop_gathered text false (fun _ => true) pos
                (CommentIterator.iterateFuel text pos)
                (CommentIterator.mkState _ pos None false None))
      as (s & Hs & _); [split; [unfold rangesOf; simpl; lia|done]| |congruence].
    unfold CommentIterator.iterateFuel, distance. simpl. lia. }
  intros [= <-] [= <-] t l Ht Hl.
  destruct (iterateLoop_trailing_leading text (fun _ => true) pos
              (CommentIterator.iterateFuel text pos) pos None None sT sL)
    as (mid & hi & HinT & HinL); [|done|done|].
  { split; [unfold rangesOf; simpl; lia|done]. }
  assert (default [] (match CommentIterator.pending _ sT with
                      | Some r =>
                          CommentIterator.appendCommentRange r
                            (CommentIterator.accumulator _ sT)
                      | None => CommentIterator.accumulator _ sT
                      end) = rangesOf sT) as HeqT.
  { unfold rangesOf. destruct (CommentIterator.pending _ sT); simpl; [done|].
    by rewrite app_nil_r. }
  assert (default [] (match CommentIterator.pending _ sL with
                      | Some r =>
                          CommentIterator.appendCommentRange r
                            (CommentIterator.accumulator _ sL)
                      | None => CommentIterator.accumulator _ sL
                      end) = rangesOf sL) as HeqL.
  { unfold rangesOf. destruct (CommentIterator.pending _ sL); simpl; [done|].
    by rewrite app_nil_r. }
  rewrite HeqT in Ht. rewrite HeqL in Hl.
  apply rangesWithin_Forall in HinT, HinL. rewrite Forall_forall in HinT, HinL.
  destruct (HinT t Ht) as (_ & ? & _). destruct (HinL l Hl) as (? & _). lia.
Qed.

Lemma trailing_before_leading_witness :
  2 <> 0
  /\ forall t l,
       t ∈ [CommentRange.mk MultiLineCommentTrivia 3 10 false] ->
       l ∈ [CommentRange.mk SingleLineCommentTrivia 11 17 false] ->
       CommentRange.end_ t <= CommentRange.pos l.
Proof.
  assert (2 <> 0) as H by lia. split; [exact H|].
  apply (trailing_before_leading
           (text_of "a; /* t */" ++ [10] ++ text_of "// l x") 2
           (Some [CommentRange.mk MultiLineCommentTrivia 3 10 false])
           (Some [CommentRange.mk SingleLineCommentTrivia 11 17 false]) H).
  - vm_compute. reflexivity.
  - vm_compute. reflexivity.
Defined.

(** At position 0 every comment is collected, so the trailing ones are
    leading ones too. *)
Example trailing_is_leading_at_0 :
  CommentIterator.getTrailingCommentRanges (text_of "/* a */ x") 0
  = Some (Some [CommentRange.mk MultiLineCommentTrivia 0 7 false])
  /\ CommentIterator.getLeadingCommentRanges (text_of "/* a */ x") 0
     = Some (Some [CommentRange.mk MultiLineCommentTrivia 0 7 false]).
Proof. split; vm_compute; reflexivity. Qed.

(** ** Reducing over the comment ranges *)

Section ReduceEach.

Variable U : Type.
Variable truthy : U -> bool.
Variable truthy' : option (list CommentRange.t) -> bool.
Variable text : Text.
Variable trailing : bool.
Variable cb : CommentRange.t -> U -> U.
Variable initial : U.

Local Abbreviation folded :=
  (fun rs : option (list CommentRange.t) =>
     foldl (fun a r => cb r a) initial (default [] rs)).

(** The state of a reduction with [cb], beside the state of the gathering
    of the ranges. *)
Local Abbreviation lifted :=
  (fun s : CommentIterator.State (option (list CommentRange.t)) =>
     CommentIterator.mkState U (CommentIterator.pos _ s)
       (CommentIterator.pending _ s) (CommentIterator.collecting _ s)
       (folded (CommentIterator.accumulator _ s))).

Lemma iterateTurn_folded s :
  match
    CommentIterator.iterateTurn U truthy true text trailing cb (lifted s),
    CommentIterator.iterateTurn (option (list CommentRange.t)) truthy' true text
      trailing CommentIterator.appendCommentRange s
  with
  | CommentIterator.Continue _ sU, CommentIterator.Continue _ sL => sU = lifted sL
  | CommentIterator.Break _ sU, CommentIterator.Break _ sL => sU = lifted sL
  | _, _ => False
  end.
Proof.
  destruct s as [p pend coll acc].
  assert (forall q kind nl,
            match
              CommentIterator.collect U truthy true cb
                (CommentIterator.mkState U p pend coll (folded acc)) p q kind nl,
              CommentIterator.collect (option (list CommentRange.t)) truthy' true
                CommentIterator.appendCommentRange
                (CommentIterator.mkState _ p pend coll acc) p q kind nl
            with
            | CommentIterator.Continue _ sU, CommentIterator.Continue _ sL =>
                sU = lifted sL
            | CommentIterator.Break _ sU, CommentIterator.Break _ sL =>
                sU = lifted sL
            | _, _ => False
            end) as Hcollect.
  { intros q kind nl. unfold CommentIterator.collect. simpl.
    destruct coll; [|done]. destruct pend as [r|]; simpl; [|done].
    by rewrite foldl_app. }
  unfold CommentIterator.iterateTurn. simpl.
  destruct (codeIs (charCodeAt text p) CharacterCodes.carriageReturn).
  { by destruct trailing. }
  destruct (codeIs (charCodeAt text p) CharacterCodes.lineFeed).
  { by destruct trailing. }
  destruct (isCase (charCodeAt text p) _); [done|].
  destruct (codeIs (charCodeAt text p) CharacterCodes.slash).
  { destruct (codeIs (charCodeAt text (p + 1)) CharacterCodes.slash).
    { destruct (scanToLineBreak _ text (p + 2)) as [q nl]. apply Hcollect. }
    destruct (codeIs (charCodeAt text (p + 1)) CharacterCodes.asterisk); [|done].
    unfold CommentIterator.iterateBlockComment.
    destruct (scanTsCommentPrefix _ text (text_length text) (p + 2)) as [q b].
    destruct (b && _); [done|]. destruct (b && _); [done|]. apply Hcollect. }
  destruct (charCodeAt text p) as [c|]; [|done].
  by destruct (_ && _).
Qed.

Lemma iterateLoop_folded fuel s s' :
  CommentIterator.iterateLoop (option (list CommentRange.t)) truthy' true text
    trailing CommentIterator.appendCommentRange fuel s = Some (inr s') ->
  CommentIterator.iterateLoop U truthy true text trailing cb fuel (lifted s)
  = Some (inr (lifted s')).
Proof.
  revert s. induction fuel as [|fuel IH]; intros s; [done|]. simpl.
  destruct (_ && _); [|by intros [= <-]].
  pose proof (iterateTurn_folded s) as Hturn.
  destruct (CommentIterator.iterateTurn _ truthy' true text trailing _ s)
    as [u|s1|s1];
    destruct (CommentIterator.iterateTurn U truthy true text trailing cb _)
      as [u'|s1'|s1']; try done.
  - intros [= <-]. by subst.
  - subst. apply IH.
Qed.

Lemma iterateCommentRanges_folded pos :
  CommentIterator.iterateCommentRanges U truthy true text trailing cb
    (CommentIterator.iterateFuel text pos) pos initial
  = folded
      <$> CommentIterator.iterateCommentRanges (option (list CommentRange.t))
            truthy' true text trailing CommentIterator.appendCommentRange
            (CommentIterator.iterateFuel text pos) pos None.
Proof.
  destruct (iterateCommentRanges_gathered text trailing truthy' pos)
    as (res & Hres & _).
  rewrite Hres. revert Hres. unfold CommentIterator.iterateCommentRanges.
  set (pos' := if pos =? 0 then _ else pos). clearbody pos'.
  destruct (CommentIterator.iterateLoop _ truthy' true text trailing _ _ _)
    as [[u|s]|] eqn:Hloop; [| |done].
  - intros _. exfalso. revert Hloop.
    generalize (CommentIterator.iterateFuel text pos).
    generalize (CommentIterator.mkState (option (list CommentRange.t)) pos'
                  None (trailing || (pos =? 0)) None).
    intros s fuel. revert s. induction fuel as [|fuel IH]; intros s; [done|].
    simpl. destruct (_ && _); [|done].
    pose proof (iterateTurn_folded s) as Hturn.
    destruct (CommentIterator.iterateTurn _ truthy' true text trailing _ s)
      as [u'|s1|s1]; [|done|apply IH].
    by destruct (CommentIterator.iterateTurn U truthy true text trailing cb _).
  - intros [= <-].
    assert (CommentIterator.iterateLoop U truthy true text trailing cb
              (CommentIterator.iterateFuel text pos)
              (CommentIterator.mkState U pos' None (trailing || (pos =? 0))
                 initial)
            = Some (inr (lifted s))) as ->
      by exact (iterateLoop_folded _ _ _ Hloop).
    simpl. f_equal.
    destruct (CommentIterator.pending _ s) as [r|]; simpl; [|done].
    by rewrite foldl_app.
Qed.

End ReduceEach.

(** X22.  [reduceEachLeadingCommentRange] and
    [reduceEachTrailingCommentRange] are the fold of the callback, from the
    initial value, over the ranges that [getLeadingCommentRanges] and
    [getTrailingCommentRanges] return, in their order. *)
Theorem reduceEach_is_a_fold {U} text pos (cb : CommentRange.t -> U -> U) initial :
  CommentIterator.reduceEachLeadingCommentRange text pos cb initial
  = (fun rs => foldl (fun a r => cb r a) initial (default [] rs))
      <$> CommentIterator.getLeadingCommentRanges text pos
  /\ CommentIterator.reduceEachTrailingCommentRange text pos cb initial
     = (fun rs => foldl (fun a r => cb r a) initial (default [] rs))
         <$> CommentIterator.getTrailingCommentRanges text pos.
Proof. split; apply iterateCommentRanges_folded. Qed.

(** ** Searching the comment ranges *)

Lemma firstTruthy_falsy {U} (truthy : U -> bool) l :
  Forall (fun u => truthy u = false) l -> firstTruthy truthy l = last l.
Proof.
  induction 1 as [|u l Hu Hl IH]; [done|]. simpl. rewrite Hu.
  destruct l as [|u' l]; [done|]. exact IH.
Qed.

Lemma firstTruthy_app {U} (truthy : U -> bool) l u rest :
  Forall (fun u => truthy u = false) l ->
  truthy u = true \/ rest = [] ->
  firstTruthy truthy (l ++ u :: rest) = Some u.
Proof.
  intros Hl Hu. induction Hl as [|u' l Hu' Hl IH]; simpl.
  - destruct (truthy u) eqn:E; [done|]. by destruct Hu as [?| ->].
  - rewrite Hu'. destruct (l ++ u :: rest) eqn:E; [|done].
    by destruct l.
Qed.

(** A turn of the gathering adds to what has been handed over, at its end. *)
Lemma iterateTurn_extends text trailing truthy s :
  match
    CommentIterator.iterateTurn (option (list CommentRange.t)) truthy true text
      trailing CommentIterator.appendCommentRange s
  with
  | CommentIterator.Continue _ s' | CommentIterator.Break _ s' =>
      exists rest,
        default [] (CommentIterator.accumulator _ s')
        = default [] (CommentIterator.accumulator _ s) ++ rest
  | CommentIterator.Return _ _ => False
  end.
Proof.
  destruct s as [p pend coll acc].
  assert (forall q kind nl,
            match
              CommentIterator.collect (option (list CommentRange.t)) truthy true
                CommentIterator.appendCommentRange
                (CommentIterator.mkState _ p pend coll acc) p q kind nl
            with
            | CommentIterator.Continue _ s' | CommentIterator.Break _ s' =>
                exists rest,
                  default [] (CommentIterator.accumulator _ s')
                  = default [] acc ++ rest
            | CommentIterator.Return _ _ => False
            end) as Hcollect.
  { intros q kind nl. unfold CommentIterator.collect. simpl.
    destruct coll; simpl; [|by exists []; rewrite app_nil_r].
    destruct pend as [r|]; simpl; [by eexists|by exists []; rewrite app_nil_r]. }
  assert (exists rest : list CommentRange.t, default [] acc = default [] acc ++ rest)
    as Hsame by (by exists []; rewrite app_nil_r).
  unfold CommentIterator.iterateTurn. simpl.
  destruct (codeIs (charCodeAt text p) CharacterCodes.carriageReturn).
  { by destruct trailing. }
  destruct (codeIs (charCodeAt text p) CharacterCodes.lineFeed).
  { by destruct trailing. }
  destruct (isCase (charCodeAt text p) _); [done|].
  destruct (codeIs (charCodeAt text p) CharacterCodes.slash).
  { destruct (codeIs (charCodeAt text (p + 1)) CharacterCodes.slash).
    { destruct (scanToLineBreak _ text (p + 2)) as [q nl]. apply Hcollect. }
    destruct (codeIs (charCodeAt text (p + 1)) CharacterCodes.asterisk); [|done].
    unfold CommentIterator.iterateBlockComment.
    destruct (scanTsCommentPrefix _ text (text_length text) (p + 2)) as [q b].
    destruct (b && _); [done|]. destruct (b && _); [done|]. apply Hcollect. }
  destruct (charCodeAt text p) as [c|]; [|done].
  by destruct (_ && _).
Qed.

Lemma iterateLoop_extends text trailing truthy fuel s s' :
  CommentIterator.iterateLoop (option (list CommentRange.t)) truthy true text
    trailing CommentIterator.appendCommentRange fuel s = Some (inr s') ->
  exists rest, rangesOf s' = default [] (CommentIterator.accumulator _ s) ++ rest.
Proof.
  revert s. induction fuel as [|fuel IH]; intros s; [done|]. simpl.
  destruct (_ && _); [|intros [= <-]; by eexists].
  pose proof (iterateTurn_extends text trailing truthy s) as Hturn.
  destruct (CommentIterator.iterateTurn _ truthy true text trailing _ s)
    as [u|s1|s1]; [done| |].
  - intros [= <-]. destruct Hturn as (rest & Hrest). unfold rangesOf.
    rewrite Hrest, <- app_assoc. by eexists.
  - intros (rest & Hrest)%IH. destruct Hturn as (rest' & Hrest').
    rewrite Hrest, Hrest', <- app_assoc. by eexists.
Qed.

Section ForEach.

Variable U : Type.
Variable truthy : U -> bool.
Variable truthy' : option (list CommentRange.t) -> bool.
Variable text : Text.
Variable trailing : bool.
Variable cb : CommentRange.t -> U.

Local Abbreviation falsy := (fun r : CommentRange.t => truthy (cb r) = false).

(** The state of a search with [cb], beside the state of the gathering of
    the ranges. *)
Local Abbreviation searching :=
  (fun s : CommentIterator.State (option (list CommentRange.t)) =>
     CommentIterator.mkState (option U) (CommentIterator.pos _ s)
       (CommentIterator.pending _ s) (CommentIterator.collecting _ s)
       (last (cb <$> default [] (CommentIterator.accumulator _ s)))).

Local Abbreviation searchTurn :=
  (CommentIterator.iterateTurn (option U) (from_option truthy false) false text
     trailing (fun r _ => Some (cb r))).

Local Abbreviation searchLoop :=
  (CommentIterator.iterateLoop (option U) (from_option truthy false) false text
     trailing (fun r _ => Some (cb r))).

Lemma iterateTurn_searching s :
  Forall falsy (default [] (CommentIterator.accumulator _ s)) ->
  match
    searchTurn (searching s),
    CommentIterator.iterateTurn (option (list CommentRange.t)) truthy' true text
      trailing CommentIterator.appendCommentRange s
  with
  | CommentIterator.Continue _ sU, CommentIterator.Continue _ sL
  | CommentIterator.Break _ sU, CommentIterator.Break _ sL =>
      sU = searching sL
      /\ Forall falsy (default [] (CommentIterator.accumulator _ sL))
  | CommentIterator.Return _ u, CommentIterator.Continue _ sL =>
      exists c r,
        CommentIterator.accumulator _ sL = Some (c ++ [r])
        /\ Forall falsy c /\ truthy (cb r) = true /\ u = Some (cb r)
  | _, _ => False
  end.
Proof.
  destruct s as [p pend coll acc]. simpl. intros Hfalsy.
  assert (forall q kind nl,
            match
              CommentIterator.collect (option U) (from_option truthy false) false
                (fun r _ => Some (cb r))
                (CommentIterator.mkState (option U) p pend coll
                   (last (cb <$> default [] acc))) p q kind nl,
              CommentIterator.collect (option (list CommentRange.t)) truthy' true
                CommentIterator.appendCommentRange
                (CommentIterator.mkState _ p pend coll acc) p q kind nl
            with
            | CommentIterator.Continue _ sU, CommentIterator.Continue _ sL
            | CommentIterator.Break _ sU, CommentIterator.Break _ sL =>
                sU = searching sL
                /\ Forall falsy (default [] (CommentIterator.accumulator _ sL))
            | CommentIterator.Return _ u, CommentIterator.Continue _ sL =>
                exists c r,
                  CommentIterator.accumulator _ sL = Some (c ++ [r])
                  /\ Forall falsy c /\ truthy (cb r) = true /\ u = Some (cb r)
            | _, _ => False
            end) as Hcollect.
  { intros q kind nl. unfold CommentIterator.collect. simpl.
    destruct coll; [|done]. destruct pend as [r|]; simpl; [|done].
    destruct (truthy (cb r)) eqn:Hr; simpl.
    - by exists (default [] acc), r.
    - split.
      + f_equal. rewrite fmap_app. symmetry. apply last_snoc.
      + apply Forall_app. split; [done|]. by apply Forall_singleton. }
  unfold CommentIterator.iterateTurn. simpl.
  destruct (codeIs (charCodeAt text p) CharacterCodes.carriageReturn).
  { by destruct trailing. }
  destruct (codeIs (charCodeAt text p) CharacterCodes.lineFeed).
  { by destruct trailing. }
  destruct (isCase (charCodeAt text p) _); [done|].
  destruct (codeIs (charCodeAt text p) CharacterCodes.slash).
  { destruct (codeIs (charCodeAt text (p + 1)) CharacterCodes.slash).
    { destruct (scanToLineBreak _ text (p + 2)) as [q nl]. apply Hcollect. }
    destruct (codeIs (charCodeAt text (p + 1)) CharacterCodes.asterisk); [|done].
    unfold CommentIterator.iterateBlockComment.
    destruct (scanTsCommentPrefix _ text (text_length text) (p + 2)) as [q b].
    destruct (b && _); [done|]. destruct (b && _); [done|]. apply Hcollect. }
  destruct (charCodeAt text p) as [c|]; [|done].
  by destruct (_ && _).
Qed.

Lemma iterateLoop_searching fuel s s' :
  Forall falsy (default [] (CommentIterator.accumulator _ s)) ->
  CommentIterator.iterateLoop (option (list CommentRange.t)) truthy' true text
    trailing CommentIterator.appendCommentRange fuel s = Some (inr s') ->
  exists out,
    searchLoop fuel (searching s) = Some out
    /\ match out with
       | inl u => u
       | inr sU =>
           match CommentIterator.pending _ sU with
           | Some r => Some (cb r)
           | None => CommentIterator.accumulator _ sU
           end
       end
       = firstTruthy truthy (cb <$> rangesOf s').
Proof.
  revert s. induction fuel as [|fuel IH]; intros s Hs; [done|]. simpl.
  assert (forall sL : CommentIterator.State (option (list CommentRange.t)),
            Forall falsy (default [] (CommentIterator.accumulator _ sL)) ->
            match CommentIterator.pending _ sL with
            | Some r => Some (cb r)
            | None => last (cb <$> default [] (CommentIterator.accumulator _ sL))
            end
            = firstTruthy truthy (cb <$> rangesOf sL)) as Hend.
  { intros sL HsL. unfold rangesOf. rewrite fmap_app.
    destruct (CommentIterator.pending _ sL) as [r|]; simpl.
    - symmetry. apply firstTruthy_app; [|by right].
      by apply Forall_fmap.
    - rewrite app_nil_r. symmetry. apply firstTruthy_falsy. by apply Forall_fmap. }
  destruct (_ && _).
  2:{ intros [= <-]. eexists. split; [done|]. by apply Hend. }
  pose proof (iterateTurn_searching s Hs) as Hturn.
  destruct (CommentIterator.iterateTurn _ truthy' true text trailing _ s)
    as [u|s1|s1];
    destruct (searchTurn _) as [u'|s1'|s1']; try done.
  - intros [= <-]. destruct Hturn as [-> Hs1]. eexists. split; [done|].
    by apply Hend.
  - destruct Hturn as (c & r & Hacc & Hc & Hr & ->).
    intros (rest & ->)%iterateLoop_extends. rewrite Hacc. simpl.
    eexists. split; [done|]. simpl.
    rewrite <- app_assoc, fmap_app. simpl. symmetry.
    apply firstTruthy_app; [by apply Forall_fmap|by left].
  - destruct Hturn as [-> Hs1]. by apply IH.
Qed.

Lemma iterateCommentRanges_searching pos :
  CommentIterator.iterateCommentRanges (option U) (from_option truthy false)
    false text trailing (fun r _ => Some (cb r))
    (CommentIterator.iterateFuel text pos) pos None
  = (fun rs => firstTruthy truthy (cb <$> default [] rs))
      <$> CommentIterator.iterateCommentRanges (option (list CommentRange.t))
            truthy' true text trailing CommentIterator.appendCommentRange
            (CommentIterator.iterateFuel text pos) pos None.
Proof.
  destruct (iterateCommentRanges_gathered text trailing truthy' pos)
    as (res & Hres & _).
  rewrite Hres. revert Hres. unfold CommentIterator.iterateCommentRanges.
  set (pos' := if pos =? 0 then _ else pos). clearbody pos'.
  destruct (CommentIterator.iterateLoop _ truthy' true text trailing _ _ _)
    as [[u|s]|] eqn:Hloop; [| |done].
  - intros _. exfalso. revert Hloop.
    generalize (CommentIterator.iterateFuel text pos).
    generalize (CommentIterator.mkState (option (list CommentRange.t)) pos'
                  None (trailing || (pos =? 0)) None).
    intros s fuel. revert s. induction fuel as [|fuel IH]; intros s; [done|].
    simpl. destruct (_ && _); [|done].
    pose proof (iterateTurn_extends text trailing truthy' s) as Hturn.
    destruct (CommentIterator.iterateTurn _ truthy' true text trailing _ s)
      as [u'|s1|s1]; [done|done|apply IH].
  - intros [= <-].
    destruct (iterateLoop_searching (CommentIterator.iterateFuel text pos)
                (CommentIterator.mkState (option (list CommentRange.t)) pos'
                   None (trailing || (pos =? 0)) None)
                s (Forall_nil_2 _) Hloop)
      as (out & Hout & Hresult).
    assert (CommentIterator.iterateLoop (option U) (from_option truthy false)
              false text trailing (fun r _ => Some (cb r))
              (CommentIterator.iterateFuel text pos)
              (CommentIterator.mkState (option U) pos' None
                 (trailing || (pos =? 0)) None)
            = Some out) as -> by exact Hout.
    simpl. f_equal.
    assert (default [] (match CommentIterator.pending _ s with
                        | Some r =>
                            CommentIterator.appendCommentRange r
                              (CommentIterator.accumulator _ s)
                        | None => CommentIterator.accumulator _ s
                        end) = rangesOf s) as ->.
    { unfold rangesOf. destruct (CommentIterator.pending _ s); simpl; [done|].
      by rewrite app_nil_r. }
    rewrite <- Hresult. by destruct out.
Qed.

End ForEach.

(** X23.  [forEachLeadingCommentRange] and [forEachTrailingCommentRange]
    call the callback on the ranges that [getLeadingCommentRanges] and
    [getTrailingCommentRanges] return, in their order, and return its first
    truthy result; when no result is truthy they return the last one, and
    [undefined] when there is no range. *)
Theorem forEach_is_first_truthy {U} (truthy : U -> bool) text pos
    (cb : CommentRange.t -> U) :
  CommentIterator.forEachLeadingCommentRange truthy text pos cb
  = (fun rs => firstTruthy truthy (cb <$> default [] rs))
      <$> CommentIterator.getLeadingCommentRanges text pos
  /\ CommentIterator.forEachTrailingCommentRange truthy text pos cb
     = (fun rs => firstTruthy truthy (cb <$> default [] rs))
         <$> CommentIterator.getTrailingCommentRanges text pos.
Proof. split; apply iterateCommentRanges_searching. Qed.

(** ** What the tracker records, and sweeping again *)

(** X24.  Every range that [skipWhitespaceThenMarkRangeAsTS] records is a
    range of its type that is not empty, and a TS range begins where the
    scan of the declaration stopped: at an offset whose code point, if the
    offset holds one, is none of line feed and carriage return, none of the
    white space characters that the switch of [commentScan] lists, no
    asterisk and no slash.  A TS range can begin on U+2028, U+2029 or
    U+0085, which the switch does not list, and behind the text when the
    declaration reaches there. *)
Theorem recorded_ranges_begin_on_text text ranges :
  let tracker := TsSyntaxTracker.declareAll text ranges in
  Forall (fun r => SyntaxRange.start r < SyntaxRange.end_ r
                   /\ SyntaxRange.type r = typeScript
                   /\ significantAt text (SyntaxRange.start r))
    (TsSyntaxTracker.tsSyntaxRanges tracker)
  /\ Forall (fun w => SyntaxRange.start w < SyntaxRange.end_ w
                      /\ SyntaxRange.type w = whitespace)
       (TsSyntaxTracker.whitespaceSyntaxRanges tracker).
Proof.
  unfold TsSyntaxTracker.declareAll.
  induction ranges as [|range ranges IH] using rev_ind;
    [split; constructor|].
  rewrite foldl_app. simpl. destruct IH as [IHts IHws].
  unfold TsSyntaxTracker.declare at 1 3,
    TsSyntaxTracker.skipWhitespaceThenMarkRangeAsTS.
  pose proof (commentScan_unfold text range.1 range.2 true) as Hu.
  destruct (commentScan text range.1 range.2 true) as [ds [realStart|]];
    simpl; [|done].
  split.
  - destruct (realStart <? range.2) eqn:E; [|done]. apply Z.ltb_lt in E.
    apply Forall_app. split; [done|]. apply Forall_singleton. simpl.
    split; [done|]. split; [done|].
    by eapply commentScanLoop_significant.
  - destruct (range.1 <? realStart) eqn:E; [|done]. apply Z.ltb_lt in E.
    apply Forall_app. split; [done|]. by apply Forall_singleton.
Qed.

(** A TS range that begins on a line separator, one that begins on the
    next-line character, and one that begins behind the text. *)
Example recorded_range_on_separator :
  TsSyntaxTracker.tsSyntaxRanges
    (TsSyntaxTracker.declareAll ([0x2028] ++ text_of "a") [(0, 2)])
  = [SyntaxRange.mk 0 2 typeScript]
  /\ TsSyntaxTracker.tsSyntaxRanges
       (TsSyntaxTracker.declareAll ([0x85] ++ text_of "a") [(0, 2)])
     = [SyntaxRange.mk 0 2 typeScript]
  /\ TsSyntaxTracker.tsSyntaxRanges
       (TsSyntaxTracker.declareAll (text_of "a ") [(1, 4)])
     = [SyntaxRange.mk 2 4 typeScript].
Proof. vm_compute. repeat split; reflexivity. Qed.

Lemma sortByKey_sorted_id {A} (key : A -> Z) l :
  StronglySorted (keyLe key) l -> sortByKey key l = l.
Proof.
  induction 1 as [|x l Hl IH Hx]; [done|]. simpl. rewrite IH.
  destruct l as [|y l]; [done|]. simpl.
  apply Forall_cons in Hx as [Hxy _]. unfold keyLe in Hxy.
  by replace (key x <=? key y) with true by lia.
Qed.

(** X25.  [getSyntaxRanges] ends for every text and every tracker, whatever
    its two arrays hold, also ranges that are empty, overlap or lie outside
    the text: the sweep returns within [getSyntaxRangesFuel] turns, three
    for each recorded range and three more.  The run leaves each array
    sorted by start and holding the ranges it held, and a second run
    yields the same ranges and leaves the arrays as they are. *)
Theorem getSyntaxRanges_ends_sorted text tracker :
  let ran := TsSyntaxTracker.getSyntaxRanges text tracker in
  let ws := TsSyntaxTracker.whitespaceSyntaxRanges (snd ran) in
  let ts := TsSyntaxTracker.tsSyntaxRanges (snd ran) in
  TsSyntaxTracker.getSyntaxRangesLoop (TsSyntaxTracker.getSyntaxRangesFuel ws ts)
    (text_length text) ws ts 0 0 0
  = Some (fst ran)
  /\ StronglySorted (keyLe SyntaxRange.start) ws
  /\ StronglySorted (keyLe SyntaxRange.start) ts
  /\ ws ≡ₚ TsSyntaxTracker.whitespaceSyntaxRanges tracker
  /\ ts ≡ₚ TsSyntaxTracker.tsSyntaxRanges tracker
  /\ TsSyntaxTracker.getSyntaxRanges text (snd ran) = ran.
Proof.
  unfold TsSyntaxTracker.getSyntaxRanges.
  cbn [fst snd TsSyntaxTracker.tsSyntaxRanges
       TsSyntaxTracker.whitespaceSyntaxRanges].
  split.
  { destruct (getSyntaxRangesLoop_returns (text_length text)
                (sortByKey SyntaxRange.start
                   (TsSyntaxTracker.whitespaceSyntaxRanges tracker))
                (sortByKey SyntaxRange.start
                   (TsSyntaxTracker.tsSyntaxRanges tracker))) as [ys ->].
    done. }
  do 2 (split; [apply sortByKey_sorted|]).
  do 2 (split; [apply sortByKey_Permutation|]).
  by rewrite !(sortByKey_sorted_id _ (sortByKey _ _)) by apply sortByKey_sorted.
Qed.

(** A sweep over ranges that lie before the text and behind it, and over
    one that ends before it starts. *)
Example getSyntaxRanges_of_any_tracker :
  fst (TsSyntaxTracker.getSyntaxRanges (text_of "abcd")
         (TsSyntaxTracker.mk [SyntaxRange.mk 2 1 whitespace]
            [SyntaxRange.mk 6 9 typeScript; SyntaxRange.mk (-3) (-1) typeScript]))
  = [SyntaxRange.mk 0 (-3) javaScript; SyntaxRange.mk (-3) (-1) typeScript;
     SyntaxRange.mk (-1) 2 javaScript; SyntaxRange.mk 2 4 javaScript].
Proof. vm_compute. reflexivity. Qed.

(** ** The positions of TS comments on the text *)

Lemma spanOf_spanOnText text m p :
  wellPaired text m -> spanOf m p -> spanOnText text p.
Proof.
  intros [Hchars Hpairs] (o & c & k & n & Ho & Hc & Hk & Hn & Hn12 & Hlt & Hmo
                          & Hmc & Hmk).
  exists o, c, k. do 3 (split; [done|]).
  destruct (Hpairs o Hmo) as (p' & ty & Hop & Hty & Hp').
  pose proof Hop as (Hslash & Hast & Hle & Hspaces & Hcolon).
  pose proof (Hchars _ _ Hmc) as Hcc.
  pose proof (Hchars _ _ Hmk) as Hck. simpl in Hck.
  assert (codeIs (charCodeAt text c) CharacterCodes.colon = true) as Hcolon'.
  { unfold colonDelimiter in Hcc. by destruct (n =? 1). }
  split; [|done].
  split; [|lia].
  destruct (decide (o + 2 <= c)) as [|Hn']; [done|exfalso].
  assert (c = o + 1) as -> by lia. clash.
Qed.

(** X26.  However scanners are created, cloned and driven over a text,
    every record of [getTSCommentPositions] sits on the text: [open] on the
    two characters of an opening, [colonPos] behind them on a colon, and
    [close] behind that on the two characters of a closing. *)
Theorem positions_sit_on_text text calls :
  let s := foldl (Session.perform text) Session.empty calls in
  Forall
    (fun sc =>
       Forall (spanOnText text) (getTSCommentPositions sc (Session.store s)))
    (Session.scanners s).
Proof.
  intros s. apply Forall_forall. intros sc _.
  pose proof (getBlockCommentDelimiters_wellPaired text sc _
                (session_wellPaired text calls)) as Hm.
  fold s in Hm. unfold getTSCommentPositions, pairDelimiters.
  eapply Forall_impl; [|intros p; by apply (spanOf_spanOnText text _ p Hm)].
  apply foldl_pairDelimiter_spans.
  - apply sorted_strictly; [apply sortByKey_sorted|apply sortedDelimiters_NoDup].
  - intros [q ty]. apply elem_of_sortedDelimiters.
  - by apply (colonsFollow_sortedDelimiters text).
  - split; [constructor|]. split; [constructor|]. split; [constructor|done].
Qed.
